(** * Data cache simulator (A9.c): shallow embedding and verified properties

    The simulator keeps a two-dimensional array of cache lines
    ([CacheLine **cache]), four [int] statistics counters and prints one
    record per processed access.  Here:

    - [int] and [unsigned int] values are integers of [Z]; the places where
      C arithmetic leaves the mathematical integers (the [++] on an [int]
      counter, the [--] on an [unsigned int] counter, the conversion of
      [associativity - 1] to [unsigned int]) carry their 32-bit wrap-around
      explicitly;
    - an array is a list, read and written by index; an index outside the
      array is undefined behaviour in C and is [None] here, so every result
      [Some _] is a run without an out-of-bounds access;
    - the line printed by [printf] is the record [Outcome] of its arguments;
    - the [for] loops are recursive functions over the number of iterations
      that remain, with the loop variable as an argument;
    - [init_cache] and [main] are the functions on the runs where every
      [malloc] returns a block; [init_cache_alloc] and [main_alloc] take the
      results of [malloc] as an argument and carry the two [exit(1)]
      branches of [init_cache], and coincide with the former when all the
      allocations succeed ([init_cache_alloc_spec], [main_alloc_success]). *)

From stdpp Require Import base tactics option list strings.
From Stdlib Require Import ZArith Lia.
From Stdlib Require Import Ascii.

Open Scope Z_scope.

(** ** Machine integers *)

Definition INT_MAX : Z := 2147483647.
Definition UINT_MOD : Z := 4294967296.

(** Value of a mathematical integer stored in an [unsigned int]. *)
Definition to_uint (x : Z) : Z := x mod UINT_MOD.

(** Value of a mathematical integer stored in an [int] (two's complement). *)
Definition to_int (x : Z) : Z := (x + 2147483648) mod UINT_MOD - 2147483648.

(** [x++] on an [int] counter.  Signed overflow is undefined in C; the
    wrap-around below is what a two's complement machine does, and the
    properties of the counters are stated for runs that stay below
    [INT_MAX], where [x++] is [x + 1]. *)
Definition int_incr (x : Z) : Z := to_int (x + 1).

(** C truth value of an [int]. *)
Definition truthy (x : Z) : bool := negb (x =? 0).

(** ** Arrays *)

Definition arr_get {A} (a : list A) (i : Z) : option A :=
  if 0 <=? i then a !! Z.to_nat i else None.

Definition arr_set {A} (a : list A) (i : Z) (x : A) : option (list A) :=
  if (0 <=? i) && (i <? Z.of_nat (length a)) then Some (<[Z.to_nat i := x]> a)
  else None.

(** ** Data structures of the source *)

Definition MAX_CACHE_SETS : Z := 8192.
Definition MAX_ASSOCIATIVITY : Z := 8.
Definition MAX_LINE_SIZE : Z := 64.

Record CacheConfig := mkConfig {
  num_sets : Z;
  associativity : Z;
  line_size : Z;
  offset_bits : Z;
  index_bits : Z
}.

Record CacheLine := mkLine {
  valid : Z;
  tag : Z;
  lru_counter : Z
}.

Record CacheStats := mkStats {
  hits : Z;
  misses : Z;
  mem_reads : Z;
  mem_writes : Z
}.

Definition set_valid (l : CacheLine) (v : Z) : CacheLine :=
  mkLine v (tag l) (lru_counter l).
Definition set_tag (l : CacheLine) (t : Z) : CacheLine :=
  mkLine (valid l) t (lru_counter l).
Definition set_lru_counter (l : CacheLine) (c : Z) : CacheLine :=
  mkLine (valid l) (tag l) c.

(** The arguments of the [printf] of [access_cache]: one printed line. *)
Record Outcome := mkOutcome {
  o_type : ascii;
  o_address : Z;
  o_tag : Z;
  o_index : Z;
  o_offset : Z;
  o_result : string;
  o_memrefs : Z
}.

(** ** log2_int *)

(** The [while (n > 1)] loop; [fuel] bounds the iterations, and
    [Z.to_nat n] of them are always enough since [n] halves each time. *)
Fixpoint log2_loop (fuel : nat) (n bits : Z) : Z :=
  match fuel with
  | O => bits
  | S fuel' => if 1 <? n then log2_loop fuel' (Z.shiftr n 1) (bits + 1) else bits
  end.

Definition log2_int (n : Z) : Z := log2_loop (Z.to_nat n) n 0.

(** ** init_cache *)

Definition empty_line : CacheLine := mkLine 0 0 0.

(** The configuration after [init_cache] has filled in the bit widths. *)
Definition init_config (config : CacheConfig) : CacheConfig :=
  mkConfig (num_sets config) (associativity config) (line_size config)
           (log2_int (line_size config)) (log2_int (num_sets config)).

(** The array built by [init_cache] ([malloc] is taken to succeed). *)
Definition init_lines (config : CacheConfig) : list (list CacheLine) :=
  replicate (Z.to_nat (num_sets config))
            (replicate (Z.to_nat (associativity config)) empty_line).

Definition init_cache (config : CacheConfig) : list (list CacheLine) * CacheConfig :=
  (init_lines config, init_config config).

(** ** update_lru *)

(** Body of the loop of [update_lru] at index [i]. *)
Definition update_lru_body (set : list CacheLine) (i accessed_counter : Z)
  : option (list CacheLine) :=
  l ← arr_get set i;
  if truthy (valid l) && (accessed_counter <? lru_counter l)
  then arr_set set i (set_lru_counter l (to_uint (lru_counter l - 1)))
  else Some set.

Fixpoint update_lru_loop (n : nat) (i : Z) (accessed_counter : Z)
    (set : list CacheLine) : option (list CacheLine) :=
  match n with
  | O => Some set
  | S n' =>
      set' ← update_lru_body set i accessed_counter;
      update_lru_loop n' (i + 1) accessed_counter set'
  end.

Definition update_lru (set : list CacheLine) (associativity accessed_way : Z)
  : option (list CacheLine) :=
  a ← arr_get set accessed_way;
  let accessed_counter := lru_counter a in
  set1 ← update_lru_loop (Z.to_nat associativity) 0 accessed_counter set;
  a1 ← arr_get set1 accessed_way;
  arr_set set1 accessed_way (set_lru_counter a1 (to_uint (associativity - 1))).

(** ** find_lru_victim *)

(** First loop: the index of the first invalid line, if any. *)
Fixpoint find_invalid_loop (n : nat) (i : Z) (set : list CacheLine)
  : option (option Z) :=
  match n with
  | O => Some None
  | S n' =>
      l ← arr_get set i;
      if negb (truthy (valid l)) then Some (Some i)
      else find_invalid_loop n' (i + 1) set
  end.

(** Second loop: scan for a strictly smaller counter. *)
Fixpoint find_min_loop (n : nat) (i : Z) (set : list CacheLine)
    (lru_way min_counter : Z) : option Z :=
  match n with
  | O => Some lru_way
  | S n' =>
      l ← arr_get set i;
      if lru_counter l <? min_counter
      then find_min_loop n' (i + 1) set i (lru_counter l)
      else find_min_loop n' (i + 1) set lru_way min_counter
  end.

Definition find_lru_victim (set : list CacheLine) (associativity : Z) : option Z :=
  l0 ← arr_get set 0;
  let lru_way := 0 in
  let min_counter := lru_counter l0 in
  r ← find_invalid_loop (Z.to_nat associativity) 0 set;
  match r with
  | Some i => Some i
  | None => find_min_loop (Z.to_nat (associativity - 1)) 1 set lru_way min_counter
  end.

(** ** access_cache *)

(** The tag search loop with its [break]: the pair [(hit, hit_way)]. *)
Fixpoint search_loop (n : nat) (i : Z) (set : list CacheLine) (tg : Z)
  : option (Z * Z) :=
  match n with
  | O => Some (0, -1)
  | S n' =>
      l ← arr_get set i;
      if truthy (valid l) && (tag l =? tg) then Some (1, i)
      else search_loop n' (i + 1) set tg
  end.

Definition addr_offset (config : CacheConfig) (address : Z) : Z :=
  Z.land address (to_uint (Z.shiftl 1 (offset_bits config) - 1)).
Definition addr_index (config : CacheConfig) (address : Z) : Z :=
  Z.land (Z.shiftr address (offset_bits config))
         (to_uint (Z.shiftl 1 (index_bits config) - 1)).
Definition addr_tag (config : CacheConfig) (address : Z) : Z :=
  Z.shiftr address (offset_bits config + index_bits config).

Definition is_read (access_type : ascii) : bool :=
  Ascii.eqb access_type "R" || Ascii.eqb access_type "r".
Definition is_write (access_type : ascii) : bool :=
  Ascii.eqb access_type "W" || Ascii.eqb access_type "w".

Definition hit_string (hit : Z) : string :=
  if truthy hit then "hit "%string else "miss"%string.

(** [access_cache] returns the cache, the statistics and the line it
    printed (if any). *)
Definition access_cache (cache : list (list CacheLine)) (config : CacheConfig)
    (access_type : ascii) (address : Z) (stats : CacheStats)
  : option (list (list CacheLine) * CacheStats * option Outcome) :=
  let offset := addr_offset config address in
  let index := addr_index config address in
  let tg := addr_tag config address in
  set ← arr_get cache index;
  '(hit, hit_way) ← search_loop (Z.to_nat (associativity config)) 0 set tg;
  if is_read access_type then
    let out := mkOutcome access_type address tg index offset (hit_string hit)
                         (if truthy hit then 0 else 1) in
    if truthy hit then
      let stats1 := mkStats (int_incr (hits stats)) (misses stats)
                            (mem_reads stats) (mem_writes stats) in
      set1 ← update_lru set (associativity config) hit_way;
      cache1 ← arr_set cache index set1;
      Some (cache1, stats1, Some out)
    else
      let stats1 := mkStats (hits stats) (int_incr (misses stats))
                            (int_incr (mem_reads stats)) (mem_writes stats) in
      victim_way ← find_lru_victim set (associativity config);
      v ← arr_get set victim_way;
      set1 ← arr_set set victim_way (set_valid v 1);
      v1 ← arr_get set1 victim_way;
      set2 ← arr_set set1 victim_way (set_tag v1 tg);
      set3 ← update_lru set2 (associativity config) victim_way;
      cache1 ← arr_set cache index set3;
      Some (cache1, stats1, Some out)
  else if is_write access_type then
    let stats1 := mkStats (hits stats) (misses stats) (mem_reads stats)
                          (int_incr (mem_writes stats)) in
    let out := mkOutcome access_type address tg index offset (hit_string hit) 1 in
    if truthy hit then
      let stats2 := mkStats (int_incr (hits stats1)) (misses stats1)
                            (mem_reads stats1) (mem_writes stats1) in
      set1 ← update_lru set (associativity config) hit_way;
      cache1 ← arr_set cache index set1;
      Some (cache1, stats2, Some out)
    else
      let stats2 := mkStats (hits stats1) (int_incr (misses stats1))
                            (mem_reads stats1) (mem_writes stats1) in
      Some (cache, stats2, Some out)
  else Some (cache, stats, None).

(** ** validate_config *)

(** The return value and the message written to [stderr], if any (without
    its final newline). *)
Definition validate_config (config : CacheConfig) : Z * option string :=
  if (num_sets config <=? 0) || (MAX_CACHE_SETS <? num_sets config) then
    (0, Some "Error: Number of sets must be 1-8192"%string)
  else if (associativity config <=? 0) || (MAX_ASSOCIATIVITY <? associativity config) then
    (0, Some "Error: Associativity must be 1-8"%string)
  else if (line_size config <? 8) || (MAX_LINE_SIZE <? line_size config) then
    (0, Some "Error: Line size must be 8-64 bytes"%string)
  else if negb (Z.land (num_sets config) (num_sets config - 1) =? 0) then
    (0, Some "Error: Number of sets must be a power of 2"%string)
  else if negb (Z.land (line_size config) (line_size config - 1) =? 0) then
    (0, Some "Error: Line size must be a power of 2"%string)
  else (1, None).

(** ** main *)

(** An access handed to [access_cache]: its type character and address. *)
Definition event : Type := ascii * Z.

(** A trace line as [sscanf] parsed it: type, size, address (lines that
    [sscanf] rejects are skipped by [main] and do not appear). *)
Record TraceLine := mkTraceLine {
  t_type : ascii;
  t_size : Z;
  t_address : Z
}.

(** The checks of [main] between [sscanf] and the call of [access_cache]:
    the access that reaches the core, if the line is not skipped. *)
Definition line_event (ln : TraceLine) : option event :=
  let size := t_size ln in
  if negb (size =? 1) && negb (size =? 2) && negb (size =? 4) && negb (size =? 8)
  then None
  else if negb (Z.land (t_address ln) (to_uint (size - 1)) =? 0) then None
  else Some (t_type ln, t_address ln).

Definition opt_list {A} (o : option A) : list A :=
  match o with Some x => [x] | None => [] end.

(** Replay of a sequence of accesses: the final cache and statistics and
    the printed lines, in order. *)
Fixpoint run (config : CacheConfig) (evs : list event)
    (cache : list (list CacheLine)) (stats : CacheStats)
  : option (list (list CacheLine) * CacheStats * list Outcome) :=
  match evs with
  | [] => Some (cache, stats, [])
  | e :: evs' =>
      '(cache1, stats1, out) ← access_cache cache config e.1 e.2 stats;
      '(cache2, stats2, outs) ← run config evs' cache1 stats1;
      Some (cache2, stats2, opt_list out ++ outs)
  end.

(** The [while (fgets ...)] loop of [main] over the parsed lines. *)
Definition main_loop (config : CacheConfig) (trace : list TraceLine)
    (cache : list (list CacheLine)) (stats : CacheStats)
  : option (list (list CacheLine) * CacheStats * list Outcome) :=
  run config (omap line_event trace) cache stats.

(** [main] from the point where [trace.config] has been read: the three
    integers of the file ([None] when the file is missing or malformed) and
    the parsed trace.  The result is the exit status together with the final
    cache, statistics and printed access lines when a cache was built. *)
Definition main (conf : option (Z * Z * Z)) (trace : list TraceLine)
  : option (Z * option (list (list CacheLine) * CacheStats * list Outcome)) :=
  match conf with
  | None => Some (1, None)
  | Some (ns, assoc, ls) =>
      let config := mkConfig ns assoc ls 0 0 in
      if negb (truthy (validate_config config).1) then Some (1, None)
      else
        let '(cache, config1) := init_cache config in
        let stats := mkStats 0 0 0 0 in
        r ← main_loop config1 trace cache stats;
        Some (0, Some r)
  end.

(** ** init_cache and main with the results of malloc *)

(** The loop of [init_cache] over the sets with the allocations made
    explicit: [malloc_ok k] tells whether the [malloc] call number [k] of the
    run returns a block (call 0 is the array of set pointers, call [i + 1]
    the lines of set [i]).  [n] sets remain, [i] have been built; [None]
    when a call returns [NULL]. *)
Fixpoint alloc_sets (malloc_ok : nat → bool) (n i : nat) (assoc : Z)
  : option (list (list CacheLine)) :=
  match n with
  | O => Some []
  | S n' =>
      if malloc_ok (S i)
      then sets ← alloc_sets malloc_ok n' (S i) assoc;
           Some (replicate (Z.to_nat assoc) empty_line :: sets)
      else None
  end.

(** [init_cache] with its two failure branches: a [NULL] from [malloc] makes
    it write a message to [stderr] and [exit(1)]; the result is then [inl]
    of the message (without its final newline). *)
Definition init_cache_alloc (malloc_ok : nat → bool) (config : CacheConfig)
  : string + (list (list CacheLine) * CacheConfig) :=
  if malloc_ok O then
    match alloc_sets malloc_ok (Z.to_nat (num_sets config)) O (associativity config) with
    | Some cache => inr (cache, init_config config)
    | None => inl "Error: Failed to allocate cache set memory"%string
    end
  else inl "Error: Failed to allocate cache memory"%string.

(** [main] over [init_cache_alloc].  [conf] holds the three [int] values
    that [fscanf] stored in [config] ([None] when [trace.config] is missing
    or [fscanf] did not convert three numbers); an [exit(1)] of [init_cache]
    ends the program with status 1 before any trace line is read. *)
Definition main_alloc (malloc_ok : nat → bool) (conf : option (Z * Z * Z))
    (trace : list TraceLine)
  : option (Z * option (list (list CacheLine) * CacheStats * list Outcome)) :=
  match conf with
  | None => Some (1, None)
  | Some (ns, assoc, ls) =>
      let config := mkConfig ns assoc ls 0 0 in
      if negb (truthy (validate_config config).1) then Some (1, None)
      else
        match init_cache_alloc malloc_ok config with
        | inl _ => Some (1, None)
        | inr (cache, config1) =>
            r ← main_loop config1 trace cache (mkStats 0 0 0 0);
            Some (0, Some r)
        end
  end.

(** ** Notions used to state the properties *)

(** Position in [evs] of the last access that maps to set [s] with tag [t]. *)
Fixpoint last_access_from (config : CacheConfig) (pos : nat) (evs : list event)
    (s t : Z) (acc : option nat) : option nat :=
  match evs with
  | [] => acc
  | e :: evs' =>
      last_access_from config (S pos) evs' s t
        (if (addr_index config e.2 =? s) && (addr_tag config e.2 =? t)
         then Some pos else acc)
  end.

Definition last_access (config : CacheConfig) (evs : list event) (s t : Z)
  : option nat :=
  last_access_from config 0 evs s t None.

(** [o1] is a position strictly before [o2]. *)
Definition earlier (o1 o2 : option nat) : Prop :=
  ∃ p1 p2 : nat, o1 = Some p1 ∧ o2 = Some p2 ∧ (p1 < p2)%nat.

(** A power of two. *)
Definition is_pow2 (n : Z) : Prop := ∃ k : Z, 0 <= k ∧ n = 2 ^ k.

(** The line is valid / all lines of the set are valid. *)
Definition line_valid (l : CacheLine) : Prop := valid l ≠ 0.
Definition set_full (set : list CacheLine) : Prop := Forall line_valid set.

(** The tag is held by a valid line of the set. *)
Definition resident (set : list CacheLine) (t : Z) : Prop :=
  ∃ (w : nat) (l : CacheLine), set !! w = Some l ∧ line_valid l ∧ tag l = t.

(** Number of printed lines with the given result string, and the sum of
    the memory references of the printed lines selected by [p]. *)
Definition count_result (r : string) (outs : list Outcome) : Z :=
  Z.of_nat (length (filter (λ o, o_result o = r) outs)).
Definition sum_memrefs (p : ascii → bool) (outs : list Outcome) : Z :=
  foldr (λ o acc, (if p (o_type o) then o_memrefs o else 0) + acc) 0 outs.

(** The three integers of [trace.config] pass [validate_config]. *)
Definition valid_geometry (ns assoc ls : Z) : Prop :=
  (validate_config (mkConfig ns assoc ls 0 0)).1 = 1.

(** Shape of a set between two accesses, for associativity [assoc]: the
    first [k] ways are valid, the others still as [init_cache] left them;
    the counters of the valid ways are distinct values of the top [k]
    levels, and their tags are distinct. *)
Definition set_inv (assoc : Z) (set : list CacheLine) : Prop :=
  ∃ k : nat,
    Z.of_nat (length set) = assoc ∧ (k ≤ length set)%nat ∧
    (∀ i l, set !! i = Some l → (i < k)%nat →
       valid l = 1 ∧ assoc - Z.of_nat k <= lru_counter l < assoc) ∧
    (∀ i l, set !! i = Some l → (k ≤ i)%nat → l = empty_line) ∧
    (∀ i j li lj, i ≠ j → set !! i = Some li → set !! j = Some lj →
       line_valid li → line_valid lj →
       tag li ≠ tag lj ∧ lru_counter li ≠ lru_counter lj).

(** A configuration as [init_cache] leaves it for a validated geometry. *)
Definition config_ok (config : CacheConfig) : Prop :=
  1 <= associativity config <= MAX_ASSOCIATIVITY ∧
  0 <= offset_bits config <= 6 ∧ 0 <= index_bits config <= 13 ∧
  num_sets config = 2 ^ index_bits config.

Definition cache_inv (config : CacheConfig) (cache : list (list CacheLine)) : Prop :=
  Z.of_nat (length cache) = num_sets config ∧
  ∀ (s : nat) set, cache !! s = Some set → set_inv (associativity config) set.

(** The counters of the valid lines of every set are ordered as the last
    accesses to their tags in the replayed sequence [evs]. *)
Definition lru_order (config : CacheConfig) (evs : list event)
    (cache : list (list CacheLine)) : Prop :=
  ∀ (s : nat) set, cache !! s = Some set →
    ∀ (i j : nat) li lj, set !! i = Some li → set !! j = Some lj →
      line_valid li → line_valid lj →
      is_Some (last_access config evs (Z.of_nat s) (tag li)) ∧
      (lru_counter li < lru_counter lj →
       earlier (last_access config evs (Z.of_nat s) (tag li))
               (last_access config evs (Z.of_nat s) (tag lj))).

(** What the loop of [update_lru] does to one line, for the counter
    [ac] of the accessed line. *)
Definition touch_line (ac : Z) (l : CacheLine) : CacheLine :=
  if truthy (valid l) && (ac <? lru_counter l)
  then set_lru_counter l (to_uint (lru_counter l - 1))
  else l.

(** The test of the search loop. *)
Definition tag_match (tg : Z) (l : CacheLine) : bool :=
  truthy (valid l) && (tag l =? tg).

(** The set after [update_lru] at way [w], where [l] is the line at [w]
    when [update_lru] is called. *)
Definition lru_touch (set : list CacheLine) (assoc : Z) (w : nat) (l : CacheLine)
  : list CacheLine :=
  <[w := set_lru_counter l (to_uint (assoc - 1))]> (touch_line (lru_counter l) <$> set).

(** The statistics after each kind of access. *)
Definition stats_read_hit (st : CacheStats) : CacheStats :=
  mkStats (int_incr (hits st)) (misses st) (mem_reads st) (mem_writes st).
Definition stats_read_miss (st : CacheStats) : CacheStats :=
  mkStats (hits st) (int_incr (misses st)) (int_incr (mem_reads st)) (mem_writes st).
Definition stats_write_hit (st : CacheStats) : CacheStats :=
  mkStats (int_incr (hits st)) (misses st) (mem_reads st) (int_incr (mem_writes st)).
Definition stats_write_miss (st : CacheStats) : CacheStats :=
  mkStats (hits st) (int_incr (misses st)) (mem_reads st) (int_incr (mem_writes st)).

(** The printed line of an access with the given hit flag and count. *)
Definition outcome_of (config : CacheConfig) (access_type : ascii) (address : Z)
    (hit memrefs : Z) : Outcome :=
  mkOutcome access_type address (addr_tag config address)
            (addr_index config address) (addr_offset config address)
            (hit_string hit) memrefs.

(** The array has the dimensions of the configuration. *)
Definition cache_shape (config : CacheConfig) (cache : list (list CacheLine)) : Prop :=
  Z.of_nat (length cache) = num_sets config ∧
  ∀ (s : nat) set, cache !! s = Some set →
    Z.of_nat (length set) = associativity config.

(** The access is a read or a write (the types [access_cache] processes). *)
Definition is_rw (e : event) : bool := is_read e.1 || is_write e.1.

(** How one access changes the statistics and what it prints. *)
Definition step_stats (ty : ascii) (stats stats' : CacheStats)
    (out : option Outcome) : Prop :=
  if is_read ty then
    ∃ o, out = Some o ∧ o_type o = ty ∧
      (stats' = stats_read_hit stats ∧ o_result o = "hit "%string ∧ o_memrefs o = 0 ∨
       stats' = stats_read_miss stats ∧ o_result o = "miss"%string ∧ o_memrefs o = 1)
  else if is_write ty then
    ∃ o, out = Some o ∧ o_type o = ty ∧
      (stats' = stats_write_hit stats ∧ o_result o = "hit "%string ∧ o_memrefs o = 1 ∨
       stats' = stats_write_miss stats ∧ o_result o = "miss"%string ∧ o_memrefs o = 1)
  else stats' = stats ∧ out = None.

(** The statistics are the totals of the printed lines. *)
Definition stats_of_outs (stats : CacheStats) (outs : list Outcome) : Prop :=
  hits stats = count_result "hit " outs ∧
  misses stats = count_result "miss" outs ∧
  mem_reads stats = sum_memrefs is_read outs ∧
  mem_writes stats = sum_memrefs is_write outs.

(** The printed lines of a replay: one per read or write, each with 0 or
    1 memory references and at most as many references as lines. *)
Definition outs_ok (evs : list event) (outs : list Outcome) : Prop :=
  length outs = length (filter (λ e, is_rw e = true) evs) ∧
  count_result "hit " outs + count_result "miss" outs = Z.of_nat (length outs) ∧
  Forall (λ o, 0 <= o_memrefs o <= 1) outs.

(** The configuration and the initial array for 4 sets, 2 ways and 16-byte
    lines. *)
Definition scenario_config : CacheConfig := (init_cache (mkConfig 4 2 16 0 0)).2.
Definition scenario_cache : list (list CacheLine) := (init_cache (mkConfig 4 2 16 0 0)).1.

(** The scenario "4 sets, 2 ways, 16-byte lines; reads of [a1], [a2], [a3]
    all map to set 0 and miss, the third evicts the line of [a1], and set 0
    ends up holding the tags of [a2] and [a3]". *)
Definition scenario_claim (a1 a2 a3 : Z) : Prop :=
  offset_bits scenario_config = 4 ∧ index_bits scenario_config = 2 ∧
  ∃ cache2 stats2 outs2 cache stats o1 o2 o3 set2 set,
    run scenario_config [("R"%char, a1); ("R"%char, a2)] scenario_cache
        (mkStats 0 0 0 0) = Some (cache2, stats2, outs2) ∧
    run scenario_config [("R"%char, a1); ("R"%char, a2); ("R"%char, a3)]
        scenario_cache (mkStats 0 0 0 0) = Some (cache, stats, [o1; o2; o3]) ∧
    (o_index o1 = 0 ∧ o_index o2 = 0 ∧ o_index o3 = 0) ∧
    (o_result o1 = "miss"%string ∧ o_result o2 = "miss"%string ∧
     o_result o3 = "miss"%string) ∧
    cache2 !! 0%nat = Some set2 ∧ cache !! 0%nat = Some set ∧
    (resident set2 (addr_tag scenario_config a1) ∧
     ¬ resident set (addr_tag scenario_config a1)) ∧
    (resident set (addr_tag scenario_config a2) ∧
     resident set (addr_tag scenario_config a3) ∧
     Forall (λ l, line_valid l ∧ (tag l = addr_tag scenario_config a2 ∨
                                  tag l = addr_tag scenario_config a3)) set).

(** The integers of the summary printed by [main] after the trace: the
    total of accesses ([stats.hits + stats.misses]) and the total of memory
    references ([stats.mem_reads + stats.mem_writes]), both [int] sums. *)
Definition summary_totals (stats : CacheStats) : Z * Z :=
  (to_int (hits stats + misses stats), to_int (mem_reads stats + mem_writes stats)).

(** The "Total cache size" printed by [main]:
    [config.num_sets * config.associativity * config.line_size] in [int]. *)
Definition total_cache_size (config : CacheConfig) : Z :=
  to_int (to_int (num_sets config * associativity config) * line_size config).

(** The first five columns of a printed line, and what they are for an
    access. *)
Definition out_fields (o : Outcome) : ascii * Z * Z * Z * Z :=
  (o_type o, o_address o, o_tag o, o_index o, o_offset o).
Definition echo (config : CacheConfig) (e : event) : ascii * Z * Z * Z * Z :=
  (e.1, e.2, addr_tag config e.2, addr_index config e.2, addr_offset config e.2).

(** A printed line is a read with 0 references on a hit and 1 on a miss, or
    a write with 1 reference. *)
Definition outcome_ok (o : Outcome) : Prop :=
  (o_result o = "hit "%string ∨ o_result o = "miss"%string) ∧
  (is_read (o_type o) = true ∧ is_write (o_type o) = false ∧
     o_memrefs o = (if decide (o_result o = "miss"%string) then 1 else 0) ∨
   is_read (o_type o) = false ∧ is_write (o_type o) = true ∧ o_memrefs o = 1).

(** Position in [evs] of the last read or write that maps to set [s] with
    tag [t] (accesses of other types are not uses). *)
Fixpoint last_use_from (config : CacheConfig) (pos : nat) (evs : list event)
    (s t : Z) (acc : option nat) : option nat :=
  match evs with
  | [] => acc
  | e :: evs' =>
      last_use_from config (S pos) evs' s t
        (if is_rw e && (addr_index config e.2 =? s) && (addr_tag config e.2 =? t)
         then Some pos else acc)
  end.

Definition last_use (config : CacheConfig) (evs : list event) (s t : Z)
  : option nat :=
  last_use_from config 0 evs s t None.

(** The counters of the valid lines of every set are ordered as the
    positions that [la] gives to their tags. *)
Definition order_by (la : Z → Z → option nat) (cache : list (list CacheLine)) : Prop :=
  ∀ (s : nat) set, cache !! s = Some set →
    ∀ (i j : nat) li lj, set !! i = Some li → set !! j = Some lj →
      line_valid li → line_valid lj →
      is_Some (la (Z.of_nat s) (tag li)) ∧
      (lru_counter li < lru_counter lj →
       earlier (la (Z.of_nat s) (tag li)) (la (Z.of_nat s) (tag lj))).

(** The statement on the statistics for the replay of [evs1 ++ evs2] from
    the initial cache, with no bound on the length of the trace: the
    counters after the prefix [evs1] are at most the final ones, and the
    final ones are the totals of the printed lines. *)
Definition statistics_claim (ns assoc ls : Z) (evs1 evs2 : list event) : Prop :=
  let config := (init_cache (mkConfig ns assoc ls 0 0)).2 in
  let cache0 := (init_cache (mkConfig ns assoc ls 0 0)).1 in
  ∃ c1 st1 o1 c2 st2 o2,
    run config evs1 cache0 (mkStats 0 0 0 0) = Some (c1, st1, o1) ∧
    run config (evs1 ++ evs2) cache0 (mkStats 0 0 0 0) = Some (c2, st2, o1 ++ o2) ∧
    (0 <= hits st1 <= hits st2 ∧ 0 <= misses st1 <= misses st2 ∧
     0 <= mem_reads st1 <= mem_reads st2 ∧ 0 <= mem_writes st1 <= mem_writes st2) ∧
    hits st2 + misses st2
      = Z.of_nat (length (filter (λ e, is_rw e = true) (evs1 ++ evs2))) ∧
    (Forall (λ e, is_rw e = true) (evs1 ++ evs2) →
     hits st2 + misses st2 = Z.of_nat (length (evs1 ++ evs2))) ∧
    hits st2 = count_result "hit " (o1 ++ o2) ∧
    misses st2 = count_result "miss" (o1 ++ o2) ∧
    mem_reads st2 = sum_memrefs is_read (o1 ++ o2) ∧
    mem_writes st2 = sum_memrefs is_write (o1 ++ o2).

(** * Properties *)

(** ** Machine integers and arrays *)

Lemma to_uint_small x : 0 <= x < UINT_MOD → to_uint x = x.
Proof. intros H. unfold to_uint. by apply Z.mod_small. Qed.

Lemma int_incr_small x : -2147483648 <= x < INT_MAX → int_incr x = x + 1.
Proof.
  intros H. unfold int_incr, to_int, INT_MAX, UINT_MOD in *.
  rewrite Z.mod_small; lia.
Qed.

Lemma truthy_true x : truthy x = true ↔ x ≠ 0.
Proof. unfold truthy. rewrite negb_true_iff, Z.eqb_neq. done. Qed.

Lemma truthy_false x : truthy x = false ↔ x = 0.
Proof. unfold truthy. rewrite negb_false_iff, Z.eqb_eq. done. Qed.

Lemma arr_get_nat {A} (a : list A) (n : nat) : arr_get a (Z.of_nat n) = a !! n.
Proof.
  unfold arr_get. rewrite Nat2Z.id.
  destruct (0 <=? Z.of_nat n) eqn:E; [done | apply Z.leb_gt in E; lia].
Qed.

Lemma arr_get_Some {A} (a : list A) i x :
  arr_get a i = Some x → 0 <= i < Z.of_nat (length a) ∧ a !! Z.to_nat i = Some x.
Proof.
  unfold arr_get. destruct (0 <=? i) eqn:E; [|done].
  apply Z.leb_le in E. intros H. split; [|done].
  apply lookup_lt_Some in H. lia.
Qed.

Lemma arr_set_nat {A} (a : list A) (n : nat) x :
  (n < length a)%nat → arr_set a (Z.of_nat n) x = Some (<[n := x]> a).
Proof.
  intros H. unfold arr_set. rewrite Nat2Z.id.
  destruct (0 <=? Z.of_nat n) eqn:E1; [|apply Z.leb_gt in E1; lia].
  destruct (Z.of_nat n <? Z.of_nat (length a)) eqn:E2; [done|].
  apply Z.ltb_ge in E2. lia.
Qed.


(** ** log2_int and powers of two *)

Lemma log2_loop_spec fuel : ∀ n bits,
  1 <= n → (Z.to_nat n ≤ fuel)%nat → log2_loop fuel n bits = bits + Z.log2 n.
Proof.
  induction fuel as [|fuel IH]; intros n bits Hn Hf; [lia|].
  simpl. destruct (1 <? n) eqn:E.
  - apply Z.ltb_lt in E. rewrite IH.
    + rewrite Z.log2_shiftr by lia.
      assert (H2 : 0 < Z.log2 n) by (apply Z.log2_pos; lia).
      lia.
    + rewrite Z.shiftr_div_pow2 by lia. change (2 ^ 1) with 2.
      assert (0 < n / 2) by (apply Z.div_str_pos; lia). lia.
    + rewrite Z.shiftr_div_pow2 by lia. change (2 ^ 1) with 2.
      assert (n / 2 < n) by (apply Z.div_lt; lia). lia.
  - apply Z.ltb_ge in E. assert (n = 1) by lia. subst. simpl. lia.
Qed.

Lemma log2_int_spec n : 1 <= n → log2_int n = Z.log2 n.
Proof. intros H. unfold log2_int. rewrite log2_loop_spec; [lia | lia | lia]. Qed.

Lemma log2_int_pow2 k : 0 <= k → log2_int (2 ^ k) = k.
Proof.
  intros H. rewrite log2_int_spec.
  - by apply Z.log2_pow2.
  - assert (0 < 2 ^ k) by (apply Z.pow_pos_nonneg; lia). lia.
Qed.

(** [n & (n - 1) == 0] characterises the powers of two among positive [n]. *)
Lemma land_pred_pow2 n : 1 <= n → Z.land n (n - 1) = 0 ↔ is_pow2 n.
Proof.
  intros Hn. split.
  - intros Hl. exists (Z.log2 n). split; [apply Z.log2_nonneg|].
    destruct (Z.eq_dec n (2 ^ Z.log2 n)) as [|Hne]; [done|exfalso].
    assert (Hs := Z.log2_spec n ltac:(lia)).
    assert (Hb1 : Z.testbit n (Z.log2 n) = true) by (apply Z.bit_log2; lia).
    assert (Hlog : Z.log2 (n - 1) = Z.log2 n).
    { apply Z.log2_unique; [apply Z.log2_nonneg | lia]. }
    assert (Hb2 : Z.testbit (n - 1) (Z.log2 n) = true).
    { rewrite <- Hlog. apply Z.bit_log2.
      assert (0 < 2 ^ Z.log2 n) by (apply Z.pow_pos_nonneg; [lia | apply Z.log2_nonneg]).
      lia. }
    assert (Hb : Z.testbit (Z.land n (n - 1)) (Z.log2 n) = true).
    { rewrite Z.land_spec, Hb1, Hb2. done. }
    rewrite Hl, Z.bits_0 in Hb. done.
  - intros (k & Hk & ->).
    replace (2 ^ k - 1) with (Z.ones k) by (rewrite Z.ones_equiv; lia).
    apply Z.bits_inj'. intros m Hm.
    rewrite Z.land_spec, Z.bits_0.
    destruct (Z.eq_dec m k) as [->|Hne].
    + rewrite Z.ones_spec_high by lia. apply andb_false_r.
    + rewrite Z.pow2_bits_false by lia. done.
Qed.

(** ** Geometry validation *)

Lemma validate_config_accepts config :
  (validate_config config).1 = 1 ↔
  (1 <= num_sets config <= 8192 ∧ is_pow2 (num_sets config)) ∧
  1 <= associativity config <= 8 ∧
  (8 <= line_size config <= 64 ∧ is_pow2 (line_size config)).
Proof.
  unfold validate_config, MAX_CACHE_SETS, MAX_ASSOCIATIVITY, MAX_LINE_SIZE.
  destruct (num_sets config <=? 0) eqn:E1; simpl.
  { apply Z.leb_le in E1. split; [done | lia]. }
  destruct (8192 <? num_sets config) eqn:E2; simpl.
  { apply Z.ltb_lt in E2. split; [done | lia]. }
  destruct (associativity config <=? 0) eqn:E3; simpl.
  { apply Z.leb_le in E3. split; [done | lia]. }
  destruct (8 <? associativity config) eqn:E4; simpl.
  { apply Z.ltb_lt in E4. split; [done | lia]. }
  destruct (line_size config <? 8) eqn:E5; simpl.
  { apply Z.ltb_lt in E5. split; [done | lia]. }
  destruct (64 <? line_size config) eqn:E6; simpl.
  { apply Z.ltb_lt in E6. split; [done | lia]. }
  apply Z.leb_gt in E1. apply Z.ltb_ge in E2. apply Z.leb_gt in E3.
  apply Z.ltb_ge in E4. apply Z.ltb_ge in E5. apply Z.ltb_ge in E6.
  destruct (Z.land (num_sets config) (num_sets config - 1) =? 0) eqn:E7; simpl.
  - apply Z.eqb_eq in E7. apply land_pred_pow2 in E7; [|lia].
    destruct (Z.land (line_size config) (line_size config - 1) =? 0) eqn:E8; simpl.
    + apply Z.eqb_eq in E8. apply land_pred_pow2 in E8; [|lia].
      split; [intros _; repeat split; (done || lia) | done].
    + apply Z.eqb_neq in E8. split; [done|].
      intros (_ & _ & _ & Hp). apply land_pred_pow2 in Hp; [done | lia].
  - apply Z.eqb_neq in E7. split; [done|].
    intros ((_ & Hp) & _). apply land_pred_pow2 in Hp; [done | lia].
Qed.

Lemma validate_config_rejects config :
  (validate_config config).1 = 1 ∧ (validate_config config).2 = None ∨
  (validate_config config).1 = 0 ∧ is_Some (validate_config config).2.
Proof.
  unfold validate_config.
  repeat match goal with
         | |- context [if ?b then _ else _] => destruct b; simpl
         end; eauto.
Qed.

Lemma validate_config_bits c1 c2 :
  num_sets c1 = num_sets c2 → associativity c1 = associativity c2 →
  line_size c1 = line_size c2 → validate_config c1 = validate_config c2.
Proof. intros H1 H2 H3. unfold validate_config. by rewrite H1, H2, H3. Qed.

(** C8: [validate_config] returns 1 exactly for the geometries with
    [num_sets] a power of two in [1, 8192], [associativity] in [1, 8] (any
    value, power of two or not) and [line_size] a power of two in [8, 64];
    for every other geometry it returns 0 with an error message, and [main]
    exits with status 1 without having built a cache. *)
Theorem C8_validate_config_iff config :
  ((validate_config config).1 = 1 ↔
   (1 <= num_sets config <= 8192 ∧ is_pow2 (num_sets config)) ∧
   1 <= associativity config <= 8 ∧
   (8 <= line_size config <= 64 ∧ is_pow2 (line_size config))) ∧
  ((validate_config config).1 = 1 ∨
   ((validate_config config).1 = 0 ∧ is_Some (validate_config config).2 ∧
    ∀ trace, main (Some (num_sets config, associativity config, line_size config))
                  trace = Some (1, None))).
Proof.
  split; [apply validate_config_accepts|].
  destruct (validate_config_rejects config) as [[H _]|[H1 H2]]; [by left | right].
  split_and!; [done | done |].
  intros trace. unfold main.
  rewrite (validate_config_bits _ config) by done.
  rewrite H1. done.
Qed.

(** Associativity need not be a power of two: a 3-way geometry is accepted. *)
Example validate_config_assoc3 :
  validate_config (mkConfig 4 3 16 0 0) = (1, None).
Proof. reflexivity. Qed.

(** ** The loops in closed form *)

Lemma update_lru_loop_app ac mid : ∀ pre post,
  update_lru_loop (length mid) (Z.of_nat (length pre)) ac (pre ++ mid ++ post)
  = Some (pre ++ (touch_line ac <$> mid) ++ post).
Proof.
  induction mid as [|l mid IH]; intros pre post; [done|].
  simpl. unfold update_lru_body.
  rewrite arr_get_nat, list_lookup_middle by done. simpl.
  assert (Hstep : (if truthy (valid l) && (ac <? lru_counter l)
                   then arr_set (pre ++ l :: mid ++ post) (Z.of_nat (length pre))
                          (set_lru_counter l (to_uint (lru_counter l - 1)))
                   else Some (pre ++ l :: mid ++ post))
                  = Some ((pre ++ [touch_line ac l]) ++ mid ++ post)).
  { unfold touch_line.
    destruct (truthy (valid l) && (ac <? lru_counter l)).
    - rewrite arr_set_nat by (rewrite length_app; simpl; lia).
      rewrite insert_app_r_alt by lia. rewrite Nat.sub_diag. simpl.
      by rewrite <- app_assoc.
    - by rewrite <- app_assoc. }
  rewrite Hstep. simpl.
  replace (Z.of_nat (length pre) + 1) with (Z.of_nat (length (pre ++ [touch_line ac l])))
    by (rewrite length_app; simpl; lia).
  rewrite IH. by rewrite <- app_assoc.
Qed.

Lemma update_lru_loop_all ac set :
  update_lru_loop (length set) 0 ac set = Some (touch_line ac <$> set).
Proof.
  pose proof (update_lru_loop_app ac set [] []) as H.
  simpl in H. by rewrite !app_nil_r in H.
Qed.

Lemma touch_line_self l : touch_line (lru_counter l) l = l.
Proof. unfold touch_line. rewrite Z.ltb_irrefl, andb_false_r. done. Qed.

(** [update_lru] on a set of [assoc] lines, in closed form. *)
Lemma update_lru_closed set assoc (w : nat) a :
  Z.of_nat (length set) = assoc → set !! w = Some a →
  update_lru set assoc (Z.of_nat w)
  = Some (<[w := set_lru_counter a (to_uint (assoc - 1))]>
            (touch_line (lru_counter a) <$> set)).
Proof.
  intros Hlen Hw. unfold update_lru.
  rewrite arr_get_nat, Hw. simpl.
  rewrite <- Hlen, Nat2Z.id, update_lru_loop_all. simpl.
  rewrite arr_get_nat, list_lookup_fmap, Hw. simpl.
  rewrite touch_line_self.
  rewrite arr_set_nat; [done|].
  rewrite length_fmap. by apply lookup_lt_Some in Hw.
Qed.

Lemma search_loop_spec tg set : ∀ (n k : nat),
  (k + n ≤ length set)%nat →
  (∃ (i : nat) l, (k ≤ i < k + n)%nat ∧ set !! i = Some l ∧ tag_match tg l = true ∧
     (∀ j l', (k ≤ j < i)%nat → set !! j = Some l' → tag_match tg l' = false) ∧
     search_loop n (Z.of_nat k) set tg = Some (1, Z.of_nat i)) ∨
  ((∀ j l', (k ≤ j < k + n)%nat → set !! j = Some l' → tag_match tg l' = false) ∧
   search_loop n (Z.of_nat k) set tg = Some (0, -1)).
Proof.
  induction n as [|n IH]; intros k Hk.
  { right. split; [intros; lia | done]. }
  destruct (lookup_lt_is_Some_2 set k) as [l Hl]; [lia|].
  simpl. rewrite arr_get_nat, Hl. simpl.
  fold (tag_match tg l).
  destruct (tag_match tg l) eqn:Hm.
  - left. exists k, l. split_and!; try done; try lia; intros; lia.
  - replace (Z.of_nat k + 1) with (Z.of_nat (S k)) by lia.
    destruct (IH (S k) ltac:(lia)) as [(i & l' & Hi & Hl' & Hm' & Hfirst & Hr)|[Hnone Hr]].
    + left. exists i, l'. split_and!; try done; try lia.
      intros j lj Hj Hlj. destruct (decide (j = k)) as [->|]; [congruence|].
      apply (Hfirst j); [lia | done].
    + right. split; [|done].
      intros j lj Hj Hlj. destruct (decide (j = k)) as [->|]; [congruence|].
      apply (Hnone j); [lia | done].
Qed.

Lemma find_invalid_loop_spec set : ∀ (n k : nat),
  (k + n ≤ length set)%nat →
  (∃ (i : nat) l, (k ≤ i < k + n)%nat ∧ set !! i = Some l ∧ valid l = 0 ∧
     (∀ j l', (k ≤ j < i)%nat → set !! j = Some l' → valid l' ≠ 0) ∧
     find_invalid_loop n (Z.of_nat k) set = Some (Some (Z.of_nat i))) ∨
  ((∀ j l', (k ≤ j < k + n)%nat → set !! j = Some l' → valid l' ≠ 0) ∧
   find_invalid_loop n (Z.of_nat k) set = Some None).
Proof.
  induction n as [|n IH]; intros k Hk.
  { right. split; [intros; lia | done]. }
  destruct (lookup_lt_is_Some_2 set k) as [l Hl]; [lia|].
  simpl. rewrite arr_get_nat, Hl. simpl.
  destruct (truthy (valid l)) eqn:Hv; simpl.
  - apply truthy_true in Hv.
    replace (Z.of_nat k + 1) with (Z.of_nat (S k)) by lia.
    destruct (IH (S k) ltac:(lia)) as [(i & l' & Hi & Hl' & Hm' & Hfirst & Hr)|[Hnone Hr]].
    + left. exists i, l'. split_and!; try done; try lia.
      intros j lj Hj Hlj. destruct (decide (j = k)) as [->|]; [congruence|].
      apply (Hfirst j); [lia | done].
    + right. split; [|done].
      intros j lj Hj Hlj. destruct (decide (j = k)) as [->|]; [congruence|].
      apply (Hnone j); [lia | done].
  - apply truthy_false in Hv.
    left. exists k, l. split_and!; try done; try lia; intros; lia.
Qed.

(** The second loop of [find_lru_victim] keeps the first minimum seen. *)
Lemma find_min_loop_spec set : ∀ (n k w : nat) lw,
  (k + n ≤ length set)%nat → (w < k)%nat → set !! w = Some lw →
  (∀ j lj, (j < k)%nat → set !! j = Some lj → lru_counter lw <= lru_counter lj) →
  (∀ j lj, (j < w)%nat → set !! j = Some lj → lru_counter lw < lru_counter lj) →
  ∃ (v : nat) lv, (v < k + n)%nat ∧ set !! v = Some lv ∧
    find_min_loop n (Z.of_nat k) set (Z.of_nat w) (lru_counter lw) = Some (Z.of_nat v) ∧
    (∀ j lj, (j < k + n)%nat → set !! j = Some lj → lru_counter lv <= lru_counter lj) ∧
    (∀ j lj, (j < v)%nat → set !! j = Some lj → lru_counter lv < lru_counter lj).
Proof.
  induction n as [|n IH]; intros k w lw Hk Hw Hlw Hmin Hfirst.
  { exists w, lw. split_and!; try done; [lia|].
    intros j lj Hj. apply Hmin. lia. }
  destruct (lookup_lt_is_Some_2 set k) as [l Hl]; [lia|].
  simpl. rewrite arr_get_nat, Hl. simpl.
  replace (Z.of_nat k + 1) with (Z.of_nat (S k)) by lia.
  destruct (lru_counter l <? lru_counter lw) eqn:E.
  - apply Z.ltb_lt in E.
    destruct (IH (S k) k l) as (v & lv & Hv & Hlv & Hr & Hm & Hf); try done; try lia.
    + intros j lj Hj Hlj. destruct (decide (j = k)) as [->|].
      * assert (lj = l) by congruence. subst. lia.
      * specialize (Hmin j lj ltac:(lia) Hlj). lia.
    + intros j lj Hj Hlj. specialize (Hmin j lj ltac:(lia) Hlj). lia.
    + exists v, lv. split_and!; try done; [lia|].
      intros j lj Hj. apply Hm. lia.
  - apply Z.ltb_ge in E.
    destruct (IH (S k) w lw) as (v & lv & Hv & Hlv & Hr & Hm & Hf); try done; try lia.
    + intros j lj Hj Hlj. destruct (decide (j = k)) as [->|].
      * assert (lj = l) by congruence. subst. lia.
      * apply (Hmin j); [lia | done].
    + exists v, lv. split_and!; try done; [lia|].
      intros j lj Hj. apply Hm. lia.
Qed.

(** ** update_lru and find_lru_victim *)

(** C5: on a set of [associativity] lines, [update_lru] succeeds and leaves
    every valid flag and tag as it was; the accessed way gets the counter
    [associativity - 1]; every other line that is valid and whose counter
    was strictly greater than the accessed line's counter before the call
    has its counter decremented by one; every other counter is unchanged. *)
Theorem C5_update_lru_rule set assoc way a :
  Z.of_nat (length set) = assoc → assoc <= INT_MAX →
  arr_get set way = Some a →
  (∀ (i : nat) l, set !! i = Some l → 0 <= lru_counter l < UINT_MOD) →
  ∃ set', update_lru set assoc way = Some set' ∧ length set' = length set ∧
    ∀ (i : nat) l, set !! i = Some l →
      ∃ l', set' !! i = Some l' ∧ valid l' = valid l ∧ tag l' = tag l ∧
        lru_counter l' =
          if decide (Z.of_nat i = way) then assoc - 1
          else if decide (line_valid l ∧ lru_counter a < lru_counter l)
               then lru_counter l - 1
               else lru_counter l.
Proof.
  intros Hlen Hmax Ha Hrange.
  apply arr_get_Some in Ha as [Hway Ha].
  rewrite <- (Z2Nat.id way) by lia.
  erewrite update_lru_closed by done.
  eexists. split; [done|]. split; [by rewrite length_insert, length_fmap|].
  intros i l Hl.
  assert (Hassoc : to_uint (assoc - 1) = assoc - 1).
  { apply to_uint_small. unfold INT_MAX, UINT_MOD in *. lia. }
  destruct (decide (i = Z.to_nat way)) as [->|Hne].
  - assert (l = a) by congruence. subst l.
    eexists. split.
    { apply list_lookup_insert_eq. rewrite length_fmap. by apply lookup_lt_Some in Ha. }
    simpl. rewrite decide_True by lia. by rewrite Hassoc.
  - rewrite list_lookup_insert_ne by done.
    rewrite list_lookup_fmap, Hl. simpl.
    eexists. split; [done|].
    rewrite decide_False by lia.
    unfold touch_line, line_valid.
    destruct (truthy (valid l)) eqn:Hv; simpl.
    + apply truthy_true in Hv.
      destruct (lru_counter a <? lru_counter l) eqn:Hc; simpl.
      * apply Z.ltb_lt in Hc. rewrite decide_True by done.
        split_and!; try done.
        apply to_uint_small.
        pose proof (Hrange _ _ Hl). pose proof (Hrange _ _ Ha). lia.
      * apply Z.ltb_ge in Hc. rewrite decide_False by lia. done.
    + apply truthy_false in Hv. rewrite decide_False by (intros [? _]; done). done.
Qed.

Lemma C5_update_lru_rule_witness :
  let set := [mkLine 1 7 1; mkLine 1 9 0; mkLine 1 4 2; mkLine 0 0 0] in
  ∃ set', update_lru set 4 1 = Some set' ∧ length set' = length set ∧
    ∀ (i : nat) l, set !! i = Some l →
      ∃ l', set' !! i = Some l' ∧ valid l' = valid l ∧ tag l' = tag l ∧
        lru_counter l' =
          if decide (Z.of_nat i = 1) then 4 - 1
          else if decide (line_valid l ∧ lru_counter (mkLine 1 9 0) < lru_counter l)
               then lru_counter l - 1
               else lru_counter l.
Proof.
  apply C5_update_lru_rule.
  - reflexivity.
  - unfold INT_MAX. lia.
  - reflexivity.
  - intros [|[|[|[|i]]]] l [=]; subst; simpl; unfold UINT_MOD; lia.
Defined.

Example update_lru_example :
  update_lru [mkLine 1 7 1; mkLine 1 9 0; mkLine 1 4 2; mkLine 0 0 0] 4 1
  = Some [mkLine 1 7 0; mkLine 1 9 3; mkLine 1 4 1; mkLine 0 0 0].
Proof. reflexivity. Qed.

Lemma find_lru_victim_spec set assoc :
  Z.of_nat (length set) = assoc → 1 <= assoc →
  ∃ (v : nat) lv, find_lru_victim set assoc = Some (Z.of_nat v) ∧
    set !! v = Some lv ∧
    ((valid lv = 0 ∧
      ∀ (j : nat) lj, (j < v)%nat → set !! j = Some lj → valid lj ≠ 0) ∨
     ((∀ (j : nat) lj, set !! j = Some lj → valid lj ≠ 0) ∧
      (∀ (j : nat) lj, set !! j = Some lj → lru_counter lv <= lru_counter lj) ∧
      (∀ (j : nat) lj, (j < v)%nat → set !! j = Some lj →
         lru_counter lv < lru_counter lj))).
Proof.
  intros Hlen Hassoc.
  destruct (lookup_lt_is_Some_2 set 0%nat) as [l0 Hl0]; [lia|].
  unfold find_lru_victim.
  pose proof (arr_get_nat set 0) as Hg. change (Z.of_nat 0) with 0 in Hg.
  rewrite Hg, Hl0. simpl.
  destruct (find_invalid_loop_spec set (Z.to_nat assoc) 0 ltac:(lia))
    as [(i & l & Hi & Hl & Hv & Hfirst & Hr)|[Hall Hr]];
    change (Z.of_nat 0) with 0 in Hr; rewrite Hr; simpl.
  - exists i, l. split_and!; try done. left. split; [done|].
    intros j lj Hj. apply Hfirst. lia.
  - destruct (find_min_loop_spec set (Z.to_nat (assoc - 1)) 1 0 l0)
      as (v & lv & Hv & Hlv & Hm & Hmin & Hf); try done; try lia.
    + intros j lj Hj Hlj. assert (j = 0%nat) by lia. subst.
      assert (lj = l0) by congruence. subst. lia.
    + change (Z.of_nat 0) with 0 in Hm. change (Z.of_nat 1) with 1 in Hm. rewrite Hm.
      exists v, lv. split_and!; try done. right. split_and!; try done.
      * intros j lj Hlj. apply (Hall j); [|done].
        apply lookup_lt_Some in Hlj. lia.
      * intros j lj Hlj. apply (Hmin j); [|done].
        apply lookup_lt_Some in Hlj. lia.
Qed.


(** C6: on a set of [associativity >= 1] lines, [find_lru_victim] returns
    the lowest way that is invalid when some line is invalid; when all
    lines are valid it returns the lowest way whose counter is the minimum
    of the set. *)
Theorem C6_find_lru_victim_rule set assoc :
  Z.of_nat (length set) = assoc → 1 <= assoc →
  ∃ (v : nat) lv, find_lru_victim set assoc = Some (Z.of_nat v) ∧
    set !! v = Some lv ∧
    ((valid lv = 0 ∧
      ∀ (j : nat) lj, (j < v)%nat → set !! j = Some lj → valid lj ≠ 0) ∨
     ((∀ (j : nat) lj, set !! j = Some lj → valid lj ≠ 0) ∧
      (∀ (j : nat) lj, set !! j = Some lj → lru_counter lv <= lru_counter lj) ∧
      (∀ (j : nat) lj, (j < v)%nat → set !! j = Some lj →
         lru_counter lv < lru_counter lj))).
Proof. apply find_lru_victim_spec. Qed.

Lemma C6_find_lru_victim_rule_witness :
  let set := [mkLine 1 7 1; mkLine 1 9 0; mkLine 1 4 2; mkLine 1 5 0] in
  ∃ (v : nat) lv, find_lru_victim set 4 = Some (Z.of_nat v) ∧
    set !! v = Some lv ∧
    ((valid lv = 0 ∧
      ∀ (j : nat) lj, (j < v)%nat → set !! j = Some lj → valid lj ≠ 0) ∨
     ((∀ (j : nat) lj, set !! j = Some lj → valid lj ≠ 0) ∧
      (∀ (j : nat) lj, set !! j = Some lj → lru_counter lv <= lru_counter lj) ∧
      (∀ (j : nat) lj, (j < v)%nat → set !! j = Some lj →
         lru_counter lv < lru_counter lj))).
Proof. apply C6_find_lru_victim_rule; [reflexivity | lia]. Defined.

Example find_lru_victim_tie :
  find_lru_victim [mkLine 1 7 1; mkLine 1 9 0; mkLine 1 4 2; mkLine 1 5 0] 4 = Some 1.
Proof. reflexivity. Qed.

Example find_lru_victim_invalid :
  find_lru_victim [mkLine 1 7 1; mkLine 0 0 0; mkLine 1 4 0; mkLine 0 0 0] 4 = Some 1.
Proof. reflexivity. Qed.

(** ** access_cache, case by case *)

Lemma addr_index_range config address :
  config_ok config → 0 <= addr_index config address < num_sets config.
Proof.
  intros (_ & _ & Hib & Hns). unfold addr_index.
  rewrite Z.shiftl_1_l.
  assert (Hpow : 0 < 2 ^ index_bits config <= 2 ^ 13).
  { split; [apply Z.pow_pos_nonneg; lia | apply Z.pow_le_mono_r; lia]. }
  rewrite to_uint_small by (unfold UINT_MOD; change (2 ^ 13) with 8192 in Hpow; lia).
  replace (2 ^ index_bits config - 1) with (Z.ones (index_bits config))
    by (rewrite Z.ones_equiv; lia).
  rewrite Z.land_ones by lia. rewrite Hns.
  apply Z.mod_pos_bound. lia.
Qed.

Lemma update_lru_touch set assoc (w : nat) l :
  Z.of_nat (length set) = assoc → set !! w = Some l →
  update_lru set assoc (Z.of_nat w) = Some (lru_touch set assoc w l).
Proof. apply update_lru_closed. Qed.

(** The read-miss path on the set: validate, retag, touch. *)
Lemma fill_touch set assoc (v : nat) lv tg :
  Z.of_nat (length set) = assoc → set !! v = Some lv →
  (x ← arr_get set (Z.of_nat v);
   set1 ← arr_set set (Z.of_nat v) (set_valid x 1);
   v1 ← arr_get set1 (Z.of_nat v);
   set2 ← arr_set set1 (Z.of_nat v) (set_tag v1 tg);
   update_lru set2 assoc (Z.of_nat v))
  = Some (lru_touch set assoc v (mkLine 1 tg (lru_counter lv))).
Proof.
  intros Hlen Hv. assert (Hlt := lookup_lt_Some _ _ _ Hv).
  rewrite arr_get_nat, Hv. simpl.
  rewrite arr_set_nat by done. simpl.
  rewrite arr_get_nat, list_lookup_insert_eq by done. simpl.
  rewrite arr_set_nat by (by rewrite length_insert). simpl.
  rewrite list_insert_insert_eq.
  erewrite update_lru_touch;
    [| by rewrite length_insert | by apply list_lookup_insert_eq].
  unfold lru_touch, set_tag, set_valid. simpl.
  by rewrite list_fmap_insert, list_insert_insert_eq.
Qed.

(** The access in every case, for a cache with the configured dimensions. *)
Lemma access_cache_cases config cache ty address stats :
  config_ok config → cache_shape config cache →
  let s := Z.to_nat (addr_index config address) in
  let tg := addr_tag config address in
  let assoc := associativity config in
  ∃ set, cache !! s = Some set ∧
    ((∃ (i : nat) l, set !! i = Some l ∧ tag_match tg l = true ∧
        (∀ (j : nat) l', (j < i)%nat → set !! j = Some l' → tag_match tg l' = false) ∧
        access_cache cache config ty address stats =
          if is_read ty then
            Some (<[s := lru_touch set assoc i l]> cache, stats_read_hit stats,
                  Some (outcome_of config ty address 1 0))
          else if is_write ty then
            Some (<[s := lru_touch set assoc i l]> cache, stats_write_hit stats,
                  Some (outcome_of config ty address 1 1))
          else Some (cache, stats, None)) ∨
     ((∀ (j : nat) l', set !! j = Some l' → tag_match tg l' = false) ∧
      ∃ (v : nat) lv, find_lru_victim set assoc = Some (Z.of_nat v) ∧
        set !! v = Some lv ∧
        access_cache cache config ty address stats =
          if is_read ty then
            Some (<[s := lru_touch set assoc v (mkLine 1 tg (lru_counter lv))]> cache,
                  stats_read_miss stats,
                  Some (outcome_of config ty address 0 1))
          else if is_write ty then
            Some (cache, stats_write_miss stats,
                  Some (outcome_of config ty address 0 1))
          else Some (cache, stats, None))).
Proof.
  intros Hcfg [Hlen Hsets] s tg assoc.
  pose proof (addr_index_range config address Hcfg) as Hidx.
  destruct (lookup_lt_is_Some_2 cache s) as [set Hset]; [lia|].
  exists set. split; [done|].
  pose proof (Hsets _ _ Hset) as Hsetlen. fold assoc in Hsetlen.
  assert (Hget : arr_get cache (addr_index config address) = Some set).
  { rewrite <- (Z2Nat.id (addr_index config address)) by lia.
    by rewrite arr_get_nat. }
  assert (Hput : ∀ set', arr_set cache (addr_index config address) set'
                         = Some (<[s := set']> cache)).
  { intros set'. rewrite <- (Z2Nat.id (addr_index config address)) by lia.
    apply arr_set_nat. by apply lookup_lt_Some in Hset. }
  unfold access_cache. rewrite Hget. simpl. fold tg assoc.
  destruct (search_loop_spec tg set (Z.to_nat assoc) 0 ltac:(lia))
    as [(i & l & Hi & Hl & Hm & Hfirst & Hr)|[Hnone Hr]];
    change (Z.of_nat 0) with 0 in Hr; rewrite Hr; simpl.
  - left. exists i, l. split_and!; try done.
    { intros j l' Hj. apply Hfirst. lia. }
    rewrite (update_lru_touch set assoc i l) by done. simpl.
    rewrite Hput.
    destruct (is_read ty); [done|]. destruct (is_write ty); done.
  - right. split.
    { intros j l' Hj. apply (Hnone j); [|done]. apply lookup_lt_Some in Hj. lia. }
    destruct (find_lru_victim_spec set assoc) as (v & lv & Hv & Hlv & _);
      [done | destruct Hcfg; lia |].
    exists v, lv. split_and!; try done.
    destruct (is_read ty).
    + rewrite Hv. simpl.
      pose proof (fill_touch set assoc v lv tg Hsetlen Hlv) as Hf.
      destruct (arr_get set (Z.of_nat v)) as [x|]; [simpl in * | done].
      destruct (arr_set set (Z.of_nat v) (set_valid x 1)) as [set1|]; [simpl in * | done].
      destruct (arr_get set1 (Z.of_nat v)) as [v1|]; [simpl in * | done].
      destruct (arr_set set1 (Z.of_nat v) (set_tag v1 tg)) as [set2|]; [simpl in * | done].
      rewrite Hf. simpl. by rewrite Hput.
    + destruct (is_write ty); done.
Qed.

Lemma tag_match_true tg l : tag_match tg l = true ↔ line_valid l ∧ tag l = tg.
Proof.
  unfold tag_match, line_valid.
  rewrite andb_true_iff, truthy_true, Z.eqb_eq. done.
Qed.

Lemma resident_iff set tg :
  resident set tg ↔ ∃ (w : nat) l, set !! w = Some l ∧ tag_match tg l = true.
Proof.
  unfold resident. split; intros (w & l & Hl & H); exists w, l.
  - split; [done|]. apply tag_match_true. done.
  - apply tag_match_true in H as [Hv Ht]. done.
Qed.

Lemma not_resident set tg :
  (∀ (j : nat) l, set !! j = Some l → tag_match tg l = false) → ¬ resident set tg.
Proof.
  intros Hnone (w & l & Hl & Hm)%resident_iff.
  rewrite (Hnone _ _ Hl) in Hm. done.
Qed.

Lemma is_read_write_excl ty : is_read ty = true → is_write ty = false.
Proof.
  unfold is_read, is_write.
  intros [->%Ascii.eqb_eq | ->%Ascii.eqb_eq]%orb_true_iff; reflexivity.
Qed.

(** ** Outcome of one access *)

(** C3: every access to a cache with the configured dimensions is
    processed; a read prints "hit " with 0 memory references when its tag is
    resident in its set and "miss" with 1 otherwise; a write prints 1 memory
    reference both when it hits and when it misses. *)
Theorem C3_memref_count config cache ty address stats :
  config_ok config → cache_shape config cache →
  ∃ set cache' stats' out,
    cache !! Z.to_nat (addr_index config address) = Some set ∧
    access_cache cache config ty address stats = Some (cache', stats', out) ∧
    (is_read ty = true →
       ∃ o, out = Some o ∧
         (resident set (addr_tag config address) ∧
            o_result o = "hit "%string ∧ o_memrefs o = 0 ∨
          ¬ resident set (addr_tag config address) ∧
            o_result o = "miss"%string ∧ o_memrefs o = 1)) ∧
    (is_write ty = true →
       ∃ o, out = Some o ∧ o_memrefs o = 1 ∧
         (resident set (addr_tag config address) ∧ o_result o = "hit "%string ∨
          ¬ resident set (addr_tag config address) ∧ o_result o = "miss"%string)).
Proof.
  intros Hcfg Hshape.
  destruct (access_cache_cases config cache ty address stats Hcfg Hshape)
    as (set & Hset & [(i & l & Hl & Hm & _ & Hr)|(Hnone & v & lv & _ & _ & Hr)]);
    exists set.
  - assert (Hres : resident set (addr_tag config address)).
    { apply resident_iff. eauto. }
    destruct (is_read ty) eqn:Er.
    + do 3 eexists. split_and!; [done | exact Hr | |].
      * intros _. eexists. split; [done|]. left. done.
      * rewrite is_read_write_excl; done.
    + destruct (is_write ty) eqn:Ew.
      * do 3 eexists. split_and!; [done | exact Hr | done |].
        intros _. eexists. split; [done|]. split; [done|]. left. done.
      * do 3 eexists. split_and!; [done | exact Hr | done | done].
  - apply not_resident in Hnone.
    destruct (is_read ty) eqn:Er.
    + do 3 eexists. split_and!; [done | exact Hr | |].
      * intros _. eexists. split; [done|]. right. done.
      * rewrite is_read_write_excl; done.
    + destruct (is_write ty) eqn:Ew.
      * do 3 eexists. split_and!; [done | exact Hr | done |].
        intros _. eexists. split; [done|]. split; [done|]. right. done.
      * do 3 eexists. split_and!; [done | exact Hr | done | done].
Qed.

(** C4: a write whose tag is not resident in its set returns the cache
    unchanged (every valid flag, tag and counter of every set), leaves
    [hits] and [mem_reads] as they were and increments [misses] and
    [mem_writes]. *)
Theorem C4_write_miss_frame config cache ty address stats set :
  config_ok config → cache_shape config cache →
  is_write ty = true →
  cache !! Z.to_nat (addr_index config address) = Some set →
  ¬ resident set (addr_tag config address) →
  ∃ stats' o,
    access_cache cache config ty address stats = Some (cache, stats', Some o) ∧
    o_result o = "miss"%string ∧
    hits stats' = hits stats ∧ mem_reads stats' = mem_reads stats ∧
    misses stats' = int_incr (misses stats) ∧
    mem_writes stats' = int_incr (mem_writes stats) ∧
    (0 <= misses stats < INT_MAX → misses stats' = misses stats + 1) ∧
    (0 <= mem_writes stats < INT_MAX → mem_writes stats' = mem_writes stats + 1).
Proof.
  intros Hcfg Hshape Hw Hset Hmiss.
  assert (Hr : is_read ty = false).
  { destruct (is_read ty) eqn:E; [|done].
    apply is_read_write_excl in E. congruence. }
  destruct (access_cache_cases config cache ty address stats Hcfg Hshape)
    as (set' & Hset' & [(i & l & Hl & Hm & _ & _)|(Hnone & v & lv & _ & _ & Hres)]).
  - exfalso. apply Hmiss. apply resident_iff.
    assert (set' = set) by congruence. subst. eauto.
  - rewrite Hr, Hw in Hres. rewrite Hres.
    do 2 eexists. split_and!; try done; simpl.
    + intros H. apply int_incr_small. unfold INT_MAX in *. lia.
    + intros H. apply int_incr_small. unfold INT_MAX in *. lia.
Qed.

(** C10: an access whose type is none of R, r, W, w changes neither the
    cache nor the statistics and prints nothing, and [main] does hand such
    an access to [access_cache] when its size and alignment are accepted. *)
Theorem C10_unknown_kind_noop config cache ty address stats :
  ty ≠ "R"%char → ty ≠ "r"%char → ty ≠ "W"%char → ty ≠ "w"%char →
  (∀ r, access_cache cache config ty address stats = Some r →
        r = (cache, stats, None)) ∧
  (config_ok config → cache_shape config cache →
   access_cache cache config ty address stats = Some (cache, stats, None)) ∧
  (∀ size, size = 1 ∨ size = 2 ∨ size = 4 ∨ size = 8 →
     Z.land address (size - 1) = 0 →
     line_event (mkTraceLine ty size address) = Some (ty, address) ∧
     main_loop config [mkTraceLine ty size address] cache stats
     = '(c, st, out) ← access_cache cache config ty address stats;
       Some (c, st, opt_list out)).
Proof.
  intros H1 H2 H3 H4.
  assert (Hr : is_read ty = false).
  { unfold is_read. apply orb_false_iff. split; by apply Ascii.eqb_neq. }
  assert (Hw : is_write ty = false).
  { unfold is_write. apply orb_false_iff. split; by apply Ascii.eqb_neq. }
  split_and!.
  - intros r. unfold access_cache.
    destruct (arr_get cache (addr_index config address)) as [set|]; [simpl | done].
    destruct (search_loop _ _ _ _) as [[hit hit_way]|]; [simpl | done].
    rewrite Hr, Hw. by intros [= <-].
  - intros Hcfg Hshape.
    destruct (access_cache_cases config cache ty address stats Hcfg Hshape)
      as (set & _ & [(i & l & _ & _ & _ & Hres)|(_ & v & lv & _ & _ & Hres)]);
      by rewrite Hr, Hw in Hres.
  - intros size Hsize Halign.
    assert (Hle : line_event (mkTraceLine ty size address) = Some (ty, address)).
    { unfold line_event. simpl.
      assert (to_uint (size - 1) = size - 1) as ->
          by (apply to_uint_small; unfold UINT_MOD; lia).
      rewrite Halign. simpl.
      destruct Hsize as [-> | [-> | [-> | ->]]]; reflexivity. }
    split; [done|].
    unfold main_loop. simpl. rewrite Hle. simpl.
    destruct (access_cache cache config ty address stats) as [[[c st] out]|]; [simpl | done].
    by rewrite app_nil_r.
Qed.

Lemma C10_unknown_kind_noop_witness :
  access_cache [[mkLine 1 0 1; mkLine 0 0 0]] (mkConfig 1 2 16 4 0) "X" 64
               (mkStats 3 2 1 4)
  = Some ([[mkLine 1 0 1; mkLine 0 0 0]], mkStats 3 2 1 4, None).
Proof.
  refine (proj1 (proj2 (C10_unknown_kind_noop (mkConfig 1 2 16 4 0)
            [[mkLine 1 0 1; mkLine 0 0 0]] "X" 64 (mkStats 3 2 1 4) _ _ _ _)) _ _).
  - discriminate.
  - discriminate.
  - discriminate.
  - discriminate.
  - unfold config_ok, MAX_ASSOCIATIVITY. simpl. lia.
  - split; [reflexivity|]. intros [|s] set [=]. by subst.
Defined.

(** ** Replay and the initial cache *)

Lemma run_app config evs1 : ∀ evs2 cache stats,
  run config (evs1 ++ evs2) cache stats =
  '(c1, s1, o1) ← run config evs1 cache stats;
  '(c2, s2, o2) ← run config evs2 c1 s1;
  Some (c2, s2, o1 ++ o2).
Proof.
  induction evs1 as [|e evs1 IH]; intros evs2 cache stats; simpl.
  - destruct (run config evs2 cache stats) as [[[c2 s2] o2]|]; done.
  - destruct (access_cache cache config e.1 e.2 stats) as [[[c s] o]|]; [simpl | done].
    rewrite IH.
    destruct (run config evs1 c s) as [[[c1 s1] o1]|]; [simpl | done].
    destruct (run config evs2 c1 s1) as [[[c2 s2] o2]|]; [simpl | done].
    by rewrite app_assoc.
Qed.

Lemma run_snoc config evs (e : event) cache stats :
  run config (evs ++ [e]) cache stats =
  '(c1, s1, o1) ← run config evs cache stats;
  '(c2, s2, o) ← access_cache c1 config e.1 e.2 s1;
  Some (c2, s2, o1 ++ opt_list o).
Proof.
  rewrite run_app.
  destruct (run config evs cache stats) as [[[c1 s1] o1]|]; [simpl | done].
  destruct (access_cache c1 config e.1 e.2 s1) as [[[c2 s2] o]|]; [simpl | done].
  by rewrite app_nil_r.
Qed.

Lemma pow2_bound k n : 0 <= k → 2 ^ k <= 2 ^ n → 0 <= n → k <= n.
Proof.
  intros Hk Hle Hn. destruct (Z_le_gt_dec k n) as [|Hgt]; [done|exfalso].
  assert (2 ^ n < 2 ^ k) by (apply Z.pow_lt_mono_r; lia). lia.
Qed.

Lemma init_config_ok ns assoc ls :
  valid_geometry ns assoc ls → config_ok (init_config (mkConfig ns assoc ls 0 0)).
Proof.
  unfold valid_geometry. rewrite validate_config_accepts. simpl.
  intros ((Hns & kn & Hkn & ->) & Hassoc & (Hls & kl & Hkl & ->)).
  unfold config_ok, init_config, MAX_ASSOCIATIVITY. simpl.
  rewrite !log2_int_pow2 by done.
  assert (kn <= 13) by (apply pow2_bound; [done | change (2 ^ 13) with 8192; lia | lia]).
  assert (kl <= 6) by (apply pow2_bound; [done | change (2 ^ 6) with 64; lia | lia]).
  lia.
Qed.

Lemma empty_set_inv assoc :
  0 <= assoc → set_inv assoc (replicate (Z.to_nat assoc) empty_line).
Proof.
  intros H. exists 0%nat. split_and!.
  - rewrite length_replicate. lia.
  - lia.
  - intros; lia.
  - intros i l Hl _. by apply lookup_replicate in Hl as [-> _].
  - intros i j li lj _ Hli _ Hvi. apply lookup_replicate in Hli as [-> _]. done.
Qed.

Lemma init_cache_inv ns assoc ls :
  valid_geometry ns assoc ls →
  cache_inv (init_config (mkConfig ns assoc ls 0 0)) (init_lines (mkConfig ns assoc ls 0 0)).
Proof.
  intros Hgeo. pose proof Hgeo as Hv.
  unfold valid_geometry in Hv. rewrite validate_config_accepts in Hv. simpl in Hv.
  destruct Hv as ((Hns & _) & Hassoc & _).
  unfold cache_inv, init_lines. simpl. split.
  - rewrite length_replicate. lia.
  - intros s set Hs. apply lookup_replicate in Hs as [-> _].
    apply empty_set_inv. lia.
Qed.

Lemma cache_inv_shape config cache : cache_inv config cache → cache_shape config cache.
Proof.
  intros [Hlen Hsets]. split; [done|].
  intros s set Hs. by destruct (Hsets s set Hs) as (k & Hl & _).
Qed.

(** ** The set invariant is kept by every access *)

Lemma touch_line_valid ac l : valid (touch_line ac l) = valid l.
Proof. unfold touch_line. by destruct (_ && _). Qed.

Lemma touch_line_tag ac l : tag (touch_line ac l) = tag l.
Proof. unfold touch_line. by destruct (_ && _). Qed.

Lemma touch_line_counter ac l :
  0 <= ac → lru_counter l < UINT_MOD →
  lru_counter (touch_line ac l) =
  if decide (line_valid l ∧ ac < lru_counter l) then lru_counter l - 1
  else lru_counter l.
Proof.
  intros Hac Hl. unfold touch_line, line_valid.
  destruct (truthy (valid l)) eqn:Hv; simpl.
  - apply truthy_true in Hv. destruct (ac <? lru_counter l) eqn:Hc; simpl.
    + apply Z.ltb_lt in Hc. rewrite decide_True by done.
      apply to_uint_small. lia.
    + apply Z.ltb_ge in Hc. rewrite decide_False by lia. done.
  - apply truthy_false in Hv. rewrite decide_False by (intros [? _]; done). done.
Qed.

Lemma touch_line_empty ac : 0 <= ac → touch_line ac empty_line = empty_line.
Proof. intros H. reflexivity. Qed.

Lemma lru_touch_lookup_eq set assoc (w : nat) l :
  (w < length set)%nat →
  lru_touch set assoc w l !! w = Some (set_lru_counter l (to_uint (assoc - 1))).
Proof. intros H. unfold lru_touch. apply list_lookup_insert_eq. by rewrite length_fmap. Qed.

Lemma lru_touch_lookup_ne set assoc (w i : nat) l l' :
  i ≠ w → lru_touch set assoc w l !! i = Some l' →
  ∃ l0, set !! i = Some l0 ∧ l' = touch_line (lru_counter l) l0.
Proof.
  intros Hne. unfold lru_touch.
  rewrite list_lookup_insert_ne by done.
  rewrite list_lookup_fmap. intros (l0 & H0 & ->)%fmap_Some. eauto.
Qed.

Lemma lru_touch_length set assoc w l : length (lru_touch set assoc w l) = length set.
Proof. unfold lru_touch. by rewrite length_insert, length_fmap. Qed.

Section access_set.
(** A set in its invariant, the way [w] that an access loads or hits, and
    the tag [tg] of the access, which no other valid line holds. *)
Variables (assoc : Z) (set : list CacheLine) (w : nat) (lw : CacheLine) (tg : Z).
Hypothesis Hassoc : 1 <= assoc <= INT_MAX.
Hypothesis Hinv : set_inv assoc set.
Hypothesis Hw : set !! w = Some lw.
Hypothesis Htags :
  ∀ (j : nat) lj, j ≠ w → set !! j = Some lj → tag_match tg lj = false.
Hypothesis Hpos :
  line_valid lw ∨ ∀ (j : nat) lj, (j < w)%nat → set !! j = Some lj → valid lj ≠ 0.

Lemma accessed_counter_range : 0 <= lru_counter lw < assoc.
Proof.
  destruct Hinv as (k & Hlen & Hk & Hval & Hemp & Hdist).
  destruct (decide (w < k)%nat) as [Hlt|Hge].
  - destruct (Hval w lw Hw Hlt) as [_ ?]. lia.
  - rewrite (Hemp w lw Hw) by lia. simpl. lia.
Qed.

Lemma accessed_way_new :
  lru_touch set assoc w (mkLine 1 tg (lru_counter lw)) !! w
  = Some (mkLine 1 tg (assoc - 1)).
Proof.
  rewrite lru_touch_lookup_eq by (by apply lookup_lt_Some in Hw).
  unfold set_lru_counter. simpl.
  rewrite to_uint_small by (unfold INT_MAX, UINT_MOD in *; lia). done.
Qed.

Lemma other_way (i : nat) l' :
  i ≠ w →
  lru_touch set assoc w (mkLine 1 tg (lru_counter lw)) !! i = Some l' →
  ∃ l, set !! i = Some l ∧ valid l' = valid l ∧ tag l' = tag l ∧
    (line_valid l →
       valid l = 1 ∧ tag l ≠ tg ∧ lru_counter l ≠ lru_counter lw ∧
       0 <= lru_counter l < assoc ∧
       lru_counter l' =
         lru_counter l - (if decide (lru_counter lw < lru_counter l) then 1 else 0)) ∧
    (¬ line_valid l → l' = empty_line).
Proof.
  intros Hne Hl'.
  pose proof accessed_counter_range as Hac.
  destruct (lru_touch_lookup_ne _ _ _ _ _ _ Hne Hl') as (l & Hl & ->).
  simpl. exists l. rewrite touch_line_valid, touch_line_tag.
  destruct Hinv as (k & Hlen & Hk & Hval & Hemp & Hdist).
  split_and!; try done.
  - intros Hv.
    assert (Hik : (i < k)%nat).
    { destruct (decide (i < k)%nat); [done|].
      rewrite (Hemp i l Hl) in Hv by lia. done. }
    destruct (Hval i l Hl Hik) as [Hv1 Hrange].
    assert (Htag : tag l ≠ tg).
    { intros Heq. pose proof (Htags i l Hne Hl) as Hm.
      assert (tag_match tg l = true) by (by apply tag_match_true). congruence. }
    assert (Hc : lru_counter l ≠ lru_counter lw).
    { destruct (decide (w < k)%nat) as [Hlt|Hge].
      - assert (line_valid lw).
        { destruct (Hval w lw Hw Hlt) as [Hvw _]. unfold line_valid. lia. }
        by destruct (Hdist i w l lw Hne Hl Hw Hv).
      - rewrite (Hemp w lw Hw) by lia. simpl.
        apply lookup_lt_Some in Hw. lia. }
    split_and!; try done; try lia.
    rewrite touch_line_counter; [| lia | unfold INT_MAX, UINT_MOD in *; lia].
    repeat case_decide; try lia; intuition lia.
  - intros Hv.
    assert (l = empty_line) as ->.
    { destruct (decide (i < k)%nat) as [Hlt|Hge].
      - destruct (Hval i l Hl Hlt) as [Hv1 _]. exfalso. apply Hv.
        unfold line_valid. lia.
      - apply (Hemp i l Hl). lia. }
    apply touch_line_empty. lia.
Qed.

Lemma set_inv_access :
  set_inv assoc (lru_touch set assoc w (mkLine 1 tg (lru_counter lw))).
Proof.
  pose proof accessed_counter_range as Hac.
  pose proof other_way as Hother.
  pose proof accessed_way_new as Hnew.
  destruct Hinv as (k & Hlen & Hk & Hval & Hemp & Hdist).
  assert (Hwlen := lookup_lt_Some _ _ _ Hw).
  assert (Hcase : (w < k)%nat ∧ assoc - Z.of_nat k <= lru_counter lw
                  ∨ w = k ∧ lru_counter lw = 0).
  { destruct (decide (w < k)%nat) as [Hlt|Hge].
    - left. destruct (Hval w lw Hw Hlt) as [_ ?]. split; [done | lia].
    - right. assert (Hlw : lw = empty_line) by (apply (Hemp w lw Hw); lia).
      split; [|by rewrite Hlw].
      destruct Hpos as [Hv|Hall]; [by rewrite Hlw in Hv|].
      destruct (decide (w = k)) as [|Hne]; [done|exfalso].
      destruct (lookup_lt_is_Some_2 set k) as [lk Hlk]; [lia|].
      apply (Hall k lk); [lia | done |].
      by rewrite (Hemp k lk Hlk) by lia. }
  exists (if decide (w < k)%nat then k else S k).
  split_and!.
  - by rewrite lru_touch_length.
  - rewrite lru_touch_length. repeat case_decide; lia.
  - intros i l' Hl' Hi.
    destruct (decide (i = w)) as [->|Hne].
    + rewrite Hnew in Hl'. injection Hl' as <-. simpl.
      repeat case_decide; lia.
    + destruct (Hother i l' Hne Hl') as (l & Hl & Hv' & _ & Hvalid & _).
      assert (Hik : (i < k)%nat) by (repeat case_decide; lia).
      destruct (Hval i l Hl Hik) as [Hv1 Hrange].
      destruct Hvalid as (_ & _ & Hc & _ & Hcnt); [unfold line_valid; lia|].
      split; [lia|]. rewrite Hcnt.
      repeat case_decide; lia.
  - intros i l' Hl' Hi.
    assert (Hne : i ≠ w) by (repeat case_decide; lia).
    destruct (Hother i l' Hne Hl') as (l & Hl & _ & _ & _ & Hinvalid).
    apply Hinvalid.
    rewrite (Hemp i l Hl) by (repeat case_decide; lia). unfold line_valid. simpl. lia.
  - intros i j li lj Hij Hli Hlj Hvi Hvj.
    destruct (decide (i = w)) as [->|Hiw]; destruct (decide (j = w)) as [->|Hjw];
      try done.
    + rewrite Hnew in Hli. injection Hli as <-. simpl.
      destruct (Hother j lj Hjw Hlj) as (l & Hl & Hv' & Ht' & Hvalid & _).
      destruct Hvalid as (_ & Ht & Hc & Hr & Hcnt);
        [unfold line_valid in *; lia|].
      rewrite Ht', Hcnt. split; [done|]. repeat case_decide; lia.
    + rewrite Hnew in Hlj. injection Hlj as <-. simpl.
      destruct (Hother i li Hiw Hli) as (l & Hl & Hv' & Ht' & Hvalid & _).
      destruct Hvalid as (_ & Ht & Hc & Hr & Hcnt);
        [unfold line_valid in *; lia|].
      rewrite Ht', Hcnt. split; [done|]. repeat case_decide; lia.
    + destruct (Hother i li Hiw Hli) as (l1 & Hl1 & Hv1 & Ht1 & Hvalid1 & _).
      destruct (Hother j lj Hjw Hlj) as (l2 & Hl2 & Hv2 & Ht2 & Hvalid2 & _).
      assert (Hlv1 : line_valid l1) by (unfold line_valid in *; lia).
      assert (Hlv2 : line_valid l2) by (unfold line_valid in *; lia).
      destruct (Hvalid1 Hlv1) as (_ & _ & Hc1 & Hr1 & Hcnt1).
      destruct (Hvalid2 Hlv2) as (_ & _ & Hc2 & Hr2 & Hcnt2).
      destruct (Hdist i j l1 l2 Hij Hl1 Hl2 Hlv1 Hlv2) as [Htne Hcne].
      rewrite Ht1, Ht2, Hcnt1, Hcnt2. split; [done|].
      repeat case_decide; lia.
Qed.
End access_set.

(** ** One access on a cache in its invariant *)

Lemma line_eta l tg : valid l = 1 → tag l = tg → l = mkLine 1 tg (lru_counter l).
Proof. destruct l; simpl; intros -> ->; done. Qed.

(** Either the access leaves the array as it is (and is not a read), or it
    loads or hits one way [w] of its set and the set becomes
    [lru_touch set assoc w _]. *)
Lemma access_cache_step config cache ty address stats :
  config_ok config → cache_inv config cache →
  let s := Z.to_nat (addr_index config address) in
  let tg := addr_tag config address in
  let assoc := associativity config in
  ∃ set stats' out, cache !! s = Some set ∧
    ((is_read ty = false ∧
      access_cache cache config ty address stats = Some (cache, stats', out)) ∨
     (∃ (w : nat) lw, set !! w = Some lw ∧
        (∀ (j : nat) lj, j ≠ w → set !! j = Some lj → tag_match tg lj = false) ∧
        (line_valid lw ∨
         ∀ (j : nat) lj, (j < w)%nat → set !! j = Some lj → valid lj ≠ 0) ∧
        access_cache cache config ty address stats =
          Some (<[s := lru_touch set assoc w (mkLine 1 tg (lru_counter lw))]> cache,
                stats', out))).
Proof.
  intros Hcfg Hinv s tg assoc.
  destruct (access_cache_cases config cache ty address stats Hcfg
              (cache_inv_shape _ _ Hinv))
    as (set & Hset & [(i & l & Hl & Hm & _ & Hr)|(Hnone & v & lv & Hv & Hlv & Hr)]);
    fold s tg assoc in Hr, Hset |- *; exists set.
  - (* the tag is found at way [i] *)
    apply tag_match_true in Hm as [Hvalid Htag].
    destruct Hinv as [_ Hsets].
    destruct (Hsets s set Hset) as (k & Hlen & Hk & Hval & Hemp & Hdist).
    assert (Hik : (i < k)%nat).
    { destruct (decide (i < k)%nat); [done|].
      rewrite (Hemp i l Hl) in Hvalid by lia. done. }
    destruct (Hval i l Hl Hik) as [Hv1 _].
    rewrite (line_eta l tg Hv1 Htag) in Hr.
    assert (Htags : ∀ (j : nat) lj, j ≠ i → set !! j = Some lj →
                                    tag_match tg lj = false).
    { intros j lj Hne Hlj. destruct (tag_match tg lj) eqn:E; [exfalso|done].
      apply tag_match_true in E as [Hvj Htj].
      destruct (Hdist j i lj l Hne Hlj Hl Hvj Hvalid) as [Hneq _].
      unfold tg in *. congruence. }
    destruct (is_read ty) eqn:Er; [|destruct (is_write ty) eqn:Ew].
    + do 2 eexists. split; [done|]. right. exists i, l.
      split; [done|]. split; [done|]. split; [by left | exact Hr].
    + do 2 eexists. split; [done|]. right. exists i, l.
      split; [done|]. split; [done|]. split; [by left | exact Hr].
    + do 2 eexists. split; [done|]. left. split; [done | exact Hr].
  - (* the tag is not in the set *)
    destruct (is_read ty) eqn:Er; [|destruct (is_write ty) eqn:Ew].
    + do 2 eexists. split; [done|]. right. exists v, lv.
      split; [done|]. split; [intros j lj _; apply Hnone|]. split; [|exact Hr].
      * destruct Hinv as [_ Hsets].
        destruct (Hsets s set Hset) as (k & Hlen & Hk & Hval & Hemp & Hdist).
        destruct (find_lru_victim_spec set assoc) as (v' & lv' & Hv' & Hlv' & Hvic);
          [done | destruct Hcfg; lia |].
        assert (v' = v) by (unfold assoc in *; rewrite Hv in Hv'; injection Hv'; lia). subst v'.
        assert (lv' = lv) by congruence. subst lv'.
        destruct Hvic as [[_ Hfirst]|[Hall _]].
        -- by right.
        -- left. apply (Hall v lv Hlv).
    + do 2 eexists. split; [done|]. left. split; [done | exact Hr].
    + do 2 eexists. split; [done|]. left. split; [done | exact Hr].
Qed.

Lemma cache_inv_insert config cache (s : nat) set' :
  cache_inv config cache → set_inv (associativity config) set' →
  cache_inv config (<[s := set']> cache).
Proof.
  intros [Hlen Hsets] Hset'. split; [by rewrite length_insert|].
  intros s0 set0. rewrite list_lookup_insert.
  case_decide; [intros [= <-]; done | apply Hsets].
Qed.

Lemma access_cache_inv config cache ty address stats :
  config_ok config → cache_inv config cache →
  ∃ cache' stats' out,
    access_cache cache config ty address stats = Some (cache', stats', out) ∧
    cache_inv config cache'.
Proof.
  intros Hcfg Hinv.
  destruct (access_cache_step config cache ty address stats Hcfg Hinv)
    as (set & stats' & out & Hset &
        [[_ Hr]|(w & lw & Hw & Htags & Hpos & Hr)]).
  - eauto.
  - do 3 eexists. split; [exact Hr|].
    apply cache_inv_insert; [done|].
    apply set_inv_access; try done.
    + destruct Hcfg as [? _]. unfold MAX_ASSOCIATIVITY, INT_MAX in *. lia.
    + by destruct Hinv as [_ Hsets]; apply (Hsets _ _ Hset).
Qed.

(** Replay never fails on a cache in its invariant, and keeps it. *)
Lemma run_inv config evs : ∀ cache stats,
  config_ok config → cache_inv config cache →
  ∃ cache' stats' outs,
    run config evs cache stats = Some (cache', stats', outs) ∧
    cache_inv config cache'.
Proof.
  induction evs as [|e evs IH]; intros cache stats Hcfg Hinv; simpl.
  - eauto.
  - destruct (access_cache_inv config cache e.1 e.2 stats Hcfg Hinv)
      as (c1 & s1 & o & -> & Hinv1). simpl.
    destruct (IH c1 s1 Hcfg Hinv1) as (c2 & s2 & os & -> & Hinv2). simpl.
    eauto.
Qed.

(** ** The set-state invariant *)

Lemma run_from_init ns assoc ls evs :
  valid_geometry ns assoc ls →
  let config := init_config (mkConfig ns assoc ls 0 0) in
  ∃ cache stats outs,
    run config evs (init_lines (mkConfig ns assoc ls 0 0)) (mkStats 0 0 0 0)
    = Some (cache, stats, outs) ∧
    config_ok config ∧ cache_inv config cache.
Proof.
  intros Hgeo config.
  pose proof (init_config_ok ns assoc ls Hgeo) as Hcfg.
  pose proof (init_cache_inv ns assoc ls Hgeo) as Hinv.
  destruct (run_inv config evs _ (mkStats 0 0 0 0) Hcfg Hinv)
    as (cache & stats & outs & Hrun & Hinv').
  eauto 10.
Qed.


(** C7: for a validated geometry, replaying any sequence of accesses from
    the cache built by [init_cache] succeeds, and in the cache reached no set
    has two valid lines with the same tag, the counters of the valid lines
    of a set are pairwise distinct, and each lies in
    [0, associativity - 1]. *)
Theorem C7_set_state_invariant ns assoc ls evs :
  valid_geometry ns assoc ls →
  ∃ cache stats outs,
    run (init_cache (mkConfig ns assoc ls 0 0)).2 evs
        (init_cache (mkConfig ns assoc ls 0 0)).1 (mkStats 0 0 0 0)
    = Some (cache, stats, outs) ∧
    ∀ (s : nat) set, cache !! s = Some set →
      (∀ (i j : nat) li lj, i ≠ j → set !! i = Some li → set !! j = Some lj →
         line_valid li → line_valid lj →
         tag li ≠ tag lj ∧ lru_counter li ≠ lru_counter lj) ∧
      (∀ (i : nat) li, set !! i = Some li → line_valid li →
         0 <= lru_counter li <= assoc - 1).
Proof.
  intros Hgeo.
  destruct (run_from_init ns assoc ls evs Hgeo)
    as (cache & stats & outs & Hrun & Hcfg & [_ Hsets]).
  exists cache, stats, outs. split; [exact Hrun|].
  intros s set Hset.
  destruct (Hsets s set Hset) as (k & Hlen & Hk & Hval & Hemp & Hdist).
  simpl in *. split; [exact Hdist|].
  intros i li Hli Hv.
  assert (Hik : (i < k)%nat).
  { destruct (decide (i < k)%nat); [done|].
    rewrite (Hemp i li Hli) in Hv by lia. done. }
  destruct (Hval i li Hli Hik) as [_ ?]. lia.
Qed.

Lemma C7_set_state_invariant_witness :
  ∃ cache stats outs,
    run (init_cache (mkConfig 4 2 16 0 0)).2
        [("R"%char, 0); ("R"%char, 64); ("W"%char, 0); ("R"%char, 128)]
        (init_cache (mkConfig 4 2 16 0 0)).1 (mkStats 0 0 0 0)
    = Some (cache, stats, outs) ∧
    ∀ (s : nat) set, cache !! s = Some set →
      (∀ (i j : nat) li lj, i ≠ j → set !! i = Some li → set !! j = Some lj →
         line_valid li → line_valid lj →
         tag li ≠ tag lj ∧ lru_counter li ≠ lru_counter lj) ∧
      (∀ (i : nat) li, set !! i = Some li → line_valid li →
         0 <= lru_counter li <= 2 - 1).
Proof. apply C7_set_state_invariant. reflexivity. Defined.

(** ** Statistics *)

Lemma access_cache_stats config cache ty address stats :
  config_ok config → cache_shape config cache →
  ∃ cache' stats' out,
    access_cache cache config ty address stats = Some (cache', stats', out) ∧
    step_stats ty stats stats' out.
Proof.
  intros Hcfg Hshape.
  destruct (access_cache_cases config cache ty address stats Hcfg Hshape)
    as (set & _ & [(i & l & _ & _ & _ & Hr)|(_ & v & lv & _ & _ & Hr)]);
    unfold step_stats;
    (destruct (is_read ty); [|destruct (is_write ty)]);
    do 3 eexists; (split; [exact Hr|]); eauto 10.
Qed.

Lemma count_result_app r outs1 outs2 :
  count_result r (outs1 ++ outs2) = count_result r outs1 + count_result r outs2.
Proof. unfold count_result. rewrite filter_app, length_app. lia. Qed.

Lemma sum_memrefs_app p outs1 outs2 :
  sum_memrefs p (outs1 ++ outs2) = sum_memrefs p outs1 + sum_memrefs p outs2.
Proof.
  unfold sum_memrefs. induction outs1 as [|o outs1 IH]; simpl; [done|].
  rewrite IH. lia.
Qed.

Lemma count_result_nonneg r outs : 0 <= count_result r outs.
Proof. unfold count_result. lia. Qed.


Lemma count_result_single r o :
  count_result r [o] = if decide (o_result o = r) then 1 else 0.
Proof.
  unfold count_result. rewrite filter_cons, filter_nil. by case_decide.
Qed.

Lemma sum_memrefs_single p o :
  sum_memrefs p [o] = if p (o_type o) then o_memrefs o else 0.
Proof. unfold sum_memrefs. simpl. lia. Qed.



Lemma sum_memrefs_bound p outs :
  Forall (λ o, 0 <= o_memrefs o <= 1) outs →
  0 <= sum_memrefs p outs <= Z.of_nat (length outs).
Proof.
  induction 1 as [|o outs Ho _ IH]; [done|].
  change (o :: outs) with ([o] ++ outs).
  rewrite sum_memrefs_app, sum_memrefs_single, length_app. simpl.
  destruct (p (o_type o)); lia.
Qed.

Lemma step_stats_total stats evs outs (e : event) stats' out :
  stats_of_outs stats outs → outs_ok evs outs →
  Z.of_nat (length (evs ++ [e])) <= INT_MAX →
  step_stats e.1 stats stats' out →
  stats_of_outs stats' (outs ++ opt_list out) ∧ outs_ok (evs ++ [e]) (outs ++ opt_list out).
Proof.
  intros (Hh & Hm & Hr & Hw) (Hlen & Hcnt & Hall) Hmax Hstep.
  pose proof (λ p, sum_memrefs_bound p outs Hall) as Hsum.
  assert (Hle : Z.of_nat (length outs) <= Z.of_nat (length evs)).
  { rewrite Hlen. pose proof (length_filter (λ e, is_rw e = true) evs). lia. }
  rewrite length_app in Hmax. simpl in Hmax.
  pose proof (count_result_nonneg "hit " outs).
  pose proof (count_result_nonneg "miss" outs).
  pose proof (Hsum is_read). pose proof (Hsum is_write).
  assert (Hincr : ∀ x, 0 <= x <= Z.of_nat (length outs) → int_incr x = x + 1).
  { intros x Hx. apply int_incr_small. unfold INT_MAX in *. lia. }
  assert (Hfilter : length (filter (λ e, is_rw e = true) (evs ++ [e]))
                    = (length (filter (λ e, is_rw e = true) evs)
                       + (if is_rw e then 1 else 0))%nat).
  { rewrite filter_app, length_app. f_equal.
    rewrite filter_cons, filter_nil. destruct (is_rw e); by case_decide. }
  assert (Hgoal : ∀ o dh dm dr dw,
            out = Some o →
            is_rw e = true →
            hits stats' = hits stats + dh → misses stats' = misses stats + dm →
            mem_reads stats' = mem_reads stats + dr →
            mem_writes stats' = mem_writes stats + dw →
            count_result "hit " [o] = dh → count_result "miss" [o] = dm →
            dh + dm = 1 →
            sum_memrefs is_read [o] = dr → sum_memrefs is_write [o] = dw →
            0 <= o_memrefs o <= 1 →
            stats_of_outs stats' (outs ++ opt_list out) ∧
            outs_ok (evs ++ [e]) (outs ++ opt_list out)).
  { intros o dh dm dr dw -> Hrw Hh' Hm' Hr' Hw' Hch Hcm Hd Hsr Hsw Hmr.
    rewrite Hrw in Hfilter. cbv iota in Hfilter.
    unfold stats_of_outs, outs_ok. cbn [opt_list].
    rewrite !count_result_app, !sum_memrefs_app, Hfilter, length_app.
    cbn [length].
    split_and!; try lia.
    apply Forall_app. split; [done|]. by apply Forall_singleton. }
  unfold step_stats in Hstep.
  destruct (is_read e.1) eqn:Er; [|destruct (is_write e.1) eqn:Ew].
  - pose proof (is_read_write_excl _ Er) as Ew.
    destruct Hstep as (o & Ho & Hty & [(-> & Hres & Hmr)|(-> & Hres & Hmr)]).
    + apply (Hgoal o 1 0 0 0); try done; simpl;
        rewrite ?count_result_single, ?sum_memrefs_single, ?Hres, ?Hty, ?Er, ?Ew, ?Hmr;
        try done; try (unfold is_rw; rewrite Er; done);
        try (rewrite Hincr by lia; lia); lia.
    + apply (Hgoal o 0 1 1 0); try done; simpl;
        rewrite ?count_result_single, ?sum_memrefs_single, ?Hres, ?Hty, ?Er, ?Ew, ?Hmr;
        try done; try (unfold is_rw; rewrite Er; done);
        try (rewrite Hincr by lia; lia); lia.
  - destruct Hstep as (o & Ho & Hty & [(-> & Hres & Hmr)|(-> & Hres & Hmr)]).
    + apply (Hgoal o 1 0 0 1); try done; simpl;
        rewrite ?count_result_single, ?sum_memrefs_single, ?Hres, ?Hty, ?Er, ?Ew, ?Hmr;
        try done; try (unfold is_rw; rewrite Er, Ew; done);
        try (rewrite Hincr by lia; lia); lia.
    + apply (Hgoal o 0 1 0 1); try done; simpl;
        rewrite ?count_result_single, ?sum_memrefs_single, ?Hres, ?Hty, ?Er, ?Ew, ?Hmr;
        try done; try (unfold is_rw; rewrite Er, Ew; done);
        try (rewrite Hincr by lia; lia); lia.
  - destruct Hstep as [-> ->]. simpl.
    unfold stats_of_outs, outs_ok.
    rewrite !app_nil_r, Hfilter. unfold is_rw. rewrite Er, Ew. simpl.
    rewrite Nat.add_0_r. done.
Qed.

Lemma run_stats config cache0 evs :
  config_ok config → cache_inv config cache0 →
  Z.of_nat (length evs) <= INT_MAX →
  ∃ cache stats outs,
    run config evs cache0 (mkStats 0 0 0 0) = Some (cache, stats, outs) ∧
    cache_inv config cache ∧ stats_of_outs stats outs ∧ outs_ok evs outs.
Proof.
  intros Hcfg Hinv0.
  induction evs as [|e evs IH] using rev_ind; intros Hmax.
  - exists cache0, (mkStats 0 0 0 0), []. split_and!; done.
  - destruct IH as (c1 & s1 & o1 & Hrun & Hinv1 & Hst & Hok).
    { rewrite length_app in Hmax. lia. }
    rewrite run_snoc, Hrun. simpl.
    destruct (access_cache_inv config c1 e.1 e.2 s1 Hcfg Hinv1)
      as (c2 & s2 & o & Hacc & Hinv2).
    destruct (access_cache_stats config c1 e.1 e.2 s1 Hcfg (cache_inv_shape _ _ Hinv1))
      as (c2' & s2' & o' & Hacc' & Hstep).
    rewrite Hacc in Hacc'. injection Hacc' as <- <- <-.
    rewrite Hacc. simpl.
    destruct (step_stats_total s1 evs o1 e s2 o Hst Hok Hmax Hstep) as [Hst2 Hok2].
    eauto 10.
Qed.


(** C9: for a validated geometry and a sequence of at most [INT_MAX]
    accesses replayed from the initial cache and zero statistics: the four
    counters after any prefix are at most their values at the end (they
    never decrease and are never reset); at the end [hits + misses] is the
    number of read and write accesses of the sequence, [hits] and [misses]
    are the numbers of printed hit and miss lines, and [mem_reads] and
    [mem_writes] are the sums of the memory references printed for reads and
    for writes. *)
Theorem C9_statistics ns assoc ls evs1 evs2 :
  valid_geometry ns assoc ls →
  Z.of_nat (length (evs1 ++ evs2)) <= INT_MAX →
  let config := (init_cache (mkConfig ns assoc ls 0 0)).2 in
  let cache0 := (init_cache (mkConfig ns assoc ls 0 0)).1 in
  ∃ c1 st1 o1 c2 st2 o2,
    run config evs1 cache0 (mkStats 0 0 0 0) = Some (c1, st1, o1) ∧
    run config (evs1 ++ evs2) cache0 (mkStats 0 0 0 0) = Some (c2, st2, o1 ++ o2) ∧
    (0 <= hits st1 <= hits st2 ∧ 0 <= misses st1 <= misses st2 ∧
     0 <= mem_reads st1 <= mem_reads st2 ∧ 0 <= mem_writes st1 <= mem_writes st2) ∧
    hits st2 + misses st2
      = Z.of_nat (length (filter (λ e, is_rw e = true) (evs1 ++ evs2))) ∧
    (Forall (λ e, is_rw e = true) (evs1 ++ evs2) →
     hits st2 + misses st2 = Z.of_nat (length (evs1 ++ evs2))) ∧
    hits st2 = count_result "hit " (o1 ++ o2) ∧
    misses st2 = count_result "miss" (o1 ++ o2) ∧
    mem_reads st2 = sum_memrefs is_read (o1 ++ o2) ∧
    mem_writes st2 = sum_memrefs is_write (o1 ++ o2).
Proof.
  intros Hgeo Hmax config cache0.
  pose proof (init_config_ok ns assoc ls Hgeo) as Hcfg.
  pose proof (init_cache_inv ns assoc ls Hgeo) as Hinv.
  fold config in Hcfg. change (init_config _) with config in Hinv.
  change (init_lines _) with cache0 in Hinv.
  destruct (run_stats config cache0 evs1 Hcfg Hinv)
    as (c1 & st1 & o1 & Hrun1 & Hinv1 & (Hh1 & Hm1 & Hr1 & Hw1) & (_ & _ & Hall1)).
  { rewrite length_app in Hmax. lia. }
  destruct (run_stats config cache0 (evs1 ++ evs2) Hcfg Hinv Hmax)
    as (c2 & st2 & o & Hrun2 & Hinv2 & (Hh2 & Hm2 & Hr2 & Hw2) & (Hlen & Hcnt & Hall2)).
  pose proof Hrun2 as Happ. rewrite run_app, Hrun1 in Happ. simpl in Happ.
  destruct (run config evs2 c1 st1) as [[[c2' st2'] o2]|]; [simpl in Happ | done].
  injection Happ as -> -> <-.
  exists c1, st1, o1, c2, st2, o2.
  apply Forall_app in Hall2 as [_ Hall2].
  pose proof (sum_memrefs_bound is_read o2 Hall2).
  pose proof (sum_memrefs_bound is_write o2 Hall2).
  pose proof (sum_memrefs_bound is_read o1 Hall1).
  pose proof (sum_memrefs_bound is_write o1 Hall1).
  pose proof (count_result_nonneg "hit " o1).
  pose proof (count_result_nonneg "miss" o1).
  pose proof (count_result_nonneg "hit " o2).
  pose proof (count_result_nonneg "miss" o2).
  split; [done|]. split; [done|].
  split.
  { rewrite Hh1, Hm1, Hr1, Hw1, Hh2, Hm2, Hr2, Hw2.
    rewrite !count_result_app, !sum_memrefs_app. lia. }
  assert (Htot : hits st2 + misses st2
                 = Z.of_nat (length (filter (λ e, is_rw e = true) (evs1 ++ evs2)))).
  { rewrite Hh2, Hm2, Hcnt, Hlen. done. }
  split; [exact Htot|]. split; [|done].
  intros Hrw. rewrite Htot. f_equal. f_equal.
  clear -Hrw. induction Hrw as [|e l He _ IH]; [done|].
  rewrite filter_cons. case_decide; [|done]. by rewrite IH.
Qed.

(** ** Recency order *)

Lemma last_access_from_snoc config evs (e : event) s t : ∀ pos acc,
  last_access_from config pos (evs ++ [e]) s t acc =
  if (addr_index config e.2 =? s) && (addr_tag config e.2 =? t)
  then Some (pos + length evs)%nat
  else last_access_from config pos evs s t acc.
Proof.
  induction evs as [|e0 evs IH]; intros pos acc; simpl.
  - rewrite Nat.add_0_r. done.
  - rewrite IH. replace (S pos + length evs)%nat with (pos + S (length evs))%nat by lia.
    done.
Qed.

Lemma last_access_snoc config evs (e : event) s t :
  last_access config (evs ++ [e]) s t =
  if (addr_index config e.2 =? s) && (addr_tag config e.2 =? t)
  then Some (length evs)
  else last_access config evs s t.
Proof. unfold last_access. by rewrite last_access_from_snoc. Qed.

Lemma last_access_from_bound config evs s t : ∀ pos acc p,
  last_access_from config pos evs s t acc = Some p →
  acc = Some p ∨ (pos ≤ p < pos + length evs)%nat.
Proof.
  induction evs as [|e evs IH]; intros pos acc p; simpl; [by left|].
  intros H. apply IH in H as [H|H]; [|right; lia].
  destruct (_ && _); [injection H as <-; right; lia | by left].
Qed.

Lemma last_access_lt config evs s t p :
  last_access config evs s t = Some p → (p < length evs)%nat.
Proof.
  intros H. apply last_access_from_bound in H as [H|H]; [done | lia].
Qed.

Lemma last_access_other config evs (e : event) s t :
  ¬ (addr_index config e.2 = s ∧ addr_tag config e.2 = t) →
  last_access config (evs ++ [e]) s t = last_access config evs s t.
Proof.
  intros H. rewrite last_access_snoc.
  destruct (addr_index config e.2 =? s) eqn:E1; [|done].
  destruct (addr_tag config e.2 =? t) eqn:E2; [|done].
  apply Z.eqb_eq in E1, E2. tauto.
Qed.

Lemma last_access_same config evs (e : event) :
  last_access config (evs ++ [e]) (addr_index config e.2) (addr_tag config e.2)
  = Some (length evs).
Proof. rewrite last_access_snoc, !Z.eqb_refl. done. Qed.

(** A read keeps the counters ordered as the last accesses. *)
Lemma access_cache_lru_order config cache evs (e : event) stats cache' stats' out :
  config_ok config → cache_inv config cache → lru_order config evs cache →
  is_read e.1 = true →
  access_cache cache config e.1 e.2 stats = Some (cache', stats', out) →
  lru_order config (evs ++ [e]) cache'.
Proof.
  intros Hcfg Hinv Hord Hread Hacc.
  pose proof (addr_index_range config e.2 Hcfg) as Hidx.
  destruct (access_cache_step config cache e.1 e.2 stats Hcfg Hinv)
    as (set & stats1 & out1 & Hset & [[Hnr _]|(w & lw & Hw & Htags & Hpos & Hr)]);
    [congruence|].
  rewrite Hacc in Hr. injection Hr as -> _ _.
  set (s := Z.to_nat (addr_index config e.2)) in *.
  set (tg := addr_tag config e.2) in *.
  assert (Hs : Z.of_nat s = addr_index config e.2) by (unfold s; lia).
  assert (Hassoc : 1 <= associativity config <= INT_MAX).
  { destruct Hcfg as [? _]. unfold MAX_ASSOCIATIVITY, INT_MAX in *. lia. }
  assert (Hsinv : set_inv (associativity config) set).
  { destruct Hinv as [_ Hsets]. by apply (Hsets s). }
  pose proof (accessed_counter_range _ _ _ _ Hassoc Hsinv Hw) as Hac.
  pose proof (accessed_way_new _ _ _ _ tg Hassoc Hw) as Hnew.
  pose proof (other_way _ _ _ _ tg Hassoc Hsinv Hw Htags Hpos) as Hother.
  intros s0 set0 Hset0.
  destruct (decide (s0 = s)) as [->|Hne].
  - (* the set of the access *)
    rewrite list_lookup_insert_eq in Hset0 by (by apply lookup_lt_Some in Hset).
    injection Hset0 as <-.
    rewrite Hs.
    assert (Hlast : ∀ (i : nat) li', i ≠ w →
              lru_touch set (associativity config) w (mkLine 1 tg (lru_counter lw)) !! i
              = Some li' → line_valid li' →
              ∃ li, set !! i = Some li ∧ line_valid li ∧ tag li' = tag li ∧
                lru_counter li ≠ lru_counter lw ∧
                lru_counter li < associativity config ∧
                lru_counter li' = lru_counter li
                  - (if decide (lru_counter lw < lru_counter li) then 1 else 0) ∧
                last_access config (evs ++ [e]) (addr_index config e.2) (tag li')
                = last_access config evs (addr_index config e.2) (tag li)).
    { intros i li' Hi Hli' Hvi.
      destruct (Hother i li' Hi Hli') as (li & Hli & Hv' & Ht' & Hvalid & _).
      assert (Hlv : line_valid li) by (unfold line_valid in *; congruence).
      destruct (Hvalid Hlv) as (_ & Htne & Hcne & Hrange & Hcnt).
      exists li. split_and!; try done; try lia.
      rewrite Ht'. apply last_access_other.
      intros [_ Heq]. apply Htne. symmetry. exact Heq. }
    pose proof (last_access_same config evs e) as Hlastw. fold tg in Hlastw.
    intros i j li' lj' Hli' Hlj' Hvi Hvj.
    destruct (decide (i = w)) as [->|Hiw].
    + rewrite Hnew in Hli'. injection Hli' as <-. simpl.
      split; [rewrite Hlastw; eauto|].
      intros Hlt. exfalso.
      destruct (decide (j = w)) as [->|Hjw].
      * rewrite Hnew in Hlj'. injection Hlj' as <-. simpl in Hlt. lia.
      * destruct (Hlast j lj' Hjw Hlj' Hvj) as (lj & _ & _ & _ & Hc & Hr & Hcnt & _).
        rewrite Hcnt in Hlt. case_decide; lia.
    + destruct (Hlast i li' Hiw Hli' Hvi) as (li & Hli & Hlvi & Hti & Hci & Hri & Hcnti & Hlai).
      destruct (Hord s set Hset i i li li Hli Hli Hlvi Hlvi) as [[p Hp] _].
      rewrite Hs in Hp.
      split; [rewrite Hlai, Hp; eauto|].
      intros Hlt.
      destruct (decide (j = w)) as [->|Hjw].
      * rewrite Hnew in Hlj'. injection Hlj' as <-. simpl.
        rewrite Hlastw, Hlai, Hp. exists p, (length evs).
        split_and!; try done. by apply last_access_lt in Hp.
      * destruct (Hlast j lj' Hjw Hlj' Hvj) as (lj & Hlj & Hlvj & Htj & Hcj & Hrj & Hcntj & Hlaj).
        rewrite Hlai, Hlaj.
        destruct (Hord s set Hset i j li lj Hli Hlj Hlvi Hlvj) as [_ Hearlier].
        rewrite Hs in Hearlier. apply Hearlier.
        rewrite Hcnti, Hcntj in Hlt. repeat case_decide; lia.
  - (* another set *)
    rewrite list_lookup_insert_ne in Hset0 by lia.
    intros i j li lj Hli Hlj Hvi Hvj.
    assert (Hneq : addr_index config e.2 ≠ Z.of_nat s0) by lia.
    rewrite !last_access_other by tauto.
    by apply (Hord s0 set0 Hset0 i j).
Qed.

Lemma run_lru_order config cache0 evs :
  config_ok config → cache_inv config cache0 →
  (∀ (s : nat) set, cache0 !! s = Some set → Forall (λ l, valid l = 0) set) →
  Forall (λ e : event, is_read e.1 = true) evs →
  ∃ cache stats outs,
    run config evs cache0 (mkStats 0 0 0 0) = Some (cache, stats, outs) ∧
    cache_inv config cache ∧ lru_order config evs cache.
Proof.
  intros Hcfg Hinv0 Hempty.
  induction evs as [|e evs IH] using rev_ind; intros Hreads.
  - exists cache0, (mkStats 0 0 0 0), []. split_and!; try done.
    intros s set Hset i j li lj Hli _ Hvi.
    pose proof (Hempty s set Hset) as Hall.
    rewrite Forall_lookup in Hall. specialize (Hall i li Hli). done.
  - apply Forall_app in Hreads as [Hreads He].
    apply Forall_inv in He.
    destruct (IH Hreads) as (c1 & s1 & o1 & Hrun & Hinv1 & Hord).
    rewrite run_snoc, Hrun. simpl.
    destruct (access_cache_inv config c1 e.1 e.2 s1 Hcfg Hinv1)
      as (c2 & s2 & o & Hacc & Hinv2).
    rewrite Hacc. simpl.
    exists c2, s2, (o1 ++ opt_list o). split_and!; try done.
    exact (access_cache_lru_order config c1 evs e s1 c2 s2 o Hcfg Hinv1 Hord He Hacc).
Qed.

Lemma init_lines_invalid config (s : nat) set :
  init_lines config !! s = Some set → Forall (λ l, valid l = 0) set.
Proof.
  unfold init_lines. intros [-> _]%lookup_replicate.
  apply Forall_forall. intros l [-> _]%elem_of_replicate. done.
Qed.

(** C1: for a validated geometry, after any sequence of reads replayed from
    the initial cache, a read whose tag is not resident in its set, all of
    whose lines are valid, replaces exactly one way [v]: every other way
    of the set keeps its line, every other set is unchanged, and the tag
    that [v] held was last accessed strictly before the tag of every other
    way of the set. *)
Theorem C1_true_lru ns assoc ls (evs : list event) cache stats outs ty address set :
  valid_geometry ns assoc ls →
  Forall (λ e : event, is_read e.1 = true) evs →
  let config := (init_cache (mkConfig ns assoc ls 0 0)).2 in
  let s := Z.to_nat (addr_index config address) in
  let tg := addr_tag config address in
  run config evs (init_cache (mkConfig ns assoc ls 0 0)).1 (mkStats 0 0 0 0)
  = Some (cache, stats, outs) →
  cache !! s = Some set →
  set_full set → ¬ resident set tg → is_read ty = true →
  ∃ (v : nat) lv cache' stats' out set',
    access_cache cache config ty address stats = Some (cache', stats', out) ∧
    find_lru_victim set assoc = Some (Z.of_nat v) ∧
    set !! v = Some lv ∧
    cache' !! s = Some set' ∧
    set' !! v = Some (mkLine 1 tg (assoc - 1)) ∧
    (∀ s0 : nat, s0 ≠ s → cache' !! s0 = cache !! s0) ∧
    (∀ (w : nat) l, w ≠ v → set !! w = Some l →
       (∃ l', set' !! w = Some l' ∧ valid l' = valid l ∧ tag l' = tag l) ∧
       earlier (last_access config evs (Z.of_nat s) (tag lv))
               (last_access config evs (Z.of_nat s) (tag l))).
Proof.
  intros Hgeo Hreads config s tg Hrun Hset Hfull Hmiss Hread.
  pose proof (init_config_ok ns assoc ls Hgeo) as Hcfg.
  pose proof (init_cache_inv ns assoc ls Hgeo) as Hinv0.
  change (init_config _) with config in Hcfg, Hinv0.
  destruct (run_lru_order config _ evs Hcfg Hinv0 (init_lines_invalid _) Hreads)
    as (cache1 & stats1 & outs1 & Hrun1 & Hinv & Hord).
  simpl in Hrun. rewrite Hrun in Hrun1. injection Hrun1 as <- <- <-.
  assert (Hassoc_eq : associativity config = assoc) by done.
  assert (Hassoc : 1 <= assoc <= INT_MAX).
  { destruct Hcfg as [? _]. unfold MAX_ASSOCIATIVITY, INT_MAX in *.
    rewrite Hassoc_eq in *. lia. }
  assert (Hsinv : set_inv assoc set).
  { destruct Hinv as [_ Hsets]. rewrite <- Hassoc_eq. by apply (Hsets s). }
  destruct (access_cache_cases config cache ty address stats Hcfg
              (cache_inv_shape _ _ Hinv))
    as (set1 & Hset1 & [(i & l & Hl & Hm & _ & _)|(Hnone & v & lv & Hv & Hlv & Hr)]);
    fold s tg in Hset1; rewrite Hset in Hset1; injection Hset1 as <-.
  { exfalso. apply Hmiss. apply resident_iff. eauto. }
  fold s tg in Hr. rewrite Hread, Hassoc_eq in Hr. rewrite Hassoc_eq in Hv.
  assert (Hvalid : ∀ (w : nat) l, set !! w = Some l → line_valid l).
  { intros w l Hwl. unfold set_full in Hfull. rewrite Forall_lookup in Hfull.
    by apply (Hfull w). }
  assert (Htags : ∀ (j : nat) lj, j ≠ v → set !! j = Some lj → tag_match tg lj = false).
  { intros j lj _. apply Hnone. }
  assert (Hpos : line_valid lv ∨
                 ∀ (j : nat) lj, (j < v)%nat → set !! j = Some lj → valid lj ≠ 0).
  { left. by apply (Hvalid v). }
  destruct (find_lru_victim_spec set assoc) as (v' & lv' & Hv' & Hlv' & Hvic);
    [by destruct Hsinv as (k & ? & _) | lia |].
  assert (v' = v) by (rewrite Hv in Hv'; injection Hv'; lia). subst v'.
  assert (lv' = lv) by congruence. subst lv'.
  destruct Hvic as [[Hinvalid _]|(_ & Hmin & _)].
  { exfalso. by apply (Hvalid v lv Hlv). }
  eexists v, lv, _, _, _, _. split; [exact Hr|].
  split; [exact Hv|]. split; [exact Hlv|].
  split; [apply list_lookup_insert_eq; by apply lookup_lt_Some in Hset|].
  split; [by apply accessed_way_new|].
  split; [intros s0 Hs0; by apply list_lookup_insert_ne|].
  intros w l Hw Hwl.
  assert (Hlook : lru_touch set assoc v (mkLine 1 tg (lru_counter lv)) !! w
                  = Some (touch_line (lru_counter lv) l)).
  { unfold lru_touch. rewrite list_lookup_insert_ne by done.
    by rewrite list_lookup_fmap, Hwl. }
  split.
  { exists (touch_line (lru_counter lv) l).
    by rewrite touch_line_valid, touch_line_tag. }
  destruct (Hord s set Hset v w lv l Hlv Hwl (Hvalid _ _ Hlv) (Hvalid _ _ Hwl))
    as [_ Hearlier].
  apply Hearlier.
  destruct Hsinv as (k & _ & _ & _ & _ & Hdist).
  destruct (Hdist v w lv l ltac:(done) Hlv Hwl (Hvalid _ _ Hlv) (Hvalid _ _ Hwl))
    as [_ Hcne].
  pose proof (Hmin w l Hwl). lia.
Qed.

(** ** The three-read scenario *)

Example scenario_run_00_10_20 :
  run scenario_config [("R"%char, 0); ("R"%char, 16); ("R"%char, 32)]
      scenario_cache (mkStats 0 0 0 0)
  = Some ([[mkLine 1 0 1; mkLine 0 0 0]; [mkLine 1 0 1; mkLine 0 0 0];
           [mkLine 1 0 1; mkLine 0 0 0]; [mkLine 0 0 0; mkLine 0 0 0]],
          mkStats 0 3 3 0,
          [mkOutcome "R" 0 0 0 0 "miss" 1; mkOutcome "R" 16 0 1 0 "miss" 1;
           mkOutcome "R" 32 0 2 0 "miss" 1]).
Proof. vm_compute. reflexivity. Qed.

Example scenario_run_00_40_80 :
  run scenario_config [("R"%char, 0); ("R"%char, 64); ("R"%char, 128)]
      scenario_cache (mkStats 0 0 0 0)
  = Some ([[mkLine 1 2 1; mkLine 1 1 0]; [mkLine 0 0 0; mkLine 0 0 0];
           [mkLine 0 0 0; mkLine 0 0 0]; [mkLine 0 0 0; mkLine 0 0 0]],
          mkStats 0 3 3 0,
          [mkOutcome "R" 0 0 0 0 "miss" 1; mkOutcome "R" 64 1 0 0 "miss" 1;
           mkOutcome "R" 128 2 0 0 "miss" 1]).
Proof. vm_compute. reflexivity. Qed.

Example scenario_run_00_40 :
  run scenario_config [("R"%char, 0); ("R"%char, 64)] scenario_cache (mkStats 0 0 0 0)
  = Some ([[mkLine 1 0 0; mkLine 1 1 1]; [mkLine 0 0 0; mkLine 0 0 0];
           [mkLine 0 0 0; mkLine 0 0 0]; [mkLine 0 0 0; mkLine 0 0 0]],
          mkStats 0 2 2 0,
          [mkOutcome "R" 0 0 0 0 "miss" 1; mkOutcome "R" 64 1 0 0 "miss" 1]).
Proof. vm_compute. reflexivity. Qed.

(** C2 as stated fails: the read of 0x10 goes to set 1, not to set 0. *)
Lemma C2_scenario_counterexample : ¬ scenario_claim 0 16 32.
Proof.
  intros (_ & _ & cache2 & stats2 & outs2 & cache & stats & o1 & o2 & o3 & set2 & set
          & _ & Hrun & (_ & Hi2 & _) & _).
  rewrite scenario_run_00_10_20 in Hrun.
  injection Hrun as _ _ _ <- _. simpl in Hi2. discriminate.
Qed.

(** C2, amended: with 4 sets, 2 ways and 16-byte lines ([offset_bits = 4],
    [index_bits = 2]), the reads of 0x00, 0x10, 0x20 go to the sets 0, 1, 2,
    each misses and loads tag 0 into way 0 of its set, and nothing is
    evicted; the reads of 0x00, 0x40, 0x80 all go to set 0 and miss, the
    third evicts the line of 0x00, and set 0 ends up holding the tags of
    0x40 and 0x80. *)
Theorem C2_scenario_amended :
  run scenario_config [("R"%char, 0); ("R"%char, 16); ("R"%char, 32)]
      scenario_cache (mkStats 0 0 0 0)
  = Some ([[mkLine 1 0 1; mkLine 0 0 0]; [mkLine 1 0 1; mkLine 0 0 0];
           [mkLine 1 0 1; mkLine 0 0 0]; [mkLine 0 0 0; mkLine 0 0 0]],
          mkStats 0 3 3 0,
          [mkOutcome "R" 0 0 0 0 "miss" 1; mkOutcome "R" 16 0 1 0 "miss" 1;
           mkOutcome "R" 32 0 2 0 "miss" 1]) ∧
  scenario_claim 0 64 128.
Proof.
  split; [apply scenario_run_00_10_20|].
  split; [reflexivity|]. split; [reflexivity|].
  do 10 eexists.
  split; [apply scenario_run_00_40|].
  split; [apply scenario_run_00_40_80|].
  split; [done|]. split; [done|].
  split; [reflexivity|]. split; [reflexivity|].
  split; [split|split_and!].
  - exists 0%nat, (mkLine 1 0 0). done.
  - intros (w & l & Hl & Hv & Ht).
    destruct w as [|[|w]]; simpl in Hl; [| |done];
      injection Hl as <-; vm_compute in Ht; discriminate.
  - exists 1%nat, (mkLine 1 1 0). done.
  - exists 0%nat, (mkLine 1 2 1). done.
  - apply Forall_cons. split; [split; [done | right; reflexivity]|].
    apply Forall_cons. split; [split; [done | left; reflexivity]|].
    apply Forall_nil_2.
Qed.

(** ** Instances on the 4-set, 2-way, 16-byte geometry *)

Lemma C1_true_lru_witness :
  let config := (init_cache (mkConfig 4 2 16 0 0)).2 in
  let evs : list event := [("R"%char, 0); ("r"%char, 64); ("R"%char, 0)] in
  let cache := [[mkLine 1 0 1; mkLine 1 1 0]; [mkLine 0 0 0; mkLine 0 0 0];
                [mkLine 0 0 0; mkLine 0 0 0]; [mkLine 0 0 0; mkLine 0 0 0]] in
  let set := [mkLine 1 0 1; mkLine 1 1 0] in
  let s := Z.to_nat (addr_index config 128) in
  let tg := addr_tag config 128 in
  ∃ (v : nat) lv cache' stats' out set',
    access_cache cache config "R" 128 (mkStats 1 2 2 0) = Some (cache', stats', out) ∧
    find_lru_victim set 2 = Some (Z.of_nat v) ∧
    set !! v = Some lv ∧
    cache' !! s = Some set' ∧
    set' !! v = Some (mkLine 1 tg (2 - 1)) ∧
    (∀ s0 : nat, s0 ≠ s → cache' !! s0 = cache !! s0) ∧
    (∀ (w : nat) l, w ≠ v → set !! w = Some l →
       (∃ l', set' !! w = Some l' ∧ valid l' = valid l ∧ tag l' = tag l) ∧
       earlier (last_access config evs (Z.of_nat s) (tag lv))
               (last_access config evs (Z.of_nat s) (tag l))).
Proof.
  intros config evs cache set s tg.
  apply (C1_true_lru 4 2 16 evs cache (mkStats 1 2 2 0)
           [mkOutcome "R" 0 0 0 0 "miss" 1; mkOutcome "r" 64 1 0 0 "miss" 1;
            mkOutcome "R" 0 0 0 0 "hit " 0] "R" 128 set).
  - reflexivity.
  - repeat constructor.
  - vm_compute. reflexivity.
  - reflexivity.
  - repeat constructor; discriminate.
  - intros (w & l & Hl & Hv & Ht).
    destruct w as [|[|w]]; simpl in Hl; [| |done];
      injection Hl as <-; vm_compute in Ht; discriminate.
  - reflexivity.
Defined.

Lemma C3_memref_count_witness :
  ∃ set cache' stats' out,
    scenario_cache !! Z.to_nat (addr_index scenario_config 64) = Some set ∧
    access_cache scenario_cache scenario_config "W" 64 (mkStats 0 0 0 0)
    = Some (cache', stats', out) ∧
    (is_read "W" = true →
       ∃ o, out = Some o ∧
         (resident set (addr_tag scenario_config 64) ∧
            o_result o = "hit "%string ∧ o_memrefs o = 0 ∨
          ¬ resident set (addr_tag scenario_config 64) ∧
            o_result o = "miss"%string ∧ o_memrefs o = 1)) ∧
    (is_write "W" = true →
       ∃ o, out = Some o ∧ o_memrefs o = 1 ∧
         (resident set (addr_tag scenario_config 64) ∧ o_result o = "hit "%string ∨
          ¬ resident set (addr_tag scenario_config 64) ∧ o_result o = "miss"%string)).
Proof.
  apply C3_memref_count.
  - unfold config_ok, MAX_ASSOCIATIVITY. vm_compute. intuition discriminate.
  - split; [reflexivity|].
    intros [|[|[|[|s]]]] set H; simpl in H; [..|done]; injection H as <-; reflexivity.
Defined.

Lemma C4_write_miss_frame_witness :
  ∃ stats' o,
    access_cache scenario_cache scenario_config "w" 64 (mkStats 5 2 2 4)
    = Some (scenario_cache, stats', Some o) ∧
    o_result o = "miss"%string ∧
    hits stats' = 5 ∧ mem_reads stats' = 2 ∧
    misses stats' = int_incr 2 ∧
    mem_writes stats' = int_incr 4 ∧
    (0 <= 2 < INT_MAX → misses stats' = 2 + 1) ∧
    (0 <= 4 < INT_MAX → mem_writes stats' = 4 + 1).
Proof.
  apply (C4_write_miss_frame scenario_config scenario_cache "w" 64 (mkStats 5 2 2 4)
           [mkLine 0 0 0; mkLine 0 0 0]).
  - unfold config_ok, MAX_ASSOCIATIVITY. vm_compute. intuition discriminate.
  - split; [reflexivity|].
    intros [|[|[|[|s]]]] set H; simpl in H; [..|done]; injection H as <-; reflexivity.
  - reflexivity.
  - reflexivity.
  - intros (w & l & Hl & Hv & _).
    destruct w as [|[|w]]; simpl in Hl; [| |done]; injection Hl as <-; by apply Hv.
Defined.

(** *** The counters beyond [INT_MAX] *)

Lemma to_int_incr y : to_int (to_int y + 1) = to_int (y + 1).
Proof.
  unfold to_int, UINT_MOD.
  replace ((y + 2147483648) mod 4294967296 - 2147483648 + 1 + 2147483648)
    with ((y + 2147483648) mod 4294967296 + 1) by lia.
  rewrite Zplus_mod_idemp_l. f_equal. f_equal. lia.
Qed.

Lemma iter_int_incr (n : nat) h :
  -2147483648 <= h <= INT_MAX → Nat.iter n int_incr h = to_int (h + Z.of_nat n).
Proof.
  intros Hh. induction n as [|n IH].
  - simpl. rewrite Z.add_0_r. symmetry. unfold to_int, INT_MAX, UINT_MOD in *.
    rewrite Z.mod_small; lia.
  - rewrite Nat.iter_succ, IH. unfold int_incr. rewrite to_int_incr.
    f_equal. lia.
Qed.

Lemma run_cons config (e : event) evs cache stats c1 s1 o c2 s2 os :
  access_cache cache config e.1 e.2 stats = Some (c1, s1, o) →
  run config evs c1 s1 = Some (c2, s2, os) →
  run config (e :: evs) cache stats = Some (c2, s2, opt_list o ++ os).
Proof. intros H1 H2. simpl. rewrite H1. simpl. rewrite H2. done. Qed.

(** Repeating a read that hits and leaves the array as it is only moves
    [hits], once per access, through the [int] increment. *)
Lemma run_repeat_read_hit config cache (e : event) o :
  (∀ stats, access_cache cache config e.1 e.2 stats
            = Some (cache, stats_read_hit stats, Some o)) →
  ∀ (n : nat) stats, ∃ outs,
    run config (replicate n e) cache stats
    = Some (cache, mkStats (Nat.iter n int_incr (hits stats)) (misses stats)
                           (mem_reads stats) (mem_writes stats), outs).
Proof.
  intros Hhit. induction n as [|n IH]; intros stats.
  - exists []. by destruct stats.
  - destruct (IH (stats_read_hit stats)) as [outs Hrun].
    exists (o :: outs). rewrite replicate_S, Nat.iter_succ_r.
    exact (run_cons config e (replicate n e) cache stats cache (stats_read_hit stats)
             (Some o) cache _ outs (Hhit stats) Hrun).
Qed.

(** From the initial cache of the 4-set, 2-way, 16-byte geometry: one read
    of address 0 (a miss) followed by [n] more reads of it (all hits). *)
Lemma run_miss_then_hits (n : nat) :
  ∃ outs,
    run (init_cache (mkConfig 4 2 16 0 0)).2 (("R"%char, 0) :: replicate n ("R"%char, 0))
        (init_cache (mkConfig 4 2 16 0 0)).1 (mkStats 0 0 0 0)
    = Some ([[mkLine 1 0 1; mkLine 0 0 0]; [mkLine 0 0 0; mkLine 0 0 0];
             [mkLine 0 0 0; mkLine 0 0 0]; [mkLine 0 0 0; mkLine 0 0 0]],
            mkStats (to_int (Z.of_nat n)) 1 1 0, outs).
Proof.
  destruct (run_repeat_read_hit (init_cache (mkConfig 4 2 16 0 0)).2
              [[mkLine 1 0 1; mkLine 0 0 0]; [mkLine 0 0 0; mkLine 0 0 0];
               [mkLine 0 0 0; mkLine 0 0 0]; [mkLine 0 0 0; mkLine 0 0 0]]
              ("R"%char, 0) (mkOutcome "R" 0 0 0 0 "hit " 0)
              ltac:(intros stats; unfold access_cache; simpl; reflexivity) n (mkStats 0 1 1 0))
    as [outs Hrun].
  exists (mkOutcome "R" 0 0 0 0 "miss" 1 :: outs).
  assert (Hfirst : access_cache (init_cache (mkConfig 4 2 16 0 0)).1
                     (init_cache (mkConfig 4 2 16 0 0)).2 "R" 0 (mkStats 0 0 0 0)
                   = Some ([[mkLine 1 0 1; mkLine 0 0 0]; [mkLine 0 0 0; mkLine 0 0 0];
                            [mkLine 0 0 0; mkLine 0 0 0]; [mkLine 0 0 0; mkLine 0 0 0]],
                           mkStats 0 1 1 0, Some (mkOutcome "R" 0 0 0 0 "miss" 1)))
    by (vm_compute; reflexivity).
  cbn [hits misses mem_reads mem_writes] in Hrun.
  rewrite iter_int_incr in Hrun by (unfold INT_MAX; lia).
  rewrite Z.add_0_l in Hrun.
  exact (run_cons _ ("R"%char, 0) _ _ _ _ _ _ _ _ _ Hfirst Hrun).
Qed.

(** One miss and [n] = [INT_MAX] hits on address 0 leave [hits] at
    [INT_MAX]; one more hit takes it to [-2147483648]. *)
Lemma statistics_claim_overflow (n : nat) :
  Z.of_nat n = 2147483647 →
  ¬ statistics_claim 4 2 16 (("R"%char, 0) :: replicate n ("R"%char, 0)) [("R"%char, 0)].
Proof.
  intros HnZ. unfold statistics_claim.
  intros (c1 & st1 & o1 & c2 & st2 & o2 & Hrun1 & Hrun2 & ((_ & Hh) & _) & _).
  rewrite <- app_comm_cons, <- replicate_S_end in Hrun2.
  destruct (run_miss_then_hits n) as [outs1 H1].
  destruct (run_miss_then_hits (S n)) as [outs2 H2].
  rewrite H1 in Hrun1. rewrite H2 in Hrun2.
  injection Hrun1 as _ <- _. injection Hrun2 as _ <- _.
  cbn [hits] in Hh. rewrite Nat2Z.inj_succ, HnZ in Hh.
  change (to_int 2147483647) with 2147483647 in Hh.
  change (to_int (Z.succ 2147483647)) with (-2147483648) in Hh.
  clear -Hh. lia.
Qed.

(** C9 as stated (any length) fails: after one miss and [INT_MAX] hits on
    address 0, [hits] is [INT_MAX]; one more hit takes it to
    [-2147483648], so the counter has decreased and [hits + misses] is no
    longer the number of accesses. *)
Lemma C9_statistics_counterexample :
  ¬ statistics_claim 4 2 16
      (("R"%char, 0) :: replicate (Z.to_nat 2147483647) ("R"%char, 0))
      [("R"%char, 0)].
Proof. apply statistics_claim_overflow. apply Z2Nat.id. lia. Qed.

Lemma C9_statistics_witness :
  let config := (init_cache (mkConfig 4 2 16 0 0)).2 in
  let cache0 := (init_cache (mkConfig 4 2 16 0 0)).1 in
  let evs1 : list event := [("R"%char, 0); ("W"%char, 0)] in
  let evs2 : list event := [("W"%char, 64); ("X"%char, 4); ("R"%char, 128)] in
  ∃ c1 st1 o1 c2 st2 o2,
    run config evs1 cache0 (mkStats 0 0 0 0) = Some (c1, st1, o1) ∧
    run config (evs1 ++ evs2) cache0 (mkStats 0 0 0 0) = Some (c2, st2, o1 ++ o2) ∧
    (0 <= hits st1 <= hits st2 ∧ 0 <= misses st1 <= misses st2 ∧
     0 <= mem_reads st1 <= mem_reads st2 ∧ 0 <= mem_writes st1 <= mem_writes st2) ∧
    hits st2 + misses st2
      = Z.of_nat (length (filter (λ e, is_rw e = true) (evs1 ++ evs2))) ∧
    (Forall (λ e, is_rw e = true) (evs1 ++ evs2) →
     hits st2 + misses st2 = Z.of_nat (length (evs1 ++ evs2))) ∧
    hits st2 = count_result "hit " (o1 ++ o2) ∧
    misses st2 = count_result "miss" (o1 ++ o2) ∧
    mem_reads st2 = sum_memrefs is_read (o1 ++ o2) ∧
    mem_writes st2 = sum_memrefs is_write (o1 ++ o2).
Proof.
  intros config cache0 evs1 evs2.
  apply (C9_statistics 4 2 16 evs1 evs2).
  - reflexivity.
  - simpl. unfold INT_MAX. lia.
Defined.

(** The write-hit scenario: read 0x00, write 0x00, write 0x40. *)
Example write_hit_scenario :
  run scenario_config [("R"%char, 0); ("W"%char, 0); ("W"%char, 64)]
      scenario_cache (mkStats 0 0 0 0)
  = Some ([[mkLine 1 0 1; mkLine 0 0 0]; [mkLine 0 0 0; mkLine 0 0 0];
           [mkLine 0 0 0; mkLine 0 0 0]; [mkLine 0 0 0; mkLine 0 0 0]],
          mkStats 1 2 1 2,
          [mkOutcome "R" 0 0 0 0 "miss" 1; mkOutcome "W" 0 0 0 0 "hit " 1;
           mkOutcome "W" 64 1 0 0 "miss" 1]).
Proof. vm_compute. reflexivity. Qed.

(** * Further properties of the simulator *)

(** ** log2_int, init_cache and the address fields *)

(** X1: [log2_int] returns 0 for every [n <= 1] (zero and negative values
    included), and for [n >= 1] the integer logarithm:
    [2 ^ log2_int n <= n < 2 ^ (log2_int n + 1)]. *)
Theorem X1_log2_int_floor n :
  (n <= 1 → log2_int n = 0) ∧
  (1 <= n → 0 <= log2_int n ∧ 2 ^ log2_int n <= n < 2 ^ (log2_int n + 1)).
Proof.
  split.
  - intros Hn. unfold log2_int.
    destruct (Z.to_nat n) as [|fuel] eqn:E; [done|]. simpl.
    destruct (1 <? n) eqn:E1; [apply Z.ltb_lt in E1; lia | done].
  - intros Hn. rewrite log2_int_spec by done.
    split; [apply Z.log2_nonneg|].
    pose proof (Z.log2_spec n ltac:(lia)) as H.
    replace (Z.log2 n + 1) with (Z.succ (Z.log2 n)) by lia. done.
Qed.

Lemma X1_log2_int_floor_witness :
  (-5 <= 1 → log2_int (-5) = 0) ∧
  (1 <= 40 → 0 <= log2_int 40 ∧ 2 ^ log2_int 40 <= 40 < 2 ^ (log2_int 40 + 1)).
Proof.
  split.
  - apply (proj1 (X1_log2_int_floor (-5))).
  - apply (proj2 (X1_log2_int_floor 40)).
Defined.

Lemma init_config_pow2 ns assoc ls :
  valid_geometry ns assoc ls →
  let config := init_config (mkConfig ns assoc ls 0 0) in
  2 ^ offset_bits config = ls ∧ 2 ^ index_bits config = ns ∧
  3 <= offset_bits config <= 6 ∧ 0 <= index_bits config <= 13.
Proof.
  unfold valid_geometry. rewrite validate_config_accepts. simpl.
  intros ((Hns & kn & Hkn & ->) & Hassoc & (Hls & kl & Hkl & ->)).
  rewrite !log2_int_pow2 by done.
  assert (kn <= 13) by (apply pow2_bound; [done | change (2 ^ 13) with 8192; lia | lia]).
  assert (kl <= 6) by (apply pow2_bound; [done | change (2 ^ 6) with 64; lia | lia]).
  assert (3 <= kl).
  { destruct (Z_le_gt_dec 3 kl) as [|Hgt]; [done|exfalso].
    assert (2 ^ kl <= 2 ^ 2) by (apply Z.pow_le_mono_r; lia).
    change (2 ^ 2) with 4 in *. lia. }
  lia.
Qed.

(** X2: for a validated geometry [init_cache] sets [offset_bits] and
    [index_bits] to the exact logarithms of [line_size] and [num_sets]
    (between 3 and 6, and between 0 and 13), and builds [num_sets] sets of
    [associativity] lines, every line invalid with tag 0 and counter 0. *)
Theorem X2_init_cache_geometry ns assoc ls :
  valid_geometry ns assoc ls →
  let cache := (init_cache (mkConfig ns assoc ls 0 0)).1 in
  let config := (init_cache (mkConfig ns assoc ls 0 0)).2 in
  (num_sets config = ns ∧ associativity config = assoc ∧ line_size config = ls) ∧
  (2 ^ offset_bits config = ls ∧ 3 <= offset_bits config <= 6) ∧
  (2 ^ index_bits config = ns ∧ 0 <= index_bits config <= 13) ∧
  Z.of_nat (length cache) = ns ∧
  ∀ (s : nat) set, cache !! s = Some set →
    Z.of_nat (length set) = assoc ∧
    ∀ (w : nat) l, set !! w = Some l → l = mkLine 0 0 0.
Proof.
  intros Hgeo cache config.
  destruct (init_config_pow2 ns assoc ls Hgeo) as (Ho & Hi & Hor & Hir).
  pose proof Hgeo as Hv. unfold valid_geometry in Hv.
  rewrite validate_config_accepts in Hv. simpl in Hv.
  destruct Hv as ((Hns & _) & Hassoc & _).
  split; [done|]. split; [done|]. split; [done|].
  unfold cache, init_cache, init_lines. simpl. split.
  - rewrite length_replicate. lia.
  - intros s set [-> _]%lookup_replicate. split.
    + rewrite length_replicate. lia.
    + intros w l [-> _]%lookup_replicate. done.
Qed.

Lemma X2_init_cache_geometry_witness :
  let cache := (init_cache (mkConfig 8 3 32 0 0)).1 in
  let config := (init_cache (mkConfig 8 3 32 0 0)).2 in
  (num_sets config = 8 ∧ associativity config = 3 ∧ line_size config = 32) ∧
  (2 ^ offset_bits config = 32 ∧ 3 <= offset_bits config <= 6) ∧
  (2 ^ index_bits config = 8 ∧ 0 <= index_bits config <= 13) ∧
  Z.of_nat (length cache) = 8 ∧
  ∀ (s : nat) set, cache !! s = Some set →
    Z.of_nat (length set) = 3 ∧
    ∀ (w : nat) l, set !! w = Some l → l = mkLine 0 0 0.
Proof. apply (X2_init_cache_geometry 8 3 32). reflexivity. Defined.

(** The three fields in arithmetic form. *)
Lemma addr_fields_arith config address :
  0 <= offset_bits config <= 6 → 0 <= index_bits config <= 13 →
  addr_offset config address = address mod 2 ^ offset_bits config ∧
  addr_index config address
    = (address / 2 ^ offset_bits config) mod 2 ^ index_bits config ∧
  addr_tag config address
    = (address / 2 ^ offset_bits config) / 2 ^ index_bits config.
Proof.
  intros Ho Hi. unfold addr_offset, addr_index, addr_tag.
  rewrite !Z.shiftl_1_l.
  assert (Hpo : 0 < 2 ^ offset_bits config <= 2 ^ 6).
  { split; [apply Z.pow_pos_nonneg; lia | apply Z.pow_le_mono_r; lia]. }
  assert (Hpi : 0 < 2 ^ index_bits config <= 2 ^ 13).
  { split; [apply Z.pow_pos_nonneg; lia | apply Z.pow_le_mono_r; lia]. }
  change (2 ^ 6) with 64 in Hpo. change (2 ^ 13) with 8192 in Hpi.
  rewrite !to_uint_small by (unfold UINT_MOD; lia).
  replace (2 ^ offset_bits config - 1) with (Z.ones (offset_bits config))
    by (rewrite Z.ones_equiv; lia).
  replace (2 ^ index_bits config - 1) with (Z.ones (index_bits config))
    by (rewrite Z.ones_equiv; lia).
  rewrite !Z.land_ones by lia.
  rewrite !Z.shiftr_div_pow2 by lia.
  split_and!; try done.
  rewrite Z.pow_add_r by lia. rewrite Z.div_div by lia. done.
Qed.

(** X3: for a validated geometry and an [unsigned int] address, the three
    fields computed by [access_cache] recompose the address:
    [address = tag * (num_sets * line_size) + index * line_size + offset]
    with [0 <= offset < line_size], [0 <= index < num_sets] and
    [0 <= tag < 2^32]. *)
Theorem X3_address_round_trip ns assoc ls address :
  valid_geometry ns assoc ls → 0 <= address < UINT_MOD →
  let config := (init_cache (mkConfig ns assoc ls 0 0)).2 in
  address = addr_tag config address * (ns * ls)
            + addr_index config address * ls + addr_offset config address ∧
  0 <= addr_offset config address < ls ∧
  0 <= addr_index config address < ns ∧
  0 <= addr_tag config address < UINT_MOD.
Proof.
  intros Hgeo Ha config.
  destruct (init_config_pow2 ns assoc ls Hgeo) as (Ho & Hi & Hor & Hir).
  change (init_config _) with config in Ho, Hi, Hor, Hir.
  destruct (addr_fields_arith config address) as (-> & -> & ->); [lia | lia |].
  rewrite Ho, Hi.
  assert (Hls : 0 < ls) by (rewrite <- Ho; apply Z.pow_pos_nonneg; lia).
  assert (Hns : 0 < ns) by (rewrite <- Hi; apply Z.pow_pos_nonneg; lia).
  pose proof (Z.div_mod address ls ltac:(lia)) as H1.
  pose proof (Z.div_mod (address / ls) ns ltac:(lia)) as H2.
  pose proof (Z.mod_pos_bound address ls Hls) as H3.
  pose proof (Z.mod_pos_bound (address / ls) ns Hns) as H4.
  assert (H5 : 0 <= address / ls <= address).
  { split; [apply Z.div_pos; lia | apply Z.div_le_upper_bound; nia]. }
  assert (H6 : 0 <= address / ls / ns <= address / ls).
  { split; [apply Z.div_pos; lia | apply Z.div_le_upper_bound; nia]. }
  split_and!; lia || nia.
Qed.

Lemma X3_address_round_trip_witness :
  let config := (init_cache (mkConfig 4 2 16 0 0)).2 in
  1000 = addr_tag config 1000 * (4 * 16)
         + addr_index config 1000 * 16 + addr_offset config 1000 ∧
  0 <= addr_offset config 1000 < 16 ∧
  0 <= addr_index config 1000 < 4 ∧
  0 <= addr_tag config 1000 < UINT_MOD.
Proof.
  apply (X3_address_round_trip 4 2 16 1000); [reflexivity | unfold UINT_MOD; lia].
Defined.

(** X4: for a validated geometry, two addresses in the same line (equal
    quotients by [line_size]) have the same index and the same tag. *)
Theorem X4_same_line_same_fields ns assoc ls a1 a2 :
  valid_geometry ns assoc ls → a1 / ls = a2 / ls →
  let config := (init_cache (mkConfig ns assoc ls 0 0)).2 in
  addr_index config a1 = addr_index config a2 ∧
  addr_tag config a1 = addr_tag config a2.
Proof.
  intros Hgeo Hq config.
  destruct (init_config_pow2 ns assoc ls Hgeo) as (Ho & Hi & Hor & Hir).
  change (init_config _) with config in Ho, Hi, Hor, Hir.
  destruct (addr_fields_arith config a1) as (_ & -> & ->); [lia | lia |].
  destruct (addr_fields_arith config a2) as (_ & -> & ->); [lia | lia |].
  rewrite Ho, Hq. done.
Qed.

Lemma X4_same_line_same_fields_witness :
  let config := (init_cache (mkConfig 4 2 16 0 0)).2 in
  addr_index config 1000 = addr_index config 1007 ∧
  addr_tag config 1000 = addr_tag config 1007.
Proof. apply (X4_same_line_same_fields 4 2 16 1000 1007); reflexivity. Defined.

(** ** main: exit status, skipped lines, printed totals *)

(** The allocations of [init_cache]: either every call for the sets
    [i .. i + n - 1] succeeds and the sets are built, or one of them fails. *)
Lemma alloc_sets_spec malloc_ok (n i : nat) assoc :
  (∀ k : nat, (i < k <= i + n)%nat → malloc_ok k = true) ∧
    alloc_sets malloc_ok n i assoc
    = Some (replicate n (replicate (Z.to_nat assoc) empty_line)) ∨
  (∃ k : nat, (i < k <= i + n)%nat ∧ malloc_ok k = false) ∧
    alloc_sets malloc_ok n i assoc = None.
Proof.
  revert i. induction n as [|n IH]; intros i.
  - left. split; [intros k Hk; lia | done].
  - simpl. destruct (malloc_ok (S i)) eqn:E.
    + destruct (IH (S i)) as [[Hall ->]|[(k & Hk & Hf) ->]].
      * left. split; [|done]. intros k Hk.
        destruct (decide (k = S i)) as [->|]; [done | apply Hall; lia].
      * right. split; [|done]. exists k. split; [lia | done].
    + right. split; [|done]. exists (S i). split; [lia | done].
Qed.

(** [init_cache_alloc] returns exactly when all its [num_sets + 1]
    allocations succeed, and then with the result of [init_cache]; otherwise
    it exits with one of its two messages. *)
Lemma init_cache_alloc_spec malloc_ok config :
  (∀ k : nat, (k <= Z.to_nat (num_sets config))%nat → malloc_ok k = true) ∧
    init_cache_alloc malloc_ok config = inr (init_cache config) ∨
  (∃ k : nat, (k <= Z.to_nat (num_sets config))%nat ∧ malloc_ok k = false) ∧
    (init_cache_alloc malloc_ok config = inl "Error: Failed to allocate cache memory"%string ∨
     init_cache_alloc malloc_ok config
       = inl "Error: Failed to allocate cache set memory"%string).
Proof.
  unfold init_cache_alloc. destruct (malloc_ok O) eqn:E0.
  - destruct (alloc_sets_spec malloc_ok (Z.to_nat (num_sets config)) O (associativity config))
      as [[Hall ->]|[(k & Hk & Hf) ->]].
    + left. split; [|done]. intros k Hk.
      destruct k as [|k]; [done | apply Hall; lia].
    + right. split; [|by right]. exists k. split; [lia | done].
  - right. split; [|by left]. exists O. split; [lia | done].
Qed.

(** With every allocation successful, [main_alloc] is [main]. *)
Lemma main_alloc_success malloc_ok conf trace :
  (∀ k : nat, malloc_ok k = true) → main_alloc malloc_ok conf trace = main conf trace.
Proof.
  intros Hall. unfold main_alloc, main.
  destruct conf as [[[ns assoc] ls]|]; [|done].
  destruct (negb _); [done|].
  destruct (init_cache_alloc_spec malloc_ok (mkConfig ns assoc ls 0 0))
    as [[_ ->]|[(k & _ & Hf) _]]; [done|].
  rewrite Hall in Hf. done.
Qed.


(** X6: a parsed trace line is handed to [access_cache] exactly when its
    size is 1, 2, 4 or 8 and its address is a multiple of the size; every
    other line is skipped. *)
Theorem X6_line_event_iff ty size address :
  (line_event (mkTraceLine ty size address) = Some (ty, address) ↔
   (size = 1 ∨ size = 2 ∨ size = 4 ∨ size = 8) ∧ address mod size = 0) ∧
  (line_event (mkTraceLine ty size address) = Some (ty, address) ∨
   line_event (mkTraceLine ty size address) = None).
Proof.
  assert (Hland : ∀ k, 0 <= k <= 3 →
            Z.land address (to_uint (2 ^ k - 1)) = address mod 2 ^ k).
  { intros k Hk.
    assert (0 < 2 ^ k <= 2 ^ 3)
      by (split; [apply Z.pow_pos_nonneg; lia | apply Z.pow_le_mono_r; lia]).
    change (2 ^ 3) with 8 in *.
    rewrite to_uint_small by (unfold UINT_MOD; lia).
    replace (2 ^ k - 1) with (Z.ones k) by (rewrite Z.ones_equiv; lia).
    apply Z.land_ones. lia. }
  unfold line_event. cbn [t_size t_address t_type].
  destruct (decide (size = 1)) as [->|H1].
  { change (to_uint (1 - 1)) with (to_uint (2 ^ 0 - 1)).
    rewrite (Hland 0) by lia. change (2 ^ 0) with 1.
    destruct (address mod 1 =? 0) eqn:E; simpl.
    - apply Z.eqb_eq in E. split; [|by left]. split; [by eauto 6 | done].
    - apply Z.eqb_neq in E. split; [|by right]. split; [done | intros [_ ?]; done]. }
  destruct (decide (size = 2)) as [->|H2].
  { change (to_uint (2 - 1)) with (to_uint (2 ^ 1 - 1)).
    rewrite (Hland 1) by lia. change (2 ^ 1) with 2.
    destruct (address mod 2 =? 0) eqn:E; simpl.
    - apply Z.eqb_eq in E. split; [|by left]. split; [by eauto 6 | done].
    - apply Z.eqb_neq in E. split; [|by right]. split; [done | intros [_ ?]; done]. }
  destruct (decide (size = 4)) as [->|H4].
  { change (to_uint (4 - 1)) with (to_uint (2 ^ 2 - 1)).
    rewrite (Hland 2) by lia. change (2 ^ 2) with 4.
    destruct (address mod 4 =? 0) eqn:E; simpl.
    - apply Z.eqb_eq in E. split; [|by left]. split; [by eauto 6 | done].
    - apply Z.eqb_neq in E. split; [|by right]. split; [done | intros [_ ?]; done]. }
  destruct (decide (size = 8)) as [->|H8].
  { change (to_uint (8 - 1)) with (to_uint (2 ^ 3 - 1)).
    rewrite (Hland 3) by lia. change (2 ^ 3) with 8.
    destruct (address mod 8 =? 0) eqn:E; simpl.
    - apply Z.eqb_eq in E. split; [|by left]. split; [by eauto 6 | done].
    - apply Z.eqb_neq in E. split; [|by right]. split; [done | intros [_ ?]; done]. }
  apply Z.eqb_neq in H1, H2, H4, H8. rewrite H1, H2, H4, H8. simpl.
  apply Z.eqb_neq in H1, H2, H4, H8.
  split; [|by right]. split; [done | intros [? _]; lia].
Qed.

(** X7: for a validated geometry the "Total cache size" that [main] prints
    is computed without [int] overflow: it is
    [num_sets * associativity * line_size], between 8 and 4194304 bytes. *)
Theorem X7_total_cache_size ns assoc ls :
  valid_geometry ns assoc ls →
  total_cache_size (init_cache (mkConfig ns assoc ls 0 0)).2 = ns * assoc * ls ∧
  8 <= ns * assoc * ls <= 4194304.
Proof.
  unfold valid_geometry. rewrite validate_config_accepts. simpl.
  intros ((Hns & _) & Hassoc & (Hls & _)).
  assert (Hp : 1 <= ns * assoc <= 65536) by nia.
  assert (Hq : 8 <= ns * assoc * ls <= 4194304) by nia.
  split; [|done].
  unfold total_cache_size, to_int, UINT_MOD. simpl.
  rewrite (Z.mod_small (ns * assoc + 2147483648)) by lia.
  replace (ns * assoc + 2147483648 - 2147483648) with (ns * assoc) by lia.
  rewrite Z.mod_small by lia. lia.
Qed.

Lemma X7_total_cache_size_witness :
  total_cache_size (init_cache (mkConfig 8192 8 64 0 0)).2 = 8192 * 8 * 64 ∧
  8 <= 8192 * 8 * 64 <= 4194304.
Proof. apply (X7_total_cache_size 8192 8 64). reflexivity. Defined.

(** ** What one access changes *)

Lemma lru_touch_valid_tag set assoc (i w : nat) li l :
  (i < length set)%nat → set !! w = Some l →
  ∃ l', lru_touch set assoc i li !! w = Some l' ∧
    (w = i → l' = set_lru_counter li (to_uint (assoc - 1))) ∧
    (w ≠ i → valid l' = valid l ∧ tag l' = tag l).
Proof.
  intros Hi Hl. destruct (decide (w = i)) as [->|Hne].
  - eexists. split; [by apply lru_touch_lookup_eq|]. split; [done|]. done.
  - exists (touch_line (lru_counter li) l). split_and!; try done.
    + unfold lru_touch. rewrite list_lookup_insert_ne by done.
      by rewrite list_lookup_fmap, Hl.
    + intros _. by rewrite touch_line_valid, touch_line_tag.
Qed.

(** The effect of an access on the array: only the set of the address can
    change, and in it either every line keeps its valid flag and tag, or
    (read miss) the victim way is loaded and the others keep theirs. *)
Lemma access_cache_effect config cache ty address stats :
  config_ok config → cache_shape config cache →
  let s := Z.to_nat (addr_index config address) in
  let tg := addr_tag config address in
  let assoc := associativity config in
  ∃ set cache' stats' out set',
    cache !! s = Some set ∧
    access_cache cache config ty address stats = Some (cache', stats', out) ∧
    cache' !! s = Some set' ∧
    length cache' = length cache ∧ length set' = length set ∧
    (∀ s0 : nat, s0 ≠ s → cache' !! s0 = cache !! s0) ∧
    (((is_read ty = false ∨ resident set tg) ∧
      ∀ (w : nat) l, set !! w = Some l →
        ∃ l', set' !! w = Some l' ∧ valid l' = valid l ∧ tag l' = tag l) ∨
     (is_read ty = true ∧ ¬ resident set tg ∧
      ∃ (v : nat) lv, find_lru_victim set assoc = Some (Z.of_nat v) ∧
        set !! v = Some lv ∧
        set' !! v = Some (mkLine 1 tg (assoc - 1)) ∧
        ∀ (w : nat) l, w ≠ v → set !! w = Some l →
          ∃ l', set' !! w = Some l' ∧ valid l' = valid l ∧ tag l' = tag l)).
Proof.
  intros Hcfg Hshape s tg assoc.
  assert (Hassoc : to_uint (assoc - 1) = assoc - 1).
  { apply to_uint_small. destruct Hcfg as [? _].
    unfold MAX_ASSOCIATIVITY, UINT_MOD, assoc in *. lia. }
  destruct (access_cache_cases config cache ty address stats Hcfg Hshape)
    as (set & Hset & [(i & l & Hl & Hm & _ & Hr)|(Hnone & v & lv & Hv & Hlv & Hr)]);
    fold s tg assoc in Hr, Hset |- *.
  - (* hit *)
    assert (Hres : resident set tg) by (apply resident_iff; eauto).
    assert (Hi := lookup_lt_Some _ _ _ Hl).
    assert (Hs := lookup_lt_Some _ _ _ Hset).
    assert (Hsame : ∀ (w : nat) l0, set !! w = Some l0 →
              ∃ l', lru_touch set assoc i l !! w = Some l' ∧
                    valid l' = valid l0 ∧ tag l' = tag l0).
    { intros w l0 Hl0.
      destruct (lru_touch_valid_tag set assoc i w l l0 Hi Hl0) as (l' & Hl' & Heq & Hne).
      exists l'. split; [done|].
      destruct (decide (w = i)) as [->|Hwi]; [|by apply Hne].
      rewrite (Heq eq_refl). assert (l0 = l) by congruence. by subst. }
    destruct (is_read ty) eqn:Er; [|destruct (is_write ty) eqn:Ew].
    + exists set. do 4 eexists. split; [done|]. split; [exact Hr|].
      split; [by apply list_lookup_insert_eq|].
      split; [by rewrite length_insert|]. split; [by rewrite lru_touch_length|].
      split; [intros s0 Hs0; by apply list_lookup_insert_ne|].
      left. split; [by right | exact Hsame].
    + exists set. do 4 eexists. split; [done|]. split; [exact Hr|].
      split; [by apply list_lookup_insert_eq|].
      split; [by rewrite length_insert|]. split; [by rewrite lru_touch_length|].
      split; [intros s0 Hs0; by apply list_lookup_insert_ne|].
      left. split; [by right | exact Hsame].
    + exists set. do 4 eexists. split; [done|]. split; [exact Hr|].
      split; [exact Hset|]. split; [done|]. split; [done|]. split; [done|].
      left. split; [by right | eauto].
  - (* miss *)
    assert (Hnres : ¬ resident set tg) by (by apply not_resident).
    assert (Hvlt := lookup_lt_Some _ _ _ Hlv).
    assert (Hs := lookup_lt_Some _ _ _ Hset).
    destruct (is_read ty) eqn:Er; [|destruct (is_write ty) eqn:Ew].
    + exists set. do 4 eexists. split; [done|]. split; [exact Hr|].
      split; [by apply list_lookup_insert_eq|].
      split; [by rewrite length_insert|]. split; [by rewrite lru_touch_length|].
      split; [intros s0 Hs0; by apply list_lookup_insert_ne|].
      right. split; [done|]. split; [done|].
      exists v, lv. split; [exact Hv|]. split; [done|]. split.
      * rewrite lru_touch_lookup_eq by done. unfold set_lru_counter. simpl.
        by rewrite Hassoc.
      * intros w l Hw Hl.
        destruct (lru_touch_valid_tag set assoc v w
                    (mkLine 1 tg (lru_counter lv)) l Hvlt Hl) as (l' & Hl' & _ & Hne).
        exists l'. split; [done|]. by apply Hne.
    + exists set. do 4 eexists. split; [done|]. split; [exact Hr|].
      split; [exact Hset|]. split; [done|]. split; [done|]. split; [done|].
      left. split; [by left | eauto].
    + exists set. do 4 eexists. split; [done|]. split; [exact Hr|].
      split; [exact Hset|]. split; [done|]. split; [done|]. split; [done|].
      left. split; [by left | eauto].
Qed.

Lemma access_cache_shape_kept config cache ty address stats :
  config_ok config → cache_shape config cache →
  ∃ cache' stats' out,
    access_cache cache config ty address stats = Some (cache', stats', out) ∧
    cache_shape config cache'.
Proof.
  intros Hcfg Hshape.
  destruct (access_cache_effect config cache ty address stats Hcfg Hshape)
    as (set & cache' & stats' & out & set' & Hset & Hr & Hset' & Hlen & Hlen' & Hother & _).
  exists cache', stats', out. split; [done|].
  destruct Hshape as [Hl Hsets]. split; [lia|].
  intros s0 set0 Hs0.
  destruct (decide (s0 = Z.to_nat (addr_index config address))) as [->|Hne].
  - assert (set0 = set') by congruence. subst.
    rewrite Hlen'. by apply (Hsets _ _ Hset).
  - rewrite Hother in Hs0 by done. by apply (Hsets _ _ Hs0).
Qed.

(** X8: an access changes no set other than the one its address maps to,
    and never the dimensions of the array. *)
Theorem X8_access_frame config cache ty address stats :
  config_ok config → cache_shape config cache →
  ∃ cache' stats' out,
    access_cache cache config ty address stats = Some (cache', stats', out) ∧
    cache_shape config cache' ∧
    ∀ s0 : nat, s0 ≠ Z.to_nat (addr_index config address) →
      cache' !! s0 = cache !! s0.
Proof.
  intros Hcfg Hshape.
  destruct (access_cache_effect config cache ty address stats Hcfg Hshape)
    as (set & cache' & stats' & out & set' & Hset & Hr & Hset' & Hlen & Hlen' & Hother & _).
  destruct (access_cache_shape_kept config cache ty address stats Hcfg Hshape)
    as (c & st & o & Hr' & Hshape').
  rewrite Hr in Hr'. injection Hr' as <- <- <-.
  eauto 10.
Qed.

(** X9: only a read miss changes what is cached: after a write (hit or
    miss), after a read hit and after an access of unknown type, every line
    of every set has the valid flag and the tag it had before. *)
Theorem X9_only_read_miss_loads config cache ty address stats set :
  config_ok config → cache_shape config cache →
  cache !! Z.to_nat (addr_index config address) = Some set →
  is_read ty = false ∨ resident set (addr_tag config address) →
  ∃ cache' stats' out,
    access_cache cache config ty address stats = Some (cache', stats', out) ∧
    ∀ (s0 w : nat) set0 l, cache !! s0 = Some set0 → set0 !! w = Some l →
      ∃ set0' l', cache' !! s0 = Some set0' ∧ set0' !! w = Some l' ∧
        valid l' = valid l ∧ tag l' = tag l.
Proof.
  intros Hcfg Hshape Hset Hcase.
  destruct (access_cache_effect config cache ty address stats Hcfg Hshape)
    as (set1 & cache' & stats' & out & set' & Hset1 & Hr & Hset' & _ & _ & Hother
        & [[_ Hsame]|(Hread & Hmiss & _)]).
  - exists cache', stats', out. split; [done|].
    intros s0 w set0 l Hs0 Hl.
    destruct (decide (s0 = Z.to_nat (addr_index config address))) as [->|Hne].
    + assert (set0 = set1) by congruence. subst.
      destruct (Hsame w l Hl) as (l' & ? & ? & ?). eauto 10.
    + rewrite <- Hother in Hs0 by done. eauto 10.
  - exfalso. assert (set1 = set) by congruence. subst.
    destruct Hcase; [congruence | done].
Qed.

Lemma access_cache_keeps_valid config cache ty address stats :
  config_ok config → cache_shape config cache →
  ∃ cache' stats' out,
    access_cache cache config ty address stats = Some (cache', stats', out) ∧
    cache_shape config cache' ∧
    ∀ (s0 w : nat) set0 l, cache !! s0 = Some set0 → set0 !! w = Some l →
      line_valid l →
      ∃ set0' l', cache' !! s0 = Some set0' ∧ set0' !! w = Some l' ∧ line_valid l'.
Proof.
  intros Hcfg Hshape.
  destruct (access_cache_shape_kept config cache ty address stats Hcfg Hshape)
    as (c & st & o & Hr' & Hshape').
  destruct (access_cache_effect config cache ty address stats Hcfg Hshape)
    as (set & cache' & stats' & out & set' & Hset & Hr & Hset' & _ & _ & Hother & Hcase).
  rewrite Hr in Hr'. injection Hr' as <- <- <-.
  exists cache', stats', out. split; [done|]. split; [done|].
  intros s0 w set0 l Hs0 Hl Hv.
  destruct (decide (s0 = Z.to_nat (addr_index config address))) as [->|Hne].
  - assert (set0 = set) by congruence. subst.
    destruct Hcase as [[_ Hsame]|(_ & _ & v & lv & _ & Hlv & Hnew & Hsame)].
    + destruct (Hsame w l Hl) as (l' & Hl' & Hvl & _).
      exists set', l'. split_and!; try done. unfold line_valid in *. congruence.
    + destruct (decide (w = v)) as [->|Hwv].
      * exists set', (mkLine 1 (addr_tag config address) (associativity config - 1)).
        split_and!; done.
      * destruct (Hsame w l Hwv Hl) as (l' & Hl' & Hvl & _).
        exists set', l'. split_and!; try done. unfold line_valid in *. congruence.
  - rewrite <- Hother in Hs0 by done. eauto 10.
Qed.

(** X10: there is no invalidation: along any replay on an array with the
    configured dimensions, a line that is valid stays valid (its tag may
    be replaced, it is never emptied), and the replay never leaves the
    arrays. *)
Theorem X10_valid_stays_valid config evs : ∀ cache stats,
  config_ok config → cache_shape config cache →
  ∃ cache' stats' outs,
    run config evs cache stats = Some (cache', stats', outs) ∧
    ∀ (s0 w : nat) set0 l, cache !! s0 = Some set0 → set0 !! w = Some l →
      line_valid l →
      ∃ set0' l', cache' !! s0 = Some set0' ∧ set0' !! w = Some l' ∧ line_valid l'.
Proof.
  induction evs as [|e evs IH]; intros cache stats Hcfg Hshape; simpl.
  - exists cache, stats, []. split; [done|]. eauto 10.
  - destruct (access_cache_keeps_valid config cache e.1 e.2 stats Hcfg Hshape)
      as (c1 & s1 & o & -> & Hshape1 & Hkeep1). simpl.
    destruct (IH c1 s1 Hcfg Hshape1) as (c2 & s2 & os & -> & Hkeep2). simpl.
    do 3 eexists. split; [done|].
    intros s0 w set0 l Hs0 Hl Hv.
    destruct (Hkeep1 s0 w set0 l Hs0 Hl Hv) as (set1 & l1 & Hs1 & Hl1 & Hv1).
    by apply (Hkeep2 s0 w set1 l1).
Qed.

(** X11: nothing is evicted while the set has an invalid way: when the set
    of the address is not full, every tag resident in any set before the
    access is still resident in that set after it. *)
Theorem X11_no_eviction_unless_full config cache ty address stats set :
  config_ok config → cache_shape config cache →
  cache !! Z.to_nat (addr_index config address) = Some set →
  ¬ set_full set →
  ∃ cache' stats' out,
    access_cache cache config ty address stats = Some (cache', stats', out) ∧
    ∀ (s0 : nat) set0 t, cache !! s0 = Some set0 → resident set0 t →
      ∃ set0', cache' !! s0 = Some set0' ∧ resident set0' t.
Proof.
  intros Hcfg Hshape Hset Hnfull.
  destruct (access_cache_effect config cache ty address stats Hcfg Hshape)
    as (set1 & cache' & stats' & out & set' & Hset1 & Hr & Hset' & _ & _ & Hother & Hcase).
  assert (set1 = set) by congruence. subst set1.
  exists cache', stats', out. split; [done|].
  intros s0 set0 t Hs0 (w & l & Hl & Hv & Ht).
  destruct (decide (s0 = Z.to_nat (addr_index config address))) as [->|Hne];
    [|rewrite <- Hother in Hs0 by done; exists set0; split; [done|]; exists w, l; done].
  assert (set0 = set) by congruence. subst set0.
  exists set'. split; [done|].
  destruct Hcase as [[_ Hsame]|(_ & _ & v & lv & Hvic & Hlv & Hnew & Hsame)].
  - destruct (Hsame w l Hl) as (l' & Hl' & Hvl & Htl).
    exists w, l'. unfold line_valid in *. split_and!; congruence.
  - assert (Hlvinv : valid lv = 0).
    { destruct (find_lru_victim_spec set (associativity config))
        as (v' & lv' & Hv' & Hlv' & Hspec).
      - destruct Hshape as [_ Hsets]. by apply (Hsets _ _ Hset).
      - destruct Hcfg; lia.
      - assert (v' = v) by (rewrite Hvic in Hv'; injection Hv'; lia). subst v'.
        assert (lv' = lv) by congruence. subst lv'.
        destruct Hspec as [[? _]|[Hall _]]; [done|].
        exfalso. apply Hnfull. apply Forall_lookup. intros i x Hx.
        by apply (Hall i). }
    assert (Hwv : w ≠ v).
    { intros ->. assert (l = lv) by congruence. subst. by apply Hv. }
    destruct (Hsame w l Hwv Hl) as (l' & Hl' & Hvl & Htl).
    exists w, l'. unfold line_valid in *. split_and!; congruence.
Qed.

(** X12: a read leaves its tag resident in its set, in a line with the
    highest counter [associativity - 1]; a read or write that follows
    immediately with the same index and tag (for instance any address of
    the same line) is a hit. *)
Theorem X12_read_then_hit config cache ty address stats :
  config_ok config → cache_shape config cache → is_read ty = true →
  ∃ cache' stats' o set' (w : nat) l',
    access_cache cache config ty address stats = Some (cache', stats', Some o) ∧
    cache' !! Z.to_nat (addr_index config address) = Some set' ∧
    set' !! w = Some l' ∧
    (line_valid l' ∧ tag l' = addr_tag config address ∧
     lru_counter l' = associativity config - 1) ∧
    ∀ ty2 address2 stats2,
      addr_index config address2 = addr_index config address →
      addr_tag config address2 = addr_tag config address →
      is_read ty2 = true ∨ is_write ty2 = true →
      ∃ cache2 stats2' o2,
        access_cache cache' config ty2 address2 stats2
        = Some (cache2, stats2', Some o2) ∧
        o_result o2 = "hit "%string.
Proof.
  intros Hcfg Hshape Hread.
  set (s := Z.to_nat (addr_index config address)).
  set (tg := addr_tag config address).
  set (assoc := associativity config).
  assert (Hassoc : to_uint (assoc - 1) = assoc - 1).
  { apply to_uint_small. destruct Hcfg as [? _].
    unfold MAX_ASSOCIATIVITY, UINT_MOD, assoc in *. lia. }
  destruct (access_cache_shape_kept config cache ty address stats Hcfg Hshape)
    as (c & st & o & Hr' & Hshape').
  assert (Hkey : ∃ set (w : nat) lw,
            cache !! s = Some set ∧ (w < length set)%nat ∧
            line_valid lw ∧ tag lw = tg ∧
            access_cache cache config ty address stats
            = Some (<[s := lru_touch set assoc w lw]> cache, st, o) ∧
            is_Some o).
  { destruct (access_cache_cases config cache ty address stats Hcfg Hshape)
      as (set & Hset & [(i & l & Hl & Hm & _ & Hr)|(_ & v & lv & _ & Hlv & Hr)]);
      fold s tg assoc in Hr, Hset; rewrite Hread in Hr; rewrite Hr in Hr';
      injection Hr' as <- <- <-.
    - apply tag_match_true in Hm as [Hv Ht].
      exists set, i, l. split_and!; try done. by apply lookup_lt_Some in Hl.
    - exists set, v, (mkLine 1 tg (lru_counter lv)).
      split_and!; try done. by apply lookup_lt_Some in Hlv. }
  destruct Hkey as (set & w & lw & Hset & Hw & Hv & Ht & Hr & [o' ->]).
  rewrite Hr in Hr'. injection Hr' as <-.
  assert (Hs := lookup_lt_Some _ _ _ Hset).
  assert (Hnew : lru_touch set assoc w lw !! w = Some (mkLine (valid lw) tg (assoc - 1))).
  { rewrite lru_touch_lookup_eq by done. unfold set_lru_counter.
    by rewrite Hassoc, Ht. }
  assert (Hres : resident (lru_touch set assoc w lw) tg).
  { exists w, (mkLine (valid lw) tg (assoc - 1)). split_and!; done. }
  exists (<[s := lru_touch set assoc w lw]> cache), st, o', (lru_touch set assoc w lw), w,
         (mkLine (valid lw) tg (assoc - 1)).
  split; [exact Hr|].
  split; [by apply list_lookup_insert_eq|].
  split; [exact Hnew|]. split; [done|].
  intros ty2 address2 stats2 Hidx Htag Hrw.
  destruct (access_cache_cases config _ ty2 address2 stats2 Hcfg Hshape')
    as (set2 & Hset2 & [(i & l & _ & _ & _ & Hr2)|(Hnone & _)]).
  - destruct (is_read ty2) eqn:Er2.
    + do 3 eexists. split; [exact Hr2|]. done.
    + destruct Hrw as [|Hw2]; [done|]. rewrite Hw2 in Hr2.
      do 3 eexists. split; [exact Hr2|]. done.
  - exfalso. rewrite Hidx in Hset2. fold s in Hset2.
    rewrite list_lookup_insert_eq in Hset2 by done. injection Hset2 as <-.
    rewrite Htag in Hnone. fold tg in Hnone.
    by apply (not_resident _ _ Hnone).
Qed.

(** X13: the first access to a freshly initialised cache is a miss whatever
    its address: a read loads way 0 of its set with counter
    [associativity - 1] and changes nothing else; a write leaves the whole
    array as it is. *)
Theorem X13_cold_miss ns assoc ls ty address stats :
  valid_geometry ns assoc ls →
  let cache0 := (init_cache (mkConfig ns assoc ls 0 0)).1 in
  let config := (init_cache (mkConfig ns assoc ls 0 0)).2 in
  ∃ cache' stats' out,
    access_cache cache0 config ty address stats = Some (cache', stats', out) ∧
    (is_read ty = true →
       (∃ o, out = Some o ∧ o_result o = "miss"%string ∧ o_memrefs o = 1) ∧
       stats' = stats_read_miss stats ∧
       cache' = <[Z.to_nat (addr_index config address) :=
                   <[0%nat := mkLine 1 (addr_tag config address) (assoc - 1)]>
                     (replicate (Z.to_nat assoc) empty_line)]> cache0) ∧
    (is_write ty = true →
       (∃ o, out = Some o ∧ o_result o = "miss"%string ∧ o_memrefs o = 1) ∧
       stats' = stats_write_miss stats ∧ cache' = cache0).
Proof.
  intros Hgeo cache0 config.
  pose proof (init_config_ok ns assoc ls Hgeo) as Hcfg.
  pose proof (cache_inv_shape _ _ (init_cache_inv ns assoc ls Hgeo)) as Hshape.
  change (init_config _) with config in Hcfg, Hshape.
  change (init_lines _) with cache0 in Hshape.
  assert (Hassoc : 1 <= assoc <= 8) by (destruct Hcfg as [? _]; done).
  destruct (access_cache_cases config cache0 ty address stats Hcfg Hshape)
    as (set & Hset & [(i & l & Hl & Hm & _ & _)|(_ & v & lv & Hv & Hlv & Hr)]).
  { exfalso. apply lookup_replicate in Hset as [-> _].
    apply lookup_replicate in Hl as [-> _]. done. }
  pose proof Hset as Hset0. apply lookup_replicate in Hset0 as [-> _].
  change (associativity (mkConfig ns assoc ls 0 0)) with assoc in *.
  change (associativity config) with assoc in *.
  assert (Hv0 : v = 0%nat).
  { destruct (find_lru_victim_spec (replicate (Z.to_nat assoc) empty_line) assoc)
      as (v' & lv' & Hv' & Hlv' & Hspec); [rewrite length_replicate; lia | lia |].
    assert (v' = v) by (rewrite Hv in Hv'; injection Hv'; lia). subst v'.
    destruct Hspec as [[_ Hfirst]|[Hall _]].
    - destruct v as [|v]; [done|exfalso].
      apply (Hfirst 0%nat empty_line); [lia | | done].
      apply lookup_replicate_2. lia.
    - exfalso. apply (Hall v lv Hlv).
      by apply lookup_replicate in Hlv as [-> _]. }
  subst v. apply lookup_replicate in Hlv as [-> _].
  assert (Htouch : lru_touch (replicate (Z.to_nat assoc) empty_line) assoc 0
                     (mkLine 1 (addr_tag config address) (lru_counter empty_line))
                   = <[0%nat := mkLine 1 (addr_tag config address) (assoc - 1)]>
                       (replicate (Z.to_nat assoc) empty_line)).
  { unfold lru_touch, set_lru_counter. simpl.
    rewrite fmap_replicate.
    rewrite to_uint_small by (unfold UINT_MOD; lia). done. }
  rewrite Htouch in Hr.
  destruct (is_read ty) eqn:Er; [|destruct (is_write ty) eqn:Ew].
  - do 3 eexists. split; [exact Hr|]. split; [|by rewrite is_read_write_excl].
    intros _. split_and!; try done. eexists. split; [done|]. done.
  - do 3 eexists. split; [exact Hr|]. split; [done|].
    intros _. split_and!; try done. eexists. split; [done|]. done.
  - do 3 eexists. split; [exact Hr|]. done.
Qed.

Lemma X13_cold_miss_witness :
  let cache0 := (init_cache (mkConfig 4 2 16 0 0)).1 in
  let config := (init_cache (mkConfig 4 2 16 0 0)).2 in
  ∃ cache' stats' out,
    access_cache cache0 config "R" 100 (mkStats 0 0 0 0) = Some (cache', stats', out) ∧
    (is_read "R" = true →
       (∃ o, out = Some o ∧ o_result o = "miss"%string ∧ o_memrefs o = 1) ∧
       stats' = stats_read_miss (mkStats 0 0 0 0) ∧
       cache' = <[Z.to_nat (addr_index config 100) :=
                   <[0%nat := mkLine 1 (addr_tag config 100) (2 - 1)]>
                     (replicate (Z.to_nat 2) empty_line)]> cache0) ∧
    (is_write "R" = true →
       (∃ o, out = Some o ∧ o_result o = "miss"%string ∧ o_memrefs o = 1) ∧
       stats' = stats_write_miss (mkStats 0 0 0 0) ∧ cache' = cache0).
Proof. apply (X13_cold_miss 4 2 16 "R" 100 (mkStats 0 0 0 0)). reflexivity. Defined.

(** ** The counters of reachable sets *)

Lemma reachable_inv ns assoc ls evs cache stats outs :
  valid_geometry ns assoc ls →
  run (init_cache (mkConfig ns assoc ls 0 0)).2 evs
      (init_cache (mkConfig ns assoc ls 0 0)).1 (mkStats 0 0 0 0)
  = Some (cache, stats, outs) →
  config_ok (init_cache (mkConfig ns assoc ls 0 0)).2 ∧
  cache_inv (init_cache (mkConfig ns assoc ls 0 0)).2 cache.
Proof.
  intros Hgeo Hrun.
  destruct (run_from_init ns assoc ls evs Hgeo) as (c & st & os & Hrun' & Hcfg & Hinv).
  simpl in Hrun. rewrite Hrun in Hrun'. injection Hrun' as <- <- <-. done.
Qed.

(** In a set in its invariant with [k] valid lines, every level from
    [assoc - k] to [assoc - 1] is the counter of some valid line. *)
Lemma set_inv_dense assoc set :
  set_inv assoc set →
  ∃ k : nat, (k ≤ length set)%nat ∧
    (∀ (w : nat) l, set !! w = Some l → (line_valid l ↔ (w < k)%nat)) ∧
    ∀ c, assoc - Z.of_nat k <= c < assoc →
      ∃ (w : nat) l, set !! w = Some l ∧ line_valid l ∧ lru_counter l = c.
Proof.
  intros (k & Hlen & Hk & Hval & Hemp & Hdist). exists k.
  assert (Hvalid : ∀ (w : nat) l, set !! w = Some l → (line_valid l ↔ (w < k)%nat)).
  { intros w l Hl. split.
    - intros Hv. destruct (decide (w < k)%nat); [done|].
      rewrite (Hemp w l Hl) in Hv by lia. done.
    - intros Hw. destruct (Hval w l Hl Hw) as [Hv _]. unfold line_valid. lia. }
  split; [done|]. split; [done|].
  set (cs := lru_counter <$> take k set).
  assert (Hcs : ∀ (i : nat) c, cs !! i = Some c ↔
            ∃ l, set !! i = Some l ∧ (i < k)%nat ∧ lru_counter l = c).
  { intros i c. unfold cs. rewrite list_lookup_fmap, fmap_Some.
    setoid_rewrite lookup_take_Some. split.
    - intros (l & [Hl Hi] & Hc). exists l. done.
    - intros (l & Hl & Hi & Hc). exists l. done. }
  assert (Hnodup : NoDup cs).
  { apply NoDup_alt. intros i j c Hi Hj.
    apply Hcs in Hi as (li & Hli & Hik & Hci).
    apply Hcs in Hj as (lj & Hlj & Hjk & Hcj).
    destruct (decide (i = j)) as [|Hne]; [done|exfalso].
    destruct (Hdist i j li lj Hne Hli Hlj) as [_ Hc]; [by apply (Hvalid i) | by apply (Hvalid j) |].
    congruence. }
  assert (Hsub : cs ⊆+ seqZ (assoc - Z.of_nat k) (Z.of_nat k)).
  { apply NoDup_submseteq; [done|].
    intros c (i & Hi)%list_elem_of_lookup.
    apply Hcs in Hi as (li & Hli & Hik & <-).
    destruct (Hval i li Hli Hik) as [_ ?].
    apply elem_of_seqZ. lia. }
  assert (Hperm : cs ≡ₚ seqZ (assoc - Z.of_nat k) (Z.of_nat k)).
  { apply submseteq_length_Permutation; [done|].
    rewrite length_seqZ. unfold cs. rewrite length_fmap, length_take_le by done. lia. }
  intros c Hc.
  assert (Hin : c ∈ cs) by (rewrite Hperm; apply elem_of_seqZ; lia).
  apply list_elem_of_lookup in Hin as (i & Hi).
  apply Hcs in Hi as (l & Hl & Hik & Hcl).
  exists i, l. split_and!; try done. by apply (Hvalid i).
Qed.

(** X14: in every state reachable from the initial cache, the valid lines
    of a set are its first [k] ways for some [k], and their counters are
    exactly the [k] highest levels: each value from [associativity - k] to
    [associativity - 1] is the counter of a valid line (of exactly one, the
    counters being distinct). *)
Theorem X14_counters_dense ns assoc ls evs cache stats outs (s : nat) set :
  valid_geometry ns assoc ls →
  run (init_cache (mkConfig ns assoc ls 0 0)).2 evs
      (init_cache (mkConfig ns assoc ls 0 0)).1 (mkStats 0 0 0 0)
  = Some (cache, stats, outs) →
  cache !! s = Some set →
  ∃ k : nat, (k ≤ length set)%nat ∧
    (∀ (w : nat) l, set !! w = Some l → (line_valid l ↔ (w < k)%nat)) ∧
    ∀ c, assoc - Z.of_nat k <= c < assoc →
      ∃ (w : nat) l, set !! w = Some l ∧ line_valid l ∧ lru_counter l = c ∧
        ∀ (w' : nat) l', set !! w' = Some l' → line_valid l' →
          lru_counter l' = c → w' = w.
Proof.
  intros Hgeo Hrun Hset.
  destruct (reachable_inv ns assoc ls evs cache stats outs Hgeo Hrun) as [_ [_ Hsets]].
  pose proof (Hsets s set Hset) as Hinv. simpl in Hinv.
  destruct (set_inv_dense assoc set Hinv) as (k & Hk & Hvalid & Hdense).
  exists k. split; [done|]. split; [done|].
  intros c Hc. destruct (Hdense c Hc) as (w & l & Hl & Hv & Hcl).
  exists w, l. split_and!; try done.
  intros w' l' Hl' Hv' Hcl'.
  destruct (decide (w' = w)) as [|Hne]; [done|exfalso].
  destruct Hinv as (k0 & _ & _ & _ & _ & Hdist).
  destruct (Hdist w' w l' l Hne Hl' Hl Hv' Hv) as [_ ?]. congruence.
Qed.



(** ** update_lru on the most recent way *)

Lemma update_lru_mru set assoc (w : nat) a :
  Z.of_nat (length set) = assoc → assoc <= INT_MAX →
  set !! w = Some a → lru_counter a = assoc - 1 →
  (∀ (i : nat) l, set !! i = Some l → lru_counter l <= assoc - 1) →
  update_lru set assoc (Z.of_nat w) = Some set.
Proof.
  intros Hlen Hmax Ha Hc Hle.
  assert (Hw := lookup_lt_Some _ _ _ Ha).
  erewrite update_lru_closed by done. f_equal.
  rewrite to_uint_small by (unfold INT_MAX, UINT_MOD in *; lia).
  assert (Hfmap : touch_line (lru_counter a) <$> set = set).
  { rewrite <- (list_fmap_id set) at 2. apply list_fmap_ext.
    intros i l Hl. unfold touch_line.
    pose proof (Hle i l Hl).
    destruct (lru_counter a <? lru_counter l) eqn:E;
      [apply Z.ltb_lt in E; lia | by rewrite andb_false_r]. }
  rewrite Hfmap. apply list_insert_id.
  rewrite Ha. f_equal. destruct a; simpl in *. by subst.
Qed.

(** X16: touching the way that already has the highest counter changes
    nothing: on a set whose counters are at most [associativity - 1],
    [update_lru] at a way whose counter is [associativity - 1] returns the
    set as it was. *)
Theorem X16_update_lru_mru_noop set assoc way a :
  Z.of_nat (length set) = assoc → assoc <= INT_MAX →
  arr_get set way = Some a → lru_counter a = assoc - 1 →
  (∀ (i : nat) l, set !! i = Some l → lru_counter l <= assoc - 1) →
  update_lru set assoc way = Some set.
Proof.
  intros Hlen Hmax Ha Hc Hle.
  apply arr_get_Some in Ha as [Hway Ha].
  rewrite <- (Z2Nat.id way) by lia.
  by apply (update_lru_mru set assoc (Z.to_nat way) a).
Qed.

Lemma X16_update_lru_mru_noop_witness :
  update_lru [mkLine 1 7 1; mkLine 1 9 2; mkLine 1 4 0] 3 1
  = Some [mkLine 1 7 1; mkLine 1 9 2; mkLine 1 4 0].
Proof.
  apply (X16_update_lru_mru_noop _ 3 1 (mkLine 1 9 2)).
  - reflexivity.
  - unfold INT_MAX. lia.
  - reflexivity.
  - reflexivity.
  - intros [|[|[|i]]] l [=]; subst; simpl; lia.
Defined.

(** X17: [update_lru] is idempotent: on a set whose counters lie in
    [0, associativity - 1], touching the same way twice in a row gives the
    same set as touching it once. *)
Theorem X17_update_lru_idempotent set assoc way a :
  Z.of_nat (length set) = assoc → assoc <= INT_MAX →
  arr_get set way = Some a →
  (∀ (i : nat) l, set !! i = Some l → 0 <= lru_counter l <= assoc - 1) →
  ∃ set1, update_lru set assoc way = Some set1 ∧
          update_lru set1 assoc way = Some set1.
Proof.
  intros Hlen Hmax Ha Hrange.
  apply arr_get_Some in Ha as [Hway Ha].
  rewrite <- (Z2Nat.id way) by lia.
  assert (Hw := lookup_lt_Some _ _ _ Ha).
  assert (Hassoc : to_uint (assoc - 1) = assoc - 1)
    by (apply to_uint_small; unfold INT_MAX, UINT_MOD in *; lia).
  erewrite update_lru_closed by done.
  eexists. split; [done|].
  eapply update_lru_mru.
  - by rewrite length_insert, length_fmap.
  - done.
  - apply list_lookup_insert_eq. by rewrite length_fmap.
  - simpl. done.
  - intros i l Hl. rewrite Hassoc in Hl.
    destruct (decide (i = Z.to_nat way)) as [->|Hne].
    + rewrite list_lookup_insert_eq in Hl by (by rewrite length_fmap).
      injection Hl as <-. simpl. lia.
    + rewrite list_lookup_insert_ne in Hl by done.
      rewrite list_lookup_fmap in Hl. apply fmap_Some in Hl as (l0 & Hl0 & ->).
      pose proof (Hrange i l0 Hl0). pose proof (Hrange _ a Ha).
      rewrite touch_line_counter by (unfold INT_MAX, UINT_MOD in *; lia).
      case_decide; lia.
Qed.

Lemma X17_update_lru_idempotent_witness :
  ∃ set1, update_lru [mkLine 1 7 1; mkLine 1 9 0; mkLine 1 4 2] 3 1 = Some set1 ∧
          update_lru set1 3 1 = Some set1.
Proof.
  apply (X17_update_lru_idempotent _ 3 1 (mkLine 1 9 0)).
  - reflexivity.
  - unfold INT_MAX. lia.
  - reflexivity.
  - intros [|[|[|i]]] l [=]; subst; simpl; lia.
Defined.

(** ** Printed lines and statistics by kind of access *)

Lemma access_cache_out cache config ty address stats cache' stats' out :
  access_cache cache config ty address stats = Some (cache', stats', out) →
  if is_read ty || is_write ty
  then ∃ o, out = Some o ∧ out_fields o = echo config (ty, address) ∧ outcome_ok o
  else out = None.
Proof.
  intros H. unfold access_cache in H.
  destruct (arr_get cache _) as [set|]; [simpl in H | done].
  destruct (search_loop _ _ _ _) as [[hit hit_way]|]; [simpl in H | done].
  assert (Hok : ∀ m, is_read ty = true ∧ is_write ty = false ∧
                     m = (if truthy hit then 0 else 1) ∨
                     is_read ty = false ∧ is_write ty = true ∧ m = 1 →
                outcome_ok (mkOutcome ty address (addr_tag config address)
                              (addr_index config address) (addr_offset config address)
                              (hit_string hit) m)).
  { intros m Hm. unfold outcome_ok, hit_string. simpl.
    destruct (truthy hit); (split; [by auto|]);
      destruct Hm as [(? & ? & ->)|(? & ? & ->)]; auto. }
  destruct (is_read ty) eqn:Er; simpl.
  - pose proof (is_read_write_excl _ Er) as Ew.
    assert (Hout : out = Some (mkOutcome ty address (addr_tag config address)
                     (addr_index config address) (addr_offset config address)
                     (hit_string hit) (if truthy hit then 0 else 1))).
    { destruct (truthy hit); simplify_option_eq; done. }
    eexists. split; [exact Hout|]. split; [done|]. apply Hok. auto.
  - destruct (is_write ty) eqn:Ew; simpl.
    + assert (Hout : out = Some (mkOutcome ty address (addr_tag config address)
                       (addr_index config address) (addr_offset config address)
                       (hit_string hit) 1)).
      { destruct (truthy hit); simplify_option_eq; done. }
      eexists. split; [exact Hout|]. split; [done|]. apply Hok. auto.
    + by injection H as _ _ <-.
Qed.

Lemma run_outs config evs : ∀ cache stats cache' stats' outs,
  run config evs cache stats = Some (cache', stats', outs) →
  out_fields <$> outs = echo config <$> filter (λ e, is_rw e = true) evs ∧
  Forall outcome_ok outs.
Proof.
  induction evs as [|e evs IH]; intros cache stats cache' stats' outs Hrun; simpl in Hrun.
  - injection Hrun as _ _ <-. done.
  - destruct (access_cache cache config e.1 e.2 stats) as [[[c1 s1] o]|] eqn:Hacc;
      [simpl in Hrun | done].
    destruct (run config evs c1 s1) as [[[c2 s2] os]|] eqn:Hrest; [simpl in Hrun | done].
    injection Hrun as _ _ <-.
    destruct (IH _ _ _ _ _ Hrest) as [Hecho Hall].
    apply access_cache_out in Hacc.
    change (is_read e.1 || is_write e.1) with (is_rw e) in Hacc.
    destruct (is_rw e) eqn:Erw.
    + destruct Hacc as (o1 & -> & Hf & Hok).
      change (opt_list (Some o1) ++ os) with (o1 :: os).
      rewrite filter_cons_True by done. rewrite !fmap_cons, Hecho, Hf.
      split; [by destruct e | by apply Forall_cons].
    + subst o. simpl. rewrite filter_cons_False by (rewrite Erw; done). done.
Qed.

(** X18: the printed lines echo the trace: whenever a replay returns, it
    has printed one line per read or write access, in the order of the
    trace, carrying the type character and address of the access and the
    tag, index and offset of that address; accesses of any other type print
    nothing.  Each line is a read with 0 memory references on "hit " and 1
    on "miss", or a write with 1. *)
Theorem X18_output_echoes_trace config (evs : list event) cache stats cache' stats' outs :
  run config evs cache stats = Some (cache', stats', outs) →
  out_fields <$> outs = echo config <$> filter (λ e, is_rw e = true) evs ∧
  Forall outcome_ok outs.
Proof. apply run_outs. Qed.

Lemma X18_output_echoes_trace_witness :
  let evs : list event := [("R"%char, 0); ("X"%char, 4); ("W"%char, 64)] in
  let outs := [mkOutcome "R" 0 0 0 0 "miss" 1; mkOutcome "W" 64 1 0 0 "miss" 1] in
  out_fields <$> outs = echo scenario_config <$> filter (λ e, is_rw e = true) evs ∧
  Forall outcome_ok outs.
Proof.
  intros evs outs.
  apply (X18_output_echoes_trace scenario_config evs scenario_cache (mkStats 0 0 0 0)
           [[mkLine 1 0 1; mkLine 0 0 0]; [mkLine 0 0 0; mkLine 0 0 0];
            [mkLine 0 0 0; mkLine 0 0 0]; [mkLine 0 0 0; mkLine 0 0 0]]
           (mkStats 0 2 1 1)).
  vm_compute. reflexivity.
Defined.

Lemma outs_by_kind outs :
  Forall outcome_ok outs →
  sum_memrefs is_write outs
    = Z.of_nat (length (filter (λ o, is_write (o_type o) = true) outs)) ∧
  sum_memrefs is_read outs <= count_result "miss" outs ∧
  count_result "miss" outs <= sum_memrefs is_read outs + sum_memrefs is_write outs ∧
  sum_memrefs is_read outs + sum_memrefs is_write outs = sum_memrefs (λ _, true) outs.
Proof.
  induction 1 as [|o outs Ho _ IH]; [done|].
  change (o :: outs) with ([o] ++ outs).
  rewrite !sum_memrefs_app, !count_result_app, !sum_memrefs_single, count_result_single.
  rewrite filter_app, length_app, filter_cons, filter_nil.
  destruct IH as (IH1 & IH2 & IH3 & IH4).
  destruct Ho as [Hres [(Hr & Hw & Hm)|(Hr & Hw & Hm)]]; rewrite Hr, Hw, Hm.
  - rewrite decide_False by done. simpl. case_decide; lia.
  - rewrite decide_True by done. simpl. case_decide; lia.
Qed.

Lemma echo_write_count config evs : ∀ outs,
  out_fields <$> outs = echo config <$> filter (λ e, is_rw e = true) evs →
  length (filter (λ o, is_write (o_type o) = true) outs)
  = length (filter (λ e : event, is_write e.1 = true) evs).
Proof.
  induction evs as [|e evs IH]; intros outs Hecho.
  - apply fmap_nil_inv in Hecho. by subst.
  - destruct (is_rw e) eqn:Erw.
    + rewrite filter_cons_True in Hecho by done. rewrite fmap_cons in Hecho.
      destruct outs as [|o outs]; [done|]. rewrite fmap_cons in Hecho.
      apply (f_equal head) in Hecho as Hhead. simpl in Hhead.
      apply (f_equal tail) in Hecho as Hrest. simpl in Hrest.
      assert (Hty : o_type o = e.1)
        by (unfold out_fields, echo in Hhead; congruence).
      specialize (IH outs Hrest).
      destruct (is_write e.1) eqn:Ew.
      * rewrite !filter_cons_True by (by rewrite ?Hty). simpl. by rewrite IH.
      * rewrite !filter_cons_False by (rewrite ?Hty, Ew; done). done.
    + rewrite filter_cons_False in Hecho by (rewrite Erw; done).
      unfold is_rw in Erw. apply orb_false_iff in Erw as [_ Ew].
      rewrite filter_cons_False by (rewrite Ew; done). by apply IH.
Qed.

Lemma to_int_small x : -2147483648 <= x <= INT_MAX → to_int x = x.
Proof.
  intros H. unfold to_int, INT_MAX, UINT_MOD in *. rewrite Z.mod_small; lia.
Qed.

(** X19: after replaying at most [INT_MAX] accesses from the initial cache
    of a validated geometry, [mem_writes] is the number of write accesses
    of the trace (each write, hit or miss, is counted once), [mem_reads] is
    at most [misses], and [misses] is at most [mem_reads + mem_writes]. *)
Theorem X19_stats_by_kind ns assoc ls (evs : list event) :
  valid_geometry ns assoc ls →
  Z.of_nat (length evs) <= INT_MAX →
  ∃ cache stats outs,
    run (init_cache (mkConfig ns assoc ls 0 0)).2 evs
        (init_cache (mkConfig ns assoc ls 0 0)).1 (mkStats 0 0 0 0)
    = Some (cache, stats, outs) ∧
    mem_writes stats
      = Z.of_nat (length (filter (λ e : event, is_write e.1 = true) evs)) ∧
    0 <= mem_reads stats <= misses stats ∧
    misses stats <= mem_reads stats + mem_writes stats.
Proof.
  intros Hgeo Hmax.
  pose proof (init_config_ok ns assoc ls Hgeo) as Hcfg.
  pose proof (init_cache_inv ns assoc ls Hgeo) as Hinv.
  destruct (run_stats _ _ evs Hcfg Hinv Hmax)
    as (cache & stats & outs & Hrun & _ & (Hh & Hm & Hr & Hw) & (_ & _ & Hall)).
  exists cache, stats, outs. split; [exact Hrun|].
  destruct (run_outs _ _ _ _ _ _ _ Hrun) as [Hecho Hok].
  destruct (outs_by_kind outs Hok) as (H1 & H2 & H3 & _).
  pose proof (sum_memrefs_bound is_read outs Hall).
  rewrite (echo_write_count _ _ _ Hecho) in H1.
  rewrite Hw, Hr, Hm. split_and!; lia.
Qed.

Lemma X19_stats_by_kind_witness :
  let evs : list event := [("R"%char, 0); ("W"%char, 0); ("w"%char, 64); ("R"%char, 0)] in
  ∃ cache stats outs,
    run (init_cache (mkConfig 4 2 16 0 0)).2 evs
        (init_cache (mkConfig 4 2 16 0 0)).1 (mkStats 0 0 0 0)
    = Some (cache, stats, outs) ∧
    mem_writes stats
      = Z.of_nat (length (filter (λ e : event, is_write e.1 = true) evs)) ∧
    0 <= mem_reads stats <= misses stats ∧
    misses stats <= mem_reads stats + mem_writes stats.
Proof.
  intros evs. apply (X19_stats_by_kind 4 2 16 evs).
  - reflexivity.
  - simpl. unfold INT_MAX. lia.
Defined.

(** X20: for a trace of at most [INT_MAX] accesses, the totals of the
    summary that [main] prints are computed without overflow: "Total
    accesses" is the number of access lines printed and "Total memory refs"
    is the sum of their memory-reference column. *)
Theorem X20_summary_totals ns assoc ls (evs : list event) :
  valid_geometry ns assoc ls →
  Z.of_nat (length evs) <= INT_MAX →
  ∃ cache stats outs,
    run (init_cache (mkConfig ns assoc ls 0 0)).2 evs
        (init_cache (mkConfig ns assoc ls 0 0)).1 (mkStats 0 0 0 0)
    = Some (cache, stats, outs) ∧
    summary_totals stats
    = (Z.of_nat (length outs), sum_memrefs (λ _, true) outs).
Proof.
  intros Hgeo Hmax.
  pose proof (init_config_ok ns assoc ls Hgeo) as Hcfg.
  pose proof (init_cache_inv ns assoc ls Hgeo) as Hinv.
  destruct (run_stats _ _ evs Hcfg Hinv Hmax)
    as (cache & stats & outs & Hrun & _ & (Hh & Hm & Hr & Hw) & (Hlen & Hcnt & Hall)).
  exists cache, stats, outs. split; [exact Hrun|].
  destruct (run_outs _ _ _ _ _ _ _ Hrun) as [_ Hok].
  destruct (outs_by_kind outs Hok) as (_ & _ & _ & Hsum).
  pose proof (sum_memrefs_bound (λ _, true) outs Hall) as Hb.
  assert (Hle : Z.of_nat (length outs) <= Z.of_nat (length evs)).
  { rewrite Hlen. pose proof (length_filter (λ e, is_rw e = true) evs). lia. }
  unfold summary_totals. rewrite Hh, Hm, Hr, Hw, Hcnt, Hsum.
  rewrite !to_int_small by (unfold INT_MAX in *; lia). done.
Qed.

Lemma X20_summary_totals_witness :
  let evs : list event := [("R"%char, 0); ("W"%char, 0); ("w"%char, 64); ("R"%char, 0)] in
  ∃ cache stats outs,
    run (init_cache (mkConfig 4 2 16 0 0)).2 evs
        (init_cache (mkConfig 4 2 16 0 0)).1 (mkStats 0 0 0 0)
    = Some (cache, stats, outs) ∧
    summary_totals stats
    = (Z.of_nat (length outs), sum_memrefs (λ _, true) outs).
Proof.
  intros evs. apply (X20_summary_totals 4 2 16 evs).
  - reflexivity.
  - simpl. unfold INT_MAX. lia.
Defined.

(** ** Instances of the further properties *)

Ltac eval_config_ok :=
  unfold config_ok, MAX_ASSOCIATIVITY; vm_compute; intuition discriminate.

Ltac eval_cache_shape :=
  split; [reflexivity|];
  intros [|[|[|[|?]]]] ? H; simpl in H; [..|done]; injection H as <-; reflexivity.

Lemma X8_access_frame_witness :
  ∃ cache' stats' out,
    access_cache scenario_cache scenario_config "R" 100 (mkStats 0 0 0 0)
    = Some (cache', stats', out) ∧
    cache_shape scenario_config cache' ∧
    ∀ s0 : nat, s0 ≠ Z.to_nat (addr_index scenario_config 100) →
      cache' !! s0 = scenario_cache !! s0.
Proof. apply X8_access_frame; [eval_config_ok | eval_cache_shape]. Defined.

Lemma X9_only_read_miss_loads_witness :
  let cache := [[mkLine 1 0 1; mkLine 0 0 0]; [mkLine 0 0 0; mkLine 0 0 0];
                [mkLine 0 0 0; mkLine 0 0 0]; [mkLine 0 0 0; mkLine 0 0 0]] in
  ∃ cache' stats' out,
    access_cache cache scenario_config "R" 8 (mkStats 0 1 1 0)
    = Some (cache', stats', out) ∧
    ∀ (s0 w : nat) set0 l, cache !! s0 = Some set0 → set0 !! w = Some l →
      ∃ set0' l', cache' !! s0 = Some set0' ∧ set0' !! w = Some l' ∧
        valid l' = valid l ∧ tag l' = tag l.
Proof.
  intros cache.
  apply (X9_only_read_miss_loads scenario_config cache "R" 8 (mkStats 0 1 1 0)
           [mkLine 1 0 1; mkLine 0 0 0]).
  - eval_config_ok.
  - eval_cache_shape.
  - reflexivity.
  - right. exists 0%nat, (mkLine 1 0 1). done.
Defined.

Lemma X10_valid_stays_valid_witness :
  let cache := [[mkLine 1 0 1; mkLine 0 0 0]; [mkLine 0 0 0; mkLine 0 0 0];
                [mkLine 0 0 0; mkLine 0 0 0]; [mkLine 0 0 0; mkLine 0 0 0]] in
  let evs : list event := [("R"%char, 64); ("W"%char, 0); ("R"%char, 128)] in
  ∃ cache' stats' outs,
    run scenario_config evs cache (mkStats 0 1 1 0) = Some (cache', stats', outs) ∧
    ∀ (s0 w : nat) set0 l, cache !! s0 = Some set0 → set0 !! w = Some l →
      line_valid l →
      ∃ set0' l', cache' !! s0 = Some set0' ∧ set0' !! w = Some l' ∧ line_valid l'.
Proof.
  intros cache evs.
  apply (X10_valid_stays_valid scenario_config evs cache (mkStats 0 1 1 0)).
  - eval_config_ok.
  - eval_cache_shape.
Defined.

Lemma X11_no_eviction_unless_full_witness :
  let cache := [[mkLine 1 0 1; mkLine 0 0 0]; [mkLine 0 0 0; mkLine 0 0 0];
                [mkLine 0 0 0; mkLine 0 0 0]; [mkLine 0 0 0; mkLine 0 0 0]] in
  ∃ cache' stats' out,
    access_cache cache scenario_config "R" 64 (mkStats 0 1 1 0)
    = Some (cache', stats', out) ∧
    ∀ (s0 : nat) set0 t, cache !! s0 = Some set0 → resident set0 t →
      ∃ set0', cache' !! s0 = Some set0' ∧ resident set0' t.
Proof.
  intros cache.
  apply (X11_no_eviction_unless_full scenario_config cache "R" 64 (mkStats 0 1 1 0)
           [mkLine 1 0 1; mkLine 0 0 0]).
  - eval_config_ok.
  - eval_cache_shape.
  - reflexivity.
  - intros H. inversion H as [|? ? _ H2]. inversion H2 as [|? ? H3 _]. by apply H3.
Defined.

Lemma X12_read_then_hit_witness :
  ∃ cache' stats' o set' (w : nat) l',
    access_cache scenario_cache scenario_config "r" 100 (mkStats 0 0 0 0)
    = Some (cache', stats', Some o) ∧
    cache' !! Z.to_nat (addr_index scenario_config 100) = Some set' ∧
    set' !! w = Some l' ∧
    (line_valid l' ∧ tag l' = addr_tag scenario_config 100 ∧
     lru_counter l' = associativity scenario_config - 1) ∧
    ∀ ty2 address2 stats2,
      addr_index scenario_config address2 = addr_index scenario_config 100 →
      addr_tag scenario_config address2 = addr_tag scenario_config 100 →
      is_read ty2 = true ∨ is_write ty2 = true →
      ∃ cache2 stats2' o2,
        access_cache cache' scenario_config ty2 address2 stats2
        = Some (cache2, stats2', Some o2) ∧
        o_result o2 = "hit "%string.
Proof.
  apply X12_read_then_hit; [eval_config_ok | eval_cache_shape | reflexivity].
Defined.

Lemma X14_counters_dense_witness :
  let evs : list event := [("R"%char, 0); ("r"%char, 64); ("W"%char, 0)] in
  let set := [mkLine 1 0 1; mkLine 1 1 0] in
  ∃ k : nat, (k ≤ length set)%nat ∧
    (∀ (w : nat) l, set !! w = Some l → (line_valid l ↔ (w < k)%nat)) ∧
    ∀ c, 2 - Z.of_nat k <= c < 2 →
      ∃ (w : nat) l, set !! w = Some l ∧ line_valid l ∧ lru_counter l = c ∧
        ∀ (w' : nat) l', set !! w' = Some l' → line_valid l' →
          lru_counter l' = c → w' = w.
Proof.
  intros evs set.
  apply (X14_counters_dense 4 2 16 evs
           [[mkLine 1 0 1; mkLine 1 1 0]; [mkLine 0 0 0; mkLine 0 0 0];
            [mkLine 0 0 0; mkLine 0 0 0]; [mkLine 0 0 0; mkLine 0 0 0]]
           (mkStats 1 2 2 1)
           [mkOutcome "R" 0 0 0 0 "miss" 1; mkOutcome "r" 64 1 0 0 "miss" 1;
            mkOutcome "W" 0 0 0 0 "hit " 1] 0%nat set).
  - reflexivity.
  - vm_compute. reflexivity.
  - reflexivity.
Defined.

(** ** The line just used survives the next access *)

(** A read, or a write that hits, leaves its tag in a valid line with the
    highest counter. *)
Lemma read_or_hit_mru config cache ty address stats set :
  config_ok config → cache_shape config cache →
  cache !! Z.to_nat (addr_index config address) = Some set →
  is_read ty = true ∨ is_write ty = true ∧ resident set (addr_tag config address) →
  ∃ cache' stats' out set' (w : nat) l',
    access_cache cache config ty address stats = Some (cache', stats', out) ∧
    cache' !! Z.to_nat (addr_index config address) = Some set' ∧
    set' !! w = Some l' ∧ line_valid l' ∧
    tag l' = addr_tag config address ∧
    lru_counter l' = associativity config - 1.
Proof.
  intros Hcfg Hshape Hset Hkind.
  set (s := Z.to_nat (addr_index config address)) in *.
  set (tg := addr_tag config address) in *.
  set (assoc := associativity config).
  assert (Hassoc : to_uint (assoc - 1) = assoc - 1).
  { apply to_uint_small. destruct Hcfg as [? _].
    unfold MAX_ASSOCIATIVITY, UINT_MOD, assoc in *. lia. }
  assert (Hs := lookup_lt_Some _ _ _ Hset).
  assert (Hgoal : ∀ (w : nat) lw stats' out,
            (w < length set)%nat → line_valid lw → tag lw = tg →
            access_cache cache config ty address stats
            = Some (<[s := lru_touch set assoc w lw]> cache, stats', out) →
            ∃ cache' stats' out set' (w : nat) l',
              access_cache cache config ty address stats = Some (cache', stats', out) ∧
              cache' !! s = Some set' ∧ set' !! w = Some l' ∧ line_valid l' ∧
              tag l' = tg ∧ lru_counter l' = assoc - 1).
  { intros w lw stats' out Hw Hv Ht Hr.
    exists (<[s := lru_touch set assoc w lw]> cache), stats', out,
           (lru_touch set assoc w lw), w, (set_lru_counter lw (to_uint (assoc - 1))).
    split; [exact Hr|]. split; [by apply list_lookup_insert_eq|].
    split; [by apply lru_touch_lookup_eq|]. split_and!; done. }
  destruct (access_cache_cases config cache ty address stats Hcfg Hshape)
    as (set1 & Hset1 & [(i & l & Hl & Hm & _ & Hr)|(Hnone & v & lv & _ & Hlv & Hr)]);
    fold s tg assoc in Hr, Hset1; rewrite Hset in Hset1; injection Hset1 as <-.
  - apply tag_match_true in Hm as [Hv Ht].
    assert (Hi := lookup_lt_Some _ _ _ Hl).
    destruct (is_read ty) eqn:Er; [exact (Hgoal i l _ _ Hi Hv Ht Hr)|].
    destruct Hkind as [|[Hw _]]; [done|]. rewrite Hw in Hr.
    exact (Hgoal i l _ _ Hi Hv Ht Hr).
  - assert (Hvlt := lookup_lt_Some _ _ _ Hlv).
    destruct Hkind as [Hread|[_ Hres]].
    + rewrite Hread in Hr.
      eapply (Hgoal v (mkLine 1 tg (lru_counter lv))); [exact Hvlt | done | done | exact Hr].
    + exfalso. by apply (not_resident _ _ Hnone).
Qed.

(** With at least two ways, the tag that an access loads or hits is still
    resident after the next access. *)
Lemma mru_survives config cache ty address stats set :
  config_ok config → cache_inv config cache → 2 <= associativity config →
  cache !! Z.to_nat (addr_index config address) = Some set →
  is_read ty = true ∨ is_write ty = true ∧ resident set (addr_tag config address) →
  ∃ cache1 stats1 out1,
    access_cache cache config ty address stats = Some (cache1, stats1, out1) ∧
    ∀ ty2 address2 stats2,
      ∃ cache2 stats2' out2 set2,
        access_cache cache1 config ty2 address2 stats2
        = Some (cache2, stats2', out2) ∧
        cache2 !! Z.to_nat (addr_index config address) = Some set2 ∧
        resident set2 (addr_tag config address).
Proof.
  intros Hcfg Hinv Hassoc2 Hset Hkind.
  destruct (read_or_hit_mru config cache ty address stats set Hcfg
              (cache_inv_shape _ _ Hinv) Hset Hkind)
    as (cache1 & stats1 & out1 & set1 & w & l1 & Hr1 & Hset1 & Hl1 & Hv1 & Ht1 & Hc1).
  destruct (access_cache_inv config cache ty address stats Hcfg Hinv)
    as (c & st & o & Hr1' & Hinv1).
  rewrite Hr1 in Hr1'. injection Hr1' as <- <- <-.
  exists cache1, stats1, out1. split; [done|].
  intros ty2 address2 stats2.
  destruct (access_cache_effect config cache1 ty2 address2 stats2 Hcfg
              (cache_inv_shape _ _ Hinv1))
    as (setb & cache2 & stats2' & out2 & setb' & Hsetb & Hr2 & Hsetb' & _ & _ & Hother
        & Hcase).
  exists cache2, stats2', out2.
  destruct (decide (Z.to_nat (addr_index config address) = Z.to_nat (addr_index config address2))) as [Heq|Hne].
  - (* the second access goes to the same set *)
    rewrite <- Heq in Hsetb, Hsetb'. assert (setb = set1) by congruence. subst setb.
    exists setb'. split; [done|]. split; [done|].
    assert (Hkeep : ∀ l', setb' !! w = Some l' → valid l' = valid l1 →
                          tag l' = tag l1 → resident setb' (addr_tag config address)).
    { intros l' Hl' Hv' Ht'. exists w, l'. unfold line_valid in *.
      split_and!; congruence. }
    destruct Hcase as [[_ Hsame]|(_ & _ & v & lv & Hvic & Hlv & _ & Hsame)].
    + destruct (Hsame w l1 Hl1) as (l' & Hl' & Hv' & Ht'). by eapply Hkeep.
    + destruct (decide (w = v)) as [->|Hwv];
        [exfalso | destruct (Hsame w l1 Hwv Hl1) as (l' & Hl' & Hv' & Ht'); by eapply Hkeep].
      assert (lv = l1) by congruence. subst lv.
      destruct Hinv1 as [_ Hsets].
      destruct (Hsets _ set1 Hset1) as (k & Hlen & Hk & Hval & Hemp & Hdist).
      destruct (find_lru_victim_spec set1 (associativity config))
        as (v' & lv' & Hv' & Hlv' & Hspec); [done | lia |].
      assert (v' = v) by (rewrite Hvic in Hv'; injection Hv'; lia). subst v'.
      assert (lv' = l1) by congruence. subst lv'.
      destruct Hspec as [[Hinvalid _]|(Hall & Hmin & _)]; [by apply Hv1|].
      (* another way of the set has a smaller counter than [associativity - 1] *)
      destruct (lookup_lt_is_Some_2 set1 (if decide (v = 0%nat) then 1%nat else 0%nat))
        as [lj Hlj]; [case_decide; lia|].
      set (j := if decide (v = 0%nat) then 1%nat else 0%nat) in *.
      assert (Hjv : j ≠ v) by (unfold j; case_decide; lia).
      assert (Hvj : line_valid lj) by (by apply (Hall j)).
      assert (Hjk : (j < k)%nat).
      { destruct (decide (j < k)%nat); [done|].
        rewrite (Hemp j lj Hlj) in Hvj by lia. done. }
      destruct (Hval j lj Hlj Hjk) as [_ Hrange].
      destruct (Hdist j v lj l1 Hjv Hlj Hl1 Hvj Hv1) as [_ Hcne].
      pose proof (Hmin j lj Hlj). lia.
  - (* the second access goes to another set *)
    exists set1. split; [done|]. split.
    + rewrite Hother by done. done.
    + exists w, l1. done.
Qed.

(** X21: with at least two ways, the line just used is never the next one
    to go: in a state reachable from the initial cache, after a read (hit
    or miss) or a write hit of a tag, that tag is still resident in its set
    after the following access, whatever that access is. *)
Theorem X21_mru_survives_next_access ns assoc ls (evs : list event) cache stats outs
    ty address set :
  valid_geometry ns assoc ls → 2 <= assoc →
  let config := (init_cache (mkConfig ns assoc ls 0 0)).2 in
  run config evs (init_cache (mkConfig ns assoc ls 0 0)).1 (mkStats 0 0 0 0)
  = Some (cache, stats, outs) →
  cache !! Z.to_nat (addr_index config address) = Some set →
  is_read ty = true ∨ is_write ty = true ∧ resident set (addr_tag config address) →
  ∃ cache1 stats1 out1,
    access_cache cache config ty address stats = Some (cache1, stats1, out1) ∧
    ∀ ty2 address2 stats2,
      ∃ cache2 stats2' out2 set2,
        access_cache cache1 config ty2 address2 stats2
        = Some (cache2, stats2', out2) ∧
        cache2 !! Z.to_nat (addr_index config address) = Some set2 ∧
        resident set2 (addr_tag config address).
Proof.
  intros Hgeo Hassoc config Hrun Hset Hkind.
  destruct (reachable_inv ns assoc ls evs cache stats outs Hgeo Hrun) as [Hcfg Hinv].
  by apply (mru_survives config cache ty address stats set).
Qed.

Lemma X21_mru_survives_next_access_witness :
  let config := (init_cache (mkConfig 4 2 16 0 0)).2 in
  let evs : list event := [("R"%char, 0); ("R"%char, 64)] in
  let cache := [[mkLine 1 0 0; mkLine 1 1 1]; [mkLine 0 0 0; mkLine 0 0 0];
                [mkLine 0 0 0; mkLine 0 0 0]; [mkLine 0 0 0; mkLine 0 0 0]] in
  ∃ cache1 stats1 out1,
    access_cache cache config "W" 0 (mkStats 0 2 2 0) = Some (cache1, stats1, out1) ∧
    ∀ ty2 address2 stats2,
      ∃ cache2 stats2' out2 set2,
        access_cache cache1 config ty2 address2 stats2
        = Some (cache2, stats2', out2) ∧
        cache2 !! Z.to_nat (addr_index config 0) = Some set2 ∧
        resident set2 (addr_tag config 0).
Proof.
  intros config evs cache.
  apply (X21_mru_survives_next_access 4 2 16 evs cache (mkStats 0 2 2 0)
           [mkOutcome "R" 0 0 0 0 "miss" 1; mkOutcome "R" 64 1 0 0 "miss" 1]
           "W" 0 [mkLine 1 0 0; mkLine 1 1 1]).
  - reflexivity.
  - lia.
  - vm_compute. reflexivity.
  - reflexivity.
  - right. split; [reflexivity|]. exists 0%nat, (mkLine 1 0 0). done.
Defined.

(** ** True LRU on traces of reads and writes *)

Lemma last_use_from_snoc config evs (e : event) s t : ∀ pos acc,
  last_use_from config pos (evs ++ [e]) s t acc =
  if is_rw e && (addr_index config e.2 =? s) && (addr_tag config e.2 =? t)
  then Some (pos + length evs)%nat
  else last_use_from config pos evs s t acc.
Proof.
  induction evs as [|e0 evs IH]; intros pos acc; simpl.
  - rewrite Nat.add_0_r. done.
  - rewrite IH. replace (S pos + length evs)%nat with (pos + S (length evs))%nat by lia.
    done.
Qed.

Lemma last_use_from_bound config evs s t : ∀ pos acc p,
  last_use_from config pos evs s t acc = Some p →
  acc = Some p ∨ (pos ≤ p < pos + length evs)%nat.
Proof.
  induction evs as [|e evs IH]; intros pos acc p; simpl; [by left|].
  intros H. apply IH in H as [H|H]; [|right; lia].
  destruct (_ && _); [injection H as <-; right; lia | by left].
Qed.

Lemma last_use_lt config evs s t p :
  last_use config evs s t = Some p → (p < length evs)%nat.
Proof.
  intros H. apply last_use_from_bound in H as [H|H]; [done | lia].
Qed.

Lemma last_use_other config evs (e : event) s t :
  ¬ (is_rw e = true ∧ addr_index config e.2 = s ∧ addr_tag config e.2 = t) →
  last_use config (evs ++ [e]) s t = last_use config evs s t.
Proof.
  intros H. unfold last_use. rewrite last_use_from_snoc.
  destruct (is_rw e) eqn:E0; [|done].
  destruct (addr_index config e.2 =? s) eqn:E1; [|done].
  destruct (addr_tag config e.2 =? t) eqn:E2; [|done].
  apply Z.eqb_eq in E1, E2. tauto.
Qed.

Lemma last_use_same config evs (e : event) :
  is_rw e = true →
  last_use config (evs ++ [e]) (addr_index config e.2) (addr_tag config e.2)
  = Some (length evs).
Proof.
  intros H. unfold last_use. rewrite last_use_from_snoc, H, !Z.eqb_refl. done.
Qed.

(** An access that changes nothing keeps the order when the positions of
    the resident tags are unchanged. *)
Lemma order_by_unchanged (la la' : Z → Z → option nat) cache :
  order_by la cache →
  (∀ (s : nat) set t, cache !! s = Some set → resident set t →
     la' (Z.of_nat s) t = la (Z.of_nat s) t) →
  order_by la' cache.
Proof.
  intros Hord Hsame s set Hset i j li lj Hli Hlj Hvi Hvj.
  rewrite (Hsame s set (tag li) Hset) by (exists i, li; done).
  rewrite (Hsame s set (tag lj) Hset) by (exists j, lj; done).
  by apply (Hord s set Hset i j).
Qed.

(** An access that loads or hits way [w] of set [s] with tag [tg] keeps
    the order when it is the latest position of [(s, tg)] and the positions
    of all other pairs are unchanged. *)
Lemma order_by_touch (la la' : Z → Z → option nat) (n : nat) config cache
    (s w : nat) set lw tg :
  config_ok config → cache_inv config cache → order_by la cache →
  cache !! s = Some set → set !! w = Some lw →
  (∀ (j : nat) lj, j ≠ w → set !! j = Some lj → tag_match tg lj = false) →
  (line_valid lw ∨
   ∀ (j : nat) lj, (j < w)%nat → set !! j = Some lj → valid lj ≠ 0) →
  la' (Z.of_nat s) tg = Some n →
  (∀ s0 t, ¬ (s0 = Z.of_nat s ∧ t = tg) → la' s0 t = la s0 t) →
  (∀ s0 t p, la s0 t = Some p → (p < n)%nat) →
  order_by la'
    (<[s := lru_touch set (associativity config) w (mkLine 1 tg (lru_counter lw))]> cache).
Proof.
  intros Hcfg Hinv Hord Hset Hw Htags Hpos Hsame Hothers Hlt.
  assert (Hassoc : 1 <= associativity config <= INT_MAX).
  { destruct Hcfg as [? _]. unfold MAX_ASSOCIATIVITY, INT_MAX in *. lia. }
  assert (Hsinv : set_inv (associativity config) set).
  { destruct Hinv as [_ Hsets]. by apply (Hsets s). }
  pose proof (accessed_counter_range _ _ _ _ Hassoc Hsinv Hw) as Hac.
  pose proof (accessed_way_new _ _ _ _ tg Hassoc Hw) as Hnew.
  pose proof (other_way _ _ _ _ tg Hassoc Hsinv Hw Htags Hpos) as Hother.
  intros s0 set0 Hset0.
  destruct (decide (s0 = s)) as [->|Hne].
  - rewrite list_lookup_insert_eq in Hset0 by (by apply lookup_lt_Some in Hset).
    injection Hset0 as <-.
    assert (Hlast : ∀ (i : nat) li', i ≠ w →
              lru_touch set (associativity config) w (mkLine 1 tg (lru_counter lw)) !! i
              = Some li' → line_valid li' →
              ∃ li, set !! i = Some li ∧ line_valid li ∧
                lru_counter li ≠ lru_counter lw ∧
                lru_counter li < associativity config ∧
                lru_counter li' = lru_counter li
                  - (if decide (lru_counter lw < lru_counter li) then 1 else 0) ∧
                la' (Z.of_nat s) (tag li') = la (Z.of_nat s) (tag li)).
    { intros i li' Hi Hli' Hvi.
      destruct (Hother i li' Hi Hli') as (li & Hli & Hv' & Ht' & Hvalid & _).
      assert (Hlv : line_valid li) by (unfold line_valid in *; congruence).
      destruct (Hvalid Hlv) as (_ & Htne & Hcne & Hrange & Hcnt).
      exists li. split_and!; try done; try lia.
      rewrite Ht'. apply Hothers. intros [_ Heq]. done. }
    intros i j li' lj' Hli' Hlj' Hvi Hvj.
    destruct (decide (i = w)) as [->|Hiw].
    + rewrite Hnew in Hli'. injection Hli' as <-. simpl.
      split; [rewrite Hsame; eauto|].
      intros Hlt'. exfalso.
      destruct (decide (j = w)) as [->|Hjw].
      * rewrite Hnew in Hlj'. injection Hlj' as <-. simpl in Hlt'. lia.
      * destruct (Hlast j lj' Hjw Hlj' Hvj) as (lj & _ & _ & Hc & Hr & Hcnt & _).
        rewrite Hcnt in Hlt'. case_decide; lia.
    + destruct (Hlast i li' Hiw Hli' Hvi) as (li & Hli & Hlvi & Hci & Hri & Hcnti & Hlai).
      destruct (Hord s set Hset i i li li Hli Hli Hlvi Hlvi) as [[p Hp] _].
      split; [rewrite Hlai, Hp; eauto|].
      intros Hlt'.
      destruct (decide (j = w)) as [->|Hjw].
      * rewrite Hnew in Hlj'. injection Hlj' as <-. simpl.
        rewrite Hsame, Hlai, Hp. exists p, n.
        split_and!; try done. by apply (Hlt _ _ _ Hp).
      * destruct (Hlast j lj' Hjw Hlj' Hvj) as (lj & Hlj & Hlvj & Hcj & Hrj & Hcntj & Hlaj).
        rewrite Hlai, Hlaj.
        destruct (Hord s set Hset i j li lj Hli Hlj Hlvi Hlvj) as [_ Hearlier].
        apply Hearlier.
        rewrite Hcnti, Hcntj in Hlt'. repeat case_decide; lia.
  - rewrite list_lookup_insert_ne in Hset0 by lia.
    intros i j li lj Hli Hlj Hvi Hvj.
    rewrite !Hothers by (intros [? _]; lia).
    by apply (Hord s0 set0 Hset0 i j).
Qed.

(** One access on a cache in its invariant: either the array is unchanged
    and the access is of unknown type or a write whose tag is not resident,
    or it is a read or write that loads or hits one way of its set. *)
Lemma access_cache_step_rw config cache ty address stats :
  config_ok config → cache_inv config cache →
  ∃ set stats' out,
    cache !! Z.to_nat (addr_index config address) = Some set ∧
    ((access_cache cache config ty address stats = Some (cache, stats', out) ∧
      (is_rw (ty, address) = false ∨ ¬ resident set (addr_tag config address))) ∨
     (is_rw (ty, address) = true ∧
      ∃ (w : nat) lw, set !! w = Some lw ∧
        (∀ (j : nat) lj, j ≠ w → set !! j = Some lj →
           tag_match (addr_tag config address) lj = false) ∧
        (line_valid lw ∨
         ∀ (j : nat) lj, (j < w)%nat → set !! j = Some lj → valid lj ≠ 0) ∧
        access_cache cache config ty address stats =
          Some (<[Z.to_nat (addr_index config address) :=
                   lru_touch set (associativity config) w
                     (mkLine 1 (addr_tag config address) (lru_counter lw))]> cache,
                stats', out))).
Proof.
  intros Hcfg Hinv. unfold is_rw. simpl.
  destruct (access_cache_cases config cache ty address stats Hcfg
              (cache_inv_shape _ _ Hinv))
    as (set & Hset & [(i & l & Hl & Hm & _ & Hr)|(Hnone & v & lv & Hv & Hlv & Hr)]);
    exists set.
  - apply tag_match_true in Hm as [Hvalid Htag].
    destruct Hinv as [_ Hsets].
    destruct (Hsets _ set Hset) as (k & Hlen & Hk & Hval & Hemp & Hdist).
    assert (Hik : (i < k)%nat).
    { destruct (decide (i < k)%nat); [done|].
      rewrite (Hemp i l Hl) in Hvalid by lia. done. }
    destruct (Hval i l Hl Hik) as [Hv1 _].
    rewrite (line_eta l _ Hv1 Htag) in Hr.
    assert (Htags : ∀ (j : nat) lj, j ≠ i → set !! j = Some lj →
                                    tag_match (addr_tag config address) lj = false).
    { intros j lj Hne Hlj. destruct (tag_match _ lj) eqn:E; [exfalso|done].
      apply tag_match_true in E as [Hvj Htj].
      destruct (Hdist j i lj l Hne Hlj Hl Hvj Hvalid) as [Hneq _]. congruence. }
    destruct (is_read ty) eqn:Er; [|destruct (is_write ty) eqn:Ew]; simpl.
    + do 2 eexists. split; [done|]. right. split; [done|]. exists i, l.
      split; [done|]. split; [done|]. split; [by left | exact Hr].
    + do 2 eexists. split; [done|]. right. split; [done|]. exists i, l.
      split; [done|]. split; [done|]. split; [by left | exact Hr].
    + do 2 eexists. split; [done|]. left. split; [exact Hr | by left].
  - destruct (is_read ty) eqn:Er; [|destruct (is_write ty) eqn:Ew]; simpl.
    + do 2 eexists. split; [done|]. right. split; [done|]. exists v, lv.
      split; [done|]. split; [intros j lj _; apply Hnone|]. split; [|exact Hr].
      destruct Hinv as [_ Hsets].
      destruct (Hsets _ set Hset) as (k & Hlen & Hk & Hval & Hemp & Hdist).
      destruct (find_lru_victim_spec set (associativity config))
        as (v' & lv' & Hv' & Hlv' & Hvic); [done | destruct Hcfg; lia |].
      assert (v' = v) by (rewrite Hv in Hv'; injection Hv'; lia). subst v'.
      assert (lv' = lv) by congruence. subst lv'.
      destruct Hvic as [[_ Hfirst]|[Hall _]]; [by right | left; apply (Hall v lv Hlv)].
    + do 2 eexists. split; [done|]. left. split; [exact Hr|].
      right. by apply not_resident.
    + do 2 eexists. split; [done|]. left. split; [exact Hr | by left].
Qed.

Lemma access_cache_use_order config cache evs (e : event) stats cache' stats' out :
  config_ok config → cache_inv config cache →
  order_by (last_use config evs) cache →
  access_cache cache config e.1 e.2 stats = Some (cache', stats', out) →
  order_by (last_use config (evs ++ [e])) cache'.
Proof.
  intros Hcfg Hinv Hord Hacc.
  pose proof (addr_index_range config e.2 Hcfg) as Hidx.
  destruct (access_cache_step_rw config cache e.1 e.2 stats Hcfg Hinv)
    as (set & stats1 & out1 & Hset &
        [[Hr Hwhy]|(Hrw & w & lw & Hw & Htags & Hpos & Hr)]);
    rewrite Hacc in Hr; injection Hr as -> _ _.
  - apply (order_by_unchanged (last_use config evs)); [done|].
    intros s set0 t Hset0 Hres. apply last_use_other.
    intros (Hrw & Hs & Ht).
    destruct Hwhy as [Hnrw|Hnres]; [destruct e; simpl in *; congruence|].
    apply Hnres. rewrite Ht.
    assert (s = Z.to_nat (addr_index config e.2)) by lia. subst s.
    assert (set0 = set) by congruence. by subst.
  - apply (order_by_touch (last_use config evs) _ (length evs)); try done.
    + rewrite Z2Nat.id by lia. apply last_use_same. by destruct e.
    + intros s0 t Hne. apply last_use_other.
      intros (_ & Hs & Ht). apply Hne. rewrite Z2Nat.id by lia. done.
    + intros s0 t p. apply last_use_lt.
Qed.

Lemma run_use_order config cache0 evs :
  config_ok config → cache_inv config cache0 →
  (∀ (s : nat) set, cache0 !! s = Some set → Forall (λ l, valid l = 0) set) →
  ∃ cache stats outs,
    run config evs cache0 (mkStats 0 0 0 0) = Some (cache, stats, outs) ∧
    cache_inv config cache ∧ order_by (last_use config evs) cache.
Proof.
  intros Hcfg Hinv0 Hempty.
  induction evs as [|e evs IH] using rev_ind.
  - exists cache0, (mkStats 0 0 0 0), []. split_and!; try done.
    intros s set Hset i j li lj Hli _ Hvi.
    pose proof (Hempty s set Hset) as Hall.
    rewrite Forall_lookup in Hall. specialize (Hall i li Hli). done.
  - destruct IH as (c1 & s1 & o1 & Hrun & Hinv1 & Hord).
    rewrite run_snoc, Hrun. simpl.
    destruct (access_cache_inv config c1 e.1 e.2 s1 Hcfg Hinv1)
      as (c2 & s2 & o & Hacc & Hinv2).
    rewrite Hacc. simpl.
    exists c2, s2, (o1 ++ opt_list o). split_and!; try done.
    exact (access_cache_use_order config c1 evs e s1 c2 s2 o Hcfg Hinv1 Hord Hacc).
Qed.

(** X22: true LRU on arbitrary traces: after any sequence of accesses
    (reads, writes, other types) replayed from the initial cache, a read
    miss on a full set replaces exactly the way [v] returned by
    [find_lru_victim]: way [v] of the set then holds the new tag as most
    recently used, every other way of the set keeps its line, every other
    set is unchanged, and [v] held the tag that was least recently used,
    a use being a read or write of that tag in that set: the last use of
    the evicted tag is strictly before the last use of the tag of every
    other way. *)
Theorem X22_true_lru_mixed_trace ns assoc ls (evs : list event) cache stats outs
    ty address set :
  valid_geometry ns assoc ls →
  let config := (init_cache (mkConfig ns assoc ls 0 0)).2 in
  let s := Z.to_nat (addr_index config address) in
  let tg := addr_tag config address in
  run config evs (init_cache (mkConfig ns assoc ls 0 0)).1 (mkStats 0 0 0 0)
  = Some (cache, stats, outs) →
  cache !! s = Some set →
  set_full set → ¬ resident set tg → is_read ty = true →
  ∃ (v : nat) lv cache' stats' out set',
    access_cache cache config ty address stats = Some (cache', stats', out) ∧
    find_lru_victim set assoc = Some (Z.of_nat v) ∧
    set !! v = Some lv ∧
    cache' !! s = Some set' ∧
    set' !! v = Some (mkLine 1 tg (assoc - 1)) ∧
    (∀ s0 : nat, s0 ≠ s → cache' !! s0 = cache !! s0) ∧
    (∀ (w : nat) l, w ≠ v → set !! w = Some l →
       (∃ l', set' !! w = Some l' ∧ valid l' = valid l ∧ tag l' = tag l) ∧
       earlier (last_use config evs (Z.of_nat s) (tag lv))
               (last_use config evs (Z.of_nat s) (tag l))).
Proof.
  intros Hgeo config s tg Hrun Hset Hfull Hmiss Hread.
  pose proof (init_config_ok ns assoc ls Hgeo) as Hcfg.
  pose proof (init_cache_inv ns assoc ls Hgeo) as Hinv0.
  change (init_config _) with config in Hcfg, Hinv0.
  destruct (run_use_order config _ evs Hcfg Hinv0 (init_lines_invalid _))
    as (cache1 & stats1 & outs1 & Hrun1 & Hinv & Hord).
  simpl in Hrun. rewrite Hrun in Hrun1. injection Hrun1 as <- <- <-.
  assert (Hassoc_eq : associativity config = assoc) by done.
  assert (Hassoc : 1 <= assoc <= INT_MAX).
  { destruct Hcfg as [? _]. unfold MAX_ASSOCIATIVITY, INT_MAX in *.
    rewrite Hassoc_eq in *. lia. }
  assert (Hsinv : set_inv assoc set).
  { destruct Hinv as [_ Hsets]. rewrite <- Hassoc_eq. by apply (Hsets s). }
  assert (Hvalid : ∀ (w : nat) l, set !! w = Some l → line_valid l).
  { intros w l Hwl. unfold set_full in Hfull. rewrite Forall_lookup in Hfull.
    by apply (Hfull w). }
  destruct (access_cache_cases config cache ty address stats Hcfg
              (cache_inv_shape _ _ Hinv))
    as (set1 & Hset1 & [(i & l & Hl & Hm & _ & _)|(Hnone & v & lv & Hv & Hlv & Hr)]);
    fold s tg in Hset1; rewrite Hset in Hset1; injection Hset1 as <-.
  { exfalso. apply Hmiss. apply resident_iff. eauto. }
  fold s tg in Hr. rewrite Hread, Hassoc_eq in Hr. rewrite Hassoc_eq in Hv.
  assert (Htags : ∀ (j : nat) lj, j ≠ v → set !! j = Some lj → tag_match tg lj = false).
  { intros j lj _. apply Hnone. }
  assert (Hpos : line_valid lv ∨
                 ∀ (j : nat) lj, (j < v)%nat → set !! j = Some lj → valid lj ≠ 0).
  { left. by apply (Hvalid v). }
  destruct (find_lru_victim_spec set assoc) as (v' & lv' & Hv' & Hlv' & Hvic);
    [by destruct Hsinv as (k & ? & _) | lia |].
  assert (v' = v) by (rewrite Hv in Hv'; injection Hv'; lia). subst v'.
  assert (lv' = lv) by congruence. subst lv'.
  destruct Hvic as [[Hinvalid _]|(_ & Hmin & _)].
  { exfalso. by apply (Hvalid v lv Hlv). }
  eexists v, lv, _, _, _, _. split; [exact Hr|].
  split; [exact Hv|]. split; [exact Hlv|].
  split; [apply list_lookup_insert_eq; by apply lookup_lt_Some in Hset|].
  split; [by apply accessed_way_new|].
  split; [intros s0 Hs0; by apply list_lookup_insert_ne|].
  intros w l Hw Hwl.
  assert (Hlook : lru_touch set assoc v (mkLine 1 tg (lru_counter lv)) !! w
                  = Some (touch_line (lru_counter lv) l)).
  { unfold lru_touch. rewrite list_lookup_insert_ne by done.
    by rewrite list_lookup_fmap, Hwl. }
  split.
  { exists (touch_line (lru_counter lv) l).
    by rewrite touch_line_valid, touch_line_tag. }
  destruct (Hord s set Hset v w lv l Hlv Hwl (Hvalid _ _ Hlv) (Hvalid _ _ Hwl))
    as [_ Hearlier].
  apply Hearlier.
  destruct Hsinv as (k & _ & _ & _ & _ & Hdist).
  destruct (Hdist v w lv l ltac:(done) Hlv Hwl (Hvalid _ _ Hlv) (Hvalid _ _ Hwl))
    as [_ Hcne].
  pose proof (Hmin w l Hwl). lia.
Qed.

Lemma X22_true_lru_mixed_trace_witness :
  let config := (init_cache (mkConfig 4 2 16 0 0)).2 in
  let evs : list event := [("R"%char, 0); ("R"%char, 64); ("W"%char, 0); ("W"%char, 128)] in
  let cache := [[mkLine 1 0 1; mkLine 1 1 0]; [mkLine 0 0 0; mkLine 0 0 0];
                [mkLine 0 0 0; mkLine 0 0 0]; [mkLine 0 0 0; mkLine 0 0 0]] in
  let set := [mkLine 1 0 1; mkLine 1 1 0] in
  let s := Z.to_nat (addr_index config 128) in
  let tg := addr_tag config 128 in
  ∃ (v : nat) lv cache' stats' out set',
    access_cache cache config "R" 128 (mkStats 1 3 2 2) = Some (cache', stats', out) ∧
    find_lru_victim set 2 = Some (Z.of_nat v) ∧
    set !! v = Some lv ∧
    cache' !! s = Some set' ∧
    set' !! v = Some (mkLine 1 tg (2 - 1)) ∧
    (∀ s0 : nat, s0 ≠ s → cache' !! s0 = cache !! s0) ∧
    (∀ (w : nat) l, w ≠ v → set !! w = Some l →
       (∃ l', set' !! w = Some l' ∧ valid l' = valid l ∧ tag l' = tag l) ∧
       earlier (last_use config evs (Z.of_nat s) (tag lv))
               (last_use config evs (Z.of_nat s) (tag l))).
Proof.
  intros config evs cache set s tg.
  apply (X22_true_lru_mixed_trace 4 2 16 evs cache (mkStats 1 3 2 2)
           [mkOutcome "R" 0 0 0 0 "miss" 1; mkOutcome "R" 64 1 0 0 "miss" 1;
            mkOutcome "W" 0 0 0 0 "hit " 1; mkOutcome "W" 128 2 0 0 "miss" 1]
           "R" 128 set).
  - reflexivity.
  - vm_compute. reflexivity.
  - reflexivity.
  - repeat constructor; discriminate.
  - intros (w & l & Hl & Hv & Ht).
    destruct w as [|[|w]]; simpl in Hl; [| |done];
      injection Hl as <-; vm_compute in Ht; discriminate.
  - reflexivity.
Defined.
